(** * Bonzi-Clone: the desktop buddy and its sprite preprocessing tool

    A shallow embedding of [src/main.py] (the [Buddy] widget: frame
    store, animation engine, drag handling) and of
    [src/tools/blue_to_alpha.py] (chroma-key extraction), with the
    properties the specification states about them.

    Conventions.
    - Python [int] is [Z]; Python [float] is IEEE binary64, modelled by
      Rocq's primitive [float] (same format, same correctly rounded
      operations), so the arithmetic of [dist] and of the feather is
      computed here bit for bit as CPython computes it.
    - A function that can raise returns [option] or [result].
    - Qt widgets and timers are fields of a state record; handlers are
      functions from state to state. *)

From stdpp Require Import base list strings.
From Stdlib Require Import ZArith Lia Bool.
From Stdlib Require Import Floats Uint63.

Local Open Scope Z_scope.

(** ** Small Python prelude *)

(** [for x in xs: body] where the body may raise: the first failure
    ends the loop. *)
Fixpoint for_each {A S : Type} (xs : list A) (body : A -> S -> option S)
    (s : S) : option S :=
  match xs with
  | [] => Some s
  | x :: xs' =>
      match body x s with
      | Some s' => for_each xs' body s'
      | None => None
      end
  end.

(** [range(n)] *)
Definition range (n : Z) : list Z := seqZ 0 n.

(** [float(n)] for an [int] with [0 <= n < 2^63] (exact below 2^53).
    Outside that range the conversion here wraps where Python converts
    or raises [OverflowError]; every squared distance between 8-bit
    colours is at most 195075, and the properties of [dist] below are
    stated for 8-bit colours and keys only. *)
Definition float_of_int (n : Z) : float := PrimFloat.of_uint63 (Uint63.of_Z n).

(** [int(f)]: truncation towards zero of a finite float. *)
Definition int_of_float (f : float) : Z :=
  match Prim2SF f with
  | S754_finite s m e =>
      let mag := if 0 <=? e then Z.shiftl (Zpos m) e
                 else Z.shiftr (Zpos m) (- e) in
      if s then - mag else mag
  | _ => 0
  end.

(** [round(f)]: nearest integer, ties to even. *)
Definition round_of_float (f : float) : Z :=
  match Prim2SF f with
  | S754_finite s m e =>
      let mag :=
        if 0 <=? e then Z.shiftl (Zpos m) e
        else
          let q := Z.shiftr (Zpos m) (- e) in
          let rem2 := 2 * (Zpos m - Z.shiftl q (- e)) in
          let one := Z.shiftl 1 (- e) in
          if rem2 <? one then q
          else if one <? rem2 then q + 1
          else if Z.even q then q else q + 1 in
      if s then - mag else mag
  | _ => 0
  end.

(** Exhaustive check of a boolean property on [lo, lo + k). *)
Fixpoint all_from (P : Z -> bool) (lo : Z) (k : nat) : bool :=
  match k with
  | O => true
  | S k' => P lo && all_from P (lo + 1) k'
  end.

Module ChromaKey.

(** ** Data model: RGB(A) images as PIL presents them *)

Definition Color : Type := Z * Z * Z.
Definition Pixel : Type := Z * Z * Z * Z.

(** An image in mode RGBA: [size] and a row-major pixel buffer. *)
Record Image : Type := mkImage {
  width : Z;
  height : Z;
  data : list Pixel
}.

Definition rgb_of (p : Pixel) : Color := let '(r, g, b, _) := p in (r, g, b).
Definition alpha_of (p : Pixel) : Z := let '(_, _, _, a) := p in a.

Definition channel (c : Z) : Prop := 0 <= c <= 255.
Definition wf_color (c : Color) : Prop :=
  let '(r, g, b) := c in channel r /\ channel g /\ channel b.
Definition wf_pixel (p : Pixel) : Prop :=
  let '(r, g, b, a) := p in channel r /\ channel g /\ channel b /\ channel a.

Definition wf_image (img : Image) : Prop :=
  0 <= width img /\ 0 <= height img /\
  Z.of_nat (length (data img)) = width img * height img /\
  Forall wf_pixel (data img).

Definition in_bounds (img : Image) (x y : Z) : bool :=
  (0 <=? x) && (x <? width img) && (0 <=? y) && (y <? height img).

Definition offset (img : Image) (x y : Z) : nat := Z.to_nat (y * width img + x).

(** [px[x, y]] (read); out of range raises [IndexError]. *)
Definition px_get (img : Image) (x y : Z) : option Pixel :=
  if in_bounds img x y then data img !! offset img x y else None.

(** [px[x, y] = p] (write). *)
Definition px_set (img : Image) (x y : Z) (p : Pixel) : Image :=
  mkImage (width img) (height img) (<[offset img x y := p]> (data img)).

(** ** Tuning knobs *)

Definition THRESH : Z := 35.
Definition SOFT : Z := 40.

(** ** [dist] *)

Definition sqdist (rgb key : Color) : Z :=
  let '(r, g, b) := rgb in
  let '(kr, kg, kb) := key in
  (r - kr) ^ 2 + (g - kg) ^ 2 + (b - kb) ^ 2.

(** [dist(rgb, key)], for 8-bit colours and keys (see [float_of_int]). *)
Definition dist (rgb key : Color) : float :=
  PrimFloat.sqrt (float_of_int (sqdist rgb key)).

(** ** [blue_to_alpha] *)

(** The feathered alpha [int(255 * ((d - THRESH) / SOFT))]. *)
Definition feather (d : float) : Z :=
  let t := PrimFloat.div (PrimFloat.sub d (float_of_int THRESH))
                         (float_of_int SOFT) in
  int_of_float (PrimFloat.mul (float_of_int 255) t).

(** Body of the inner loop for the pixel value [p]: the value written
    back, or [None] on the branch that keeps the pixel as it is. *)
Definition new_pixel (key_rgb : Color) (p : Pixel) : option Pixel :=
  let '(r, g, b, a) := p in
  let d := dist (r, g, b) key_rgb in
  if PrimFloat.leb d (float_of_int THRESH) then Some (r, g, b, 0)
  else if PrimFloat.ltb d (float_of_int (THRESH + SOFT)) then
    let new_a := feather d in
    Some (r, g, b, Z.min a new_a)
  else None.

Definition key_pixel (key_rgb : Color) (p : Pixel) : Pixel :=
  match new_pixel key_rgb p with
  | Some q => q
  | None => p
  end.

Definition pixel_step (key_rgb : Color) (y x : Z) (img : Image) : option Image :=
  match px_get img x y with
  | Some p =>
      match new_pixel key_rgb p with
      | Some q => Some (px_set img x y q)
      | None => Some img
      end
  | None => None
  end.

Definition row_step (key_rgb : Color) (w : Z) (y : Z) (img : Image) : option Image :=
  for_each (range w) (pixel_step key_rgb y) img.

(** The argument is the image after [img.convert("RGBA")]. *)
Definition blue_to_alpha (img : Image) (key_rgb : Color) : option Image :=
  let w := width img in
  let h := height img in
  for_each (range h) (row_step key_rgb w) img.


(** The image once the first [k] pixels of the buffer [d], in row-major
    order, have gone through the loop body. *)
Definition done_upto (key_rgb : Color) (w h : Z) (d : list Pixel) (k : nat) : Image :=
  mkImage w h ((key_pixel key_rgb <$> take k d) ++ drop k d).

(** ** [auto_key] *)

(** Candidate corner-near sample points (will be clamped). *)
Definition raw_points (w h : Z) : list (Z * Z) :=
  [ (0, 0); (1, 0); (0, 1);
    (w - 1, 0); (w - 2, 0); (w - 1, 1);
    (0, h - 1); (1, h - 1); (0, h - 2);
    (w - 1, h - 1); (w - 2, h - 1); (w - 1, h - 2) ].

Definition clamp_point (w h : Z) (p : Z * Z) : Z * Z :=
  let '(x, y) := p in
  (Z.max 0 (Z.min (w - 1) x), Z.max 0 (Z.min (h - 1) y)).

Definition samples (w h : Z) : list (Z * Z) :=
  clamp_point w h <$> raw_points w h.

(** [rgb.getpixel((x, y))] on the image converted to mode RGB. *)
Definition getpixel (img : Image) (xy : Z * Z) : option Color :=
  rgb_of <$> px_get img xy.1 xy.2.

(** [colors.count(c)] *)
Definition count (colors : list Color) (c : Color) : Z :=
  Z.of_nat (length (filter (fun c' => c' = c) colors)).

(** [max(iterable, key=f)]: the first element, in iteration order,
    whose key is not exceeded by any other; [None] stands for the
    [ValueError] on an empty iterable. *)
Fixpoint max_from {A : Type} (f : A -> Z) (best : A) (rest : list A) : A :=
  match rest with
  | [] => best
  | x :: rest' => if f best <? f x then max_from f x rest' else max_from f best rest'
  end.

Definition py_max {A : Type} (f : A -> Z) (l : list A) : option A :=
  match l with
  | [] => None
  | x :: rest => Some (max_from f x rest)
  end.

(** The feather as the specification words it:
    [round(255 * (distance - THRESH) / SOFT)]. *)
Definition feather_rounded (d : float) : Z :=
  let t := PrimFloat.div (PrimFloat.sub d (float_of_int THRESH))
                         (float_of_int SOFT) in
  round_of_float (PrimFloat.mul (float_of_int 255) t).

(** [k] is the integer part of [255 * (sqrt n - 35) / 40], said with
    integers only: [40 k + 8925 <= 255 sqrt n < 40 (k + 1) + 8925]. *)
Definition feather_floor (n k : Z) : Prop :=
  0 <= k /\ (40 * k + 8925) ^ 2 <= 65025 * n < (40 * (k + 1) + 8925) ^ 2.

Definition feather_floorb (n k : Z) : bool :=
  (0 <=? k) && ((40 * k + 8925) ^ 2 <=? 65025 * n)
  && (65025 * n <? (40 * (k + 1) + 8925) ^ 2).

(** The three branches of the inner loop agree, at squared distance
    [n], with the exact comparisons of [n] against 35^2 and 75^2. *)
Definition branch_check (n : Z) : bool :=
  let d := PrimFloat.sqrt (float_of_int n) in
  Bool.eqb (PrimFloat.leb d (float_of_int THRESH)) (n <=? 35 ^ 2)
  && Bool.eqb (PrimFloat.ltb d (float_of_int (THRESH + SOFT))) (n <? 75 ^ 2)
  && (if (35 ^ 2 <? n) && (n <? 75 ^ 2) then feather_floorb n (feather d) else true).

(** The largest squared distance between two 8-bit colours. *)
Definition max_sqdist : Z := 3 * 255 ^ 2.

(** The most frequent colour with ties going to the first one in
    sample order, as the specification words the choice. *)
Definition first_most_frequent (colors : list Color) : option Color :=
  py_max (count colors) colors.

Section AutoKey.

(** The iteration order of [set(colors)]. Python leaves it unspecified;
    it is a parameter here, and [CPython.set_iter] below is the order
    CPython produces. *)
Variable set_iter : list Color -> list Color.

Definition auto_key (img : Image) : option Color :=
  let w := width img in
  let h := height img in
  match mapM (getpixel img) (samples w h) with
  | Some colors => py_max (count colors) (set_iter colors)
  | None => None
  end.

End AutoKey.

Definition in_image (img : Image) (xy : Z * Z) : Prop :=
  0 <= xy.1 < width img /\ 0 <= xy.2 < height img.

(** What Python guarantees of a set built from a list: each element of
    the list once, nothing else. *)
Definition set_order (set_iter : list Color -> list Color) : Prop :=
  forall l, NoDup (set_iter l) /\ forall c, c ∈ set_iter l <-> c ∈ l.

End ChromaKey.

(** ** CPython's iteration order for a set of tuples of small ints

    [Objects/tupleobject.c] (tuple hash) and [Objects/setobject.c]
    (open addressing with linear probes, growth at 3/5 load), as far as
    [set(colors)] on a list of RGB triples exercises them: no deletion,
    hence no dummy entries. Unsigned 64-bit arithmetic wraps. *)
Module CPython.

Definition U64 : Z := 2 ^ 64.
Definition XXPRIME_1 : Z := 11400714785074694791.
Definition XXPRIME_2 : Z := 14029467366897019727.
Definition XXPRIME_5 : Z := 2870177450012600261.
Definition XXROTATE (x : Z) : Z :=
  Z.lor (Z.shiftl x 31 mod U64) (Z.shiftr x 33).

(** [hash(n)] of an [int] with [0 <= n < 2^61 - 1]. *)
Definition int_hash (n : Z) : Z := n mod (2 ^ 61 - 1).

(** [tuplehash], as the unsigned value [(size_t)hash]. *)
Definition tuplehash (items : list Z) : Z :=
  let step acc item :=
    let lane := int_hash item in
    let acc := (acc + lane * XXPRIME_2) mod U64 in
    let acc := XXROTATE acc in
    (acc * XXPRIME_1) mod U64 in
  let acc := fold_left step items XXPRIME_5 in
  let acc := (acc + Z.lxor (Z.of_nat (length items)) (Z.lxor XXPRIME_5 3527539)) mod U64 in
  if acc =? U64 - 1 then 1546275796 else acc.

Definition color_hash (c : ChromaKey.Color) : Z :=
  let '(r, g, b) := c in tuplehash [r; g; b].

Definition entry : Type := option (ChromaKey.Color * Z).

Record setobject : Type := mkSet {
  table : list entry;
  mask : Z;
  fill : Z
}.

Definition PySet_MINSIZE : Z := 8.
Definition LINEAR_PROBES : Z := 9.
Definition PERTURB_SHIFT : Z := 5.

Inductive lookup_result : Type :=
| FoundUnused (i : Z)
| FoundActive
| NotHere.

(** The [do ... while (probes--)] scan of [set_add_entry] from slot [i]. *)
Fixpoint scan_add (tbl : list entry) (key : ChromaKey.Color) (hash : Z)
    (i : Z) (probes : nat) : lookup_result :=
  match tbl !! Z.to_nat i with
  | Some None | None => FoundUnused i
  | Some (Some (k, h)) =>
      if (h =? hash) && bool_decide (k = key) then FoundActive
      else match probes with
           | O => NotHere
           | S probes' => scan_add tbl key hash (i + 1) probes'
           end
  end.

Fixpoint probe_add (fuel : nat) (tbl : list entry) (msk : Z)
    (key : ChromaKey.Color) (hash : Z) (i perturb : Z) : option lookup_result :=
  match fuel with
  | O => None
  | S fuel' =>
      let probes := if i + LINEAR_PROBES <=? msk then LINEAR_PROBES else 0 in
      match scan_add tbl key hash i (Z.to_nat probes) with
      | NotHere =>
          let perturb := Z.shiftr perturb PERTURB_SHIFT in
          probe_add fuel' tbl msk key hash (Z.land (i * 5 + 1 + perturb) msk) perturb
      | r => Some r
      end
  end.

(** The scan of [set_insert_clean]: slot [i], then up to [n] more. *)
Fixpoint scan_clean (tbl : list entry) (i : Z) (n : nat) : option Z :=
  match tbl !! Z.to_nat i with
  | Some None | None => Some i
  | Some (Some _) =>
      match n with
      | O => None
      | S n' => scan_clean tbl (i + 1) n'
      end
  end.

Fixpoint probe_clean (fuel : nat) (tbl : list entry) (msk : Z)
    (i perturb : Z) : option Z :=
  match fuel with
  | O => None
  | S fuel' =>
      let n := if i + LINEAR_PROBES <=? msk then LINEAR_PROBES else 0 in
      match scan_clean tbl i (Z.to_nat n) with
      | Some j => Some j
      | None =>
          let perturb := Z.shiftr perturb PERTURB_SHIFT in
          probe_clean fuel' tbl msk (Z.land (i * 5 + 1 + perturb) msk) perturb
      end
  end.

Definition probe_fuel : nat := 128.

Definition set_insert_clean (msk : Z) (tbl : list entry) (e : entry) : option (list entry) :=
  match e with
  | None => Some tbl
  | Some (key, hash) =>
      match probe_clean probe_fuel tbl msk (Z.land hash msk) hash with
      | Some j => Some (<[Z.to_nat j := Some (key, hash)]> tbl)
      | None => None
      end
  end.

(** Smallest power of two above [minused], starting at [PySet_MINSIZE]. *)
Fixpoint grow_size (fuel : nat) (newsize minused : Z) : Z :=
  match fuel with
  | O => newsize
  | S fuel' => if newsize <=? minused then grow_size fuel' (newsize * 2) minused else newsize
  end.

Definition set_table_resize (so : setobject) (minused : Z) : option setobject :=
  let newsize := grow_size 64 PySet_MINSIZE minused in
  let newmask := newsize - 1 in
  match for_each (table so) (fun e tbl => set_insert_clean newmask tbl e)
                 (replicate (Z.to_nat newsize) None) with
  | Some tbl => Some (mkSet tbl newmask (fill so))
  | None => None
  end.

Definition set_add_key (so : setobject) (key : ChromaKey.Color) : option setobject :=
  let hash := color_hash key in
  match probe_add probe_fuel (table so) (mask so) key hash (Z.land hash (mask so)) hash with
  | Some FoundActive => Some so
  | Some (FoundUnused i) =>
      let so' := mkSet (<[Z.to_nat i := Some (key, hash)]> (table so)) (mask so) (fill so + 1) in
      if fill so' * 5 <? mask so' * 3 then Some so'
      else set_table_resize so' (fill so' * 4)
  | _ => None
  end.

Definition empty_set : setobject :=
  mkSet (replicate (Z.to_nat PySet_MINSIZE) None) (PySet_MINSIZE - 1) 0.

Definition keys_of (so : setobject) : list ChromaKey.Color :=
  omap (fun e : entry => fst <$> e) (table so).

(** [list(set(colors))]; the probe loops are given ample fuel, and the
    unreachable out-of-fuel case yields the empty list. *)
Definition set_iter (colors : list ChromaKey.Color) : list ChromaKey.Color :=
  match for_each colors (fun c so => set_add_key so c) empty_set with
  | Some so => keys_of so
  | None => []
  end.

End CPython.

(** ** Batch mode: [process_folder] and the script entry point *)
Module Batch.
Import ChromaKey.

Inductive Exn : Type :=
| FileNotFoundError
| UnidentifiedImageError
| IndexError.

Inductive result (A : Type) : Type :=
| Ok (a : A)
| Raise (e : Exn).
Arguments Ok {A} a.
Arguments Raise {A} e.

(** A path relative to the directory it is found under. *)
Definition Path : Type := list string.

(** What the tool reads: whether [in_dir] exists, the files
    [in_dir.rglob("*.png")] yields (relative to [in_dir], in the order
    yielded), and what [Image.open] gives for each ([None]: it raises). *)
Record FileSystem : Type := mkFS {
  in_dir_exists : bool;
  rglob_png : list Path;
  image_open : Path -> option Image
}.

Inductive Line : Type :=
| LFound (n : Z)
| LFileKey (rel : Path) (key : Color)
| LDone.

(** What the tool writes: directories made, files saved, lines printed. *)
Record World : Type := mkWorld {
  made_dirs : list Path;
  saved : list (Path * Image);
  stdout : list Line
}.

Definition mkdir (d : Path) (w : World) : World :=
  mkWorld (made_dirs w ++ [d]) (saved w) (stdout w).
Definition save (p : Path) (img : Image) (w : World) : World :=
  mkWorld (made_dirs w) (saved w ++ [(p, img)]) (stdout w).
Definition print (l : Line) (w : World) : World :=
  mkWorld (made_dirs w) (saved w) (stdout w ++ [l]).

Definition parent (p : Path) : Path := removelast p.

Section ProcessFolder.
Variable set_iter : list Color -> list Color.
Variable fs : FileSystem.
Variable out_dir : Path.
Variable verbose : bool.

(** One iteration of [for p in pngs]. *)
Definition process_file (p : Path) (w : World) : result unit * World :=
  match image_open fs p with
  | None => (Raise UnidentifiedImageError, w)
  | Some img =>
      match auto_key set_iter img with
      | None => (Raise IndexError, w)
      | Some key =>
          let w := if verbose then print (LFileKey p key) w else w in
          match blue_to_alpha img key with
          | None => (Raise IndexError, w)
          | Some out =>
              let out_path := out_dir ++ p in
              let w := mkdir (parent out_path) w in
              (Ok tt, save out_path out w)
          end
      end
  end.

(** The loop has no [try]: an exception leaves it at once. *)
Fixpoint process_files (pngs : list Path) (w : World) : result unit * World :=
  match pngs with
  | [] => (Ok tt, w)
  | p :: rest =>
      match process_file p w with
      | (Ok _, w') => process_files rest w'
      | (Raise e, w') => (Raise e, w')
      end
  end.

Definition process_folder (w : World) : result unit * World :=
  if negb (in_dir_exists fs) then (Raise FileNotFoundError, w)
  else
    let w := mkdir out_dir w in
    let pngs := rglob_png fs in
    let w := if verbose then print (LFound (Z.of_nat (length pngs))) w else w in
    process_files pngs w.

End ProcessFolder.

(** [if __name__ == "__main__"]: the exit status of the interpreter is 0
    when the script runs to its end, 1 on an uncaught exception. *)
Definition main (set_iter : list Color -> list Color) (fs : FileSystem)
    (w : World) : Z * World :=
  match process_folder set_iter fs ["assets"; "sprites_clean"]%string true w with
  | (Ok _, w') => (0, print LDone w')
  | (Raise _, w') => (1, w')
  end.

(** A file that decodes to a well-formed image of at least 1x1. *)
Definition good (fs : FileSystem) (p : Path) : Prop :=
  exists img, image_open fs p = Some img /\ wf_image img /\
              1 <= width img /\ 1 <= height img.

(** The paths written so far. *)
Definition files_saved (w : World) : list Path := fst <$> saved w.

End Batch.

(** ** The widget: [class Buddy] of [src/main.py] *)

(** A decoded [QPixmap]: its size and an identity for its content. *)
Record QPixmap : Type := mkPixmap {
  pix_width : Z;
  pix_height : Z;
  pix_id : Z
}.

(** *** Frame store: [Buddy.load_frames] *)
Module FrameStore.

(** A Python [str] is a sequence of code points. *)
Definition char : Type := Z.
Definition str : Type := list char.

(** Line boundaries of [str.splitlines]. *)
Definition is_linebreak (c : char) : bool :=
  (c =? 10) || (c =? 13) || (c =? 11) || (c =? 12) || (c =? 28) || (c =? 29)
  || (c =? 30) || (c =? 133) || (c =? 8232) || (c =? 8233).

(** White space of [str.strip]. *)
Definition is_space (c : char) : bool :=
  ((9 <=? c) && (c <=? 13)) || ((28 <=? c) && (c <=? 32)) || (c =? 133)
  || (c =? 160) || (c =? 5760) || ((8192 <=? c) && (c <=? 8202))
  || (c =? 8232) || (c =? 8233) || (c =? 8239) || (c =? 8287) || (c =? 12288).

(** [s.splitlines()]: [cur] is the line being read; a carriage return
    followed by a line feed is one boundary; no empty last line. *)
Fixpoint splitlines_from (cur : str) (s : str) : list str :=
  match s with
  | [] => match cur with [] => [] | _ => [cur] end
  | c :: s' =>
      if is_linebreak c then
        match s' with
        | c' :: s'' =>
            if (c =? 13) && (c' =? 10) then cur :: splitlines_from [] s''
            else cur :: splitlines_from [] s'
        | [] => [cur]
        end
      else splitlines_from (cur ++ [c]) s'
  end.

Definition splitlines (s : str) : list str := splitlines_from [] s.

Fixpoint lstrip (s : str) : str :=
  match s with
  | c :: s' => if is_space c then lstrip s' else s
  | [] => []
  end.

Definition rstrip (s : str) : str := reverse (lstrip (reverse s)).

(** [s.strip()] *)
Definition strip (s : str) : str := rstrip (lstrip s).

(** [name.startswith("#")] *)
Definition startswith_hash (name : str) : bool :=
  match name with
  | c :: _ => c =? 35
  | [] => false
  end.

(** Lexicographic order on code points: the order of [sorted] on the
    paths of one folder. *)
Fixpoint str_leb (a b : str) : bool :=
  match a, b with
  | [], _ => true
  | _ :: _, [] => false
  | x :: a', y :: b' => (x <? y) || ((x =? y) && str_leb a' b')
  end.

Fixpoint insert_sorted (x : str) (l : list str) : list str :=
  match l with
  | [] => [x]
  | y :: l' => if str_leb x y then x :: l else y :: insert_sorted x l'
  end.

Definition sorted (l : list str) : list str := foldr insert_sorted [] l.

(** An animation folder on disk. A path inside it is the file name
    ([folder / name]). [order_txt] is the decoded text of [order.txt],
    [None] when the file does not exist. [pixmap] is [None] for a file
    Qt cannot decode ([pix.isNull()]). *)
Record Folder : Type := mkFolder {
  order_txt : option str;
  glob_png : list str;
  path_exists : str -> bool;
  pixmap : str -> option QPixmap
}.

(** The first loop: names listed by the manifest. *)
Fixpoint manifest_paths (lines : list str) : list str :=
  match lines with
  | [] => []
  | line :: rest =>
      let name := strip line in
      if bool_decide (name = []) || startswith_hash name then manifest_paths rest
      else name :: manifest_paths rest
  end.

(** The second loop: keep what exists and decodes. *)
Fixpoint decode_all (folder : Folder) (paths : list str) : list QPixmap :=
  match paths with
  | [] => []
  | p :: rest =>
      if negb (path_exists folder p) then decode_all folder rest
      else match pixmap folder p with
           | Some pix => pix :: decode_all folder rest
           | None => decode_all folder rest
           end
  end.

Definition load_paths (folder : Folder) : list str :=
  match order_txt folder with
  | Some text => manifest_paths (splitlines text)
  | None => sorted (glob_png folder)
  end.

Definition load_frames (folder : Folder) : list QPixmap :=
  decode_all folder (load_paths folder).

(** A line the manifest ignores, said without [strip]: only white
    space, or white space and then [#]. *)
Definition blank_line (line : str) : Prop := Forall (fun c => is_space c = true) line.
Definition comment_line (line : str) : Prop :=
  exists ws rest, line = ws ++ 35 :: rest /\ Forall (fun c => is_space c = true) ws.

End FrameStore.

(** *** Engine and interaction: the state and the handlers *)
Module Widget.

(** A [dict] with [str] keys, in insertion order. *)
Definition dict (V : Type) : Type := list (string * V).

Fixpoint dict_get {V : Type} (d : dict V) (k : string) : option V :=
  match d with
  | [] => None
  | (k', v) :: d' => if bool_decide (k' = k) then Some v else dict_get d' k
  end.

Fixpoint dict_set {V : Type} (d : dict V) (k : string) (v : V) : dict V :=
  match d with
  | [] => [(k, v)]
  | (k', v') :: d' =>
      if bool_decide (k' = k) then (k, v) :: d' else (k', v') :: dict_set d' k v
  end.

(** [d.get(k, default)] *)
Definition dict_get_default {V : Type} (d : dict V) (k : string) (default : V) : V :=
  match dict_get d k with
  | Some v => v
  | None => default
  end.

Definition QPoint : Type := Z * Z.
Definition point_sub (p q : QPoint) : QPoint := (p.1 - q.1, p.2 - q.2).

Inductive Button : Type := LeftButton | RightButton | MiddleButton.
#[export] Instance Button_eq_dec : EqDecision Button.
Proof. solve_decision. Defined.

(** The module [random]: a source of draws and how many were taken. *)
Record Rng : Type := mkRng {
  source : nat -> Z;
  drawn : nat
}.

Definition draw (r : Rng) : Z * Rng := (source r (drawn r), mkRng (source r) (S (drawn r))).

(** [random.randint(a, b)] *)
Definition randint (a b : Z) (r : Rng) : Z * Rng :=
  let '(x, r') := draw r in (a + x mod (b - a + 1), r').

(** [random.choice(seq)] on a non-empty sequence. *)
Definition choice {A : Type} (l : list A) (r : Rng) : option A * Rng :=
  let '(x, r') := draw r in (l !! Z.to_nat (x mod Z.of_nat (length l)), r').

(** Calls into Qt and [print], in the order made. *)
Inductive Event : Type :=
| LabelSetPixmap (pix : QPixmap)
| AnimTimerStart (ms : Z)
| BehaviorTimerStart (ms : Z)
| PrintPlay (anim_name : string) (ms : Z)
| WindowMove (p : QPoint).

(** The attributes of a [Buddy] whose constructor went past the check
    for the idle animation. *)
Record Buddy : Type := mkBuddy {
  anims : dict (list QPixmap);
  anim_speeds : dict Z;
  canvas_w : Z;
  canvas_h : Z;
  TOP_PAD : Z;
  current_anim : string;
  current_frames : list QPixmap;
  current_loop : bool;
  anim_i : nat;
  frame_ms : Z;
  label_pixmap : option QPixmap;
  label_pos : QPoint;
  anim_timer : option Z;
  behavior_timer : option Z;
  drag_offset : option QPoint;
  pos : QPoint;
  rng : Rng;
  log : list Event
}.

Definition with_current (name : string) (frames : list QPixmap) (loop : bool)
    (i : nat) (s : Buddy) : Buddy :=
  mkBuddy (anims s) (anim_speeds s) (canvas_w s) (canvas_h s) (TOP_PAD s)
    name frames loop i (frame_ms s)
    (label_pixmap s) (label_pos s) (anim_timer s) (behavior_timer s)
    (drag_offset s) (pos s) (rng s) (log s).

Definition with_anim_i (i : nat) (s : Buddy) : Buddy :=
  with_current (current_anim s) (current_frames s) (current_loop s) i s.

Definition with_frame_ms (ms : Z) (s : Buddy) : Buddy :=
  mkBuddy (anims s) (anim_speeds s) (canvas_w s) (canvas_h s) (TOP_PAD s)
    (current_anim s) (current_frames s) (current_loop s) (anim_i s) ms
    (label_pixmap s) (label_pos s) (anim_timer s) (behavior_timer s)
    (drag_offset s) (pos s) (rng s) (log s).

Definition with_label (pix : QPixmap) (p : QPoint) (s : Buddy) : Buddy :=
  mkBuddy (anims s) (anim_speeds s) (canvas_w s) (canvas_h s) (TOP_PAD s)
    (current_anim s) (current_frames s) (current_loop s) (anim_i s) (frame_ms s)
    (Some pix) p (anim_timer s) (behavior_timer s)
    (drag_offset s) (pos s) (rng s) (log s).

Definition with_anim_timer (ms : Z) (s : Buddy) : Buddy :=
  mkBuddy (anims s) (anim_speeds s) (canvas_w s) (canvas_h s) (TOP_PAD s)
    (current_anim s) (current_frames s) (current_loop s) (anim_i s) (frame_ms s)
    (label_pixmap s) (label_pos s) (Some ms) (behavior_timer s)
    (drag_offset s) (pos s) (rng s) (log s).

Definition with_behavior_timer (ms : Z) (r : Rng) (s : Buddy) : Buddy :=
  mkBuddy (anims s) (anim_speeds s) (canvas_w s) (canvas_h s) (TOP_PAD s)
    (current_anim s) (current_frames s) (current_loop s) (anim_i s) (frame_ms s)
    (label_pixmap s) (label_pos s) (anim_timer s) (Some ms)
    (drag_offset s) (pos s) r (log s).

Definition with_rng (r : Rng) (s : Buddy) : Buddy :=
  mkBuddy (anims s) (anim_speeds s) (canvas_w s) (canvas_h s) (TOP_PAD s)
    (current_anim s) (current_frames s) (current_loop s) (anim_i s) (frame_ms s)
    (label_pixmap s) (label_pos s) (anim_timer s) (behavior_timer s)
    (drag_offset s) (pos s) r (log s).

Definition with_drag_offset (o : option QPoint) (s : Buddy) : Buddy :=
  mkBuddy (anims s) (anim_speeds s) (canvas_w s) (canvas_h s) (TOP_PAD s)
    (current_anim s) (current_frames s) (current_loop s) (anim_i s) (frame_ms s)
    (label_pixmap s) (label_pos s) (anim_timer s) (behavior_timer s)
    o (pos s) (rng s) (log s).

Definition with_pos (p : QPoint) (s : Buddy) : Buddy :=
  mkBuddy (anims s) (anim_speeds s) (canvas_w s) (canvas_h s) (TOP_PAD s)
    (current_anim s) (current_frames s) (current_loop s) (anim_i s) (frame_ms s)
    (label_pixmap s) (label_pos s) (anim_timer s) (behavior_timer s)
    (drag_offset s) p (rng s) (log s).

Definition emit (e : Event) (s : Buddy) : Buddy :=
  mkBuddy (anims s) (anim_speeds s) (canvas_w s) (canvas_h s) (TOP_PAD s)
    (current_anim s) (current_frames s) (current_loop s) (anim_i s) (frame_ms s)
    (label_pixmap s) (label_pos s) (anim_timer s) (behavior_timer s)
    (drag_offset s) (pos s) (rng s) (log s ++ [e]).

(** [set_pixmap] *)
Definition set_pixmap (pix : QPixmap) (s : Buddy) : Buddy :=
  let x := (canvas_w s - pix_width pix) `div` 2 in
  let x := if x <? 0 then 0 else x in
  let y := TOP_PAD s + (canvas_h s - pix_height pix) in
  let y := if y <? TOP_PAD s then TOP_PAD s else y in
  emit (LabelSetPixmap pix) (with_label pix (x, y) s).

(** [schedule_next_action] *)
Definition schedule_next_action (s : Buddy) : Buddy :=
  let '(delay_ms, r) := randint 8000 25000 (rng s) in
  emit (BehaviorTimerStart delay_ms) (with_behavior_timer delay_ms r s).

(** [play] *)
Definition play (anim_name : string) (loop : bool) (s : Buddy) : Buddy :=
  let frames := dict_get_default (anims s) anim_name [] in
  match frames with
  | [] => s
  | frame0 :: _ =>
      let s := with_current anim_name frames loop 0 s in
      let s := set_pixmap frame0 s in
      let ms := dict_get_default (anim_speeds s) anim_name
                  (dict_get_default (anim_speeds s) "_default" 0) in
      let s := with_frame_ms ms s in
      let s := emit (PrintPlay anim_name ms) s in
      emit (AnimTimerStart ms) (with_anim_timer ms s)
  end.

(** [tick_anim]. The last line reads [current_frames[anim_i]] after the
    bound check, so the lookup finds a frame. *)
Definition tick_anim (s : Buddy) : Buddy :=
  match current_frames s with
  | [] => s
  | _ :: _ =>
      let s := with_anim_i (S (anim_i s)) s in
      if bool_decide (length (current_frames s) <= anim_i s)%nat then
        if current_loop s then
          let s := with_anim_i 0 s in
          match current_frames s !! anim_i s with
          | Some pix => set_pixmap pix s
          | None => s
          end
        else
          let s := play "idle" true s in
          schedule_next_action s
      else
        match current_frames s !! anim_i s with
        | Some pix => set_pixmap pix s
        | None => s
        end
  end.

(** [k] firings of the frame timer. *)
Definition ticks (k : nat) (s : Buddy) : Buddy := Nat.iter k tick_anim s.

(** [do_random_action] *)
Definition choices (s : Buddy) : list string :=
  fst <$> filter (fun nf : string * list QPixmap =>
                    nf.1 <> "idle"%string /\ nf.2 <> []) (anims s).

Definition do_random_action (s : Buddy) : Buddy :=
  match choices s with
  | [] => schedule_next_action s
  | cs =>
      let '(picked, r) := choice cs (rng s) in
      match picked with
      | Some name => play name false (with_rng r s)
      | None => with_rng r s
      end
  end.

(** [compute_canvas_size] *)
Definition compute_canvas_size (anims : dict (list QPixmap)) : Z * Z :=
  let grow (acc : Z * Z) (pix : QPixmap) :=
    ((if acc.1 <? pix_width pix then pix_width pix else acc.1),
     (if acc.2 <? pix_height pix then pix_height pix else acc.2)) in
  foldl (fun acc (nf : string * list QPixmap) => foldl grow acc nf.2) (1, 1) anims.

(** [__init__], past the widget setup. [folders] is what
    [list_anim_folders] returns, each name with its folder on disk;
    [origin] is where the window system puts the window. [None] is the
    degraded mode of the constructor (no idle frames: a static sprite
    or an error label, and none of the engine's attributes or timers). *)
Definition init (folders : list (string * FrameStore.Folder)) (origin : QPoint)
    (src : nat -> Z) : option Buddy :=
  let anims := foldl (fun d (nf : string * FrameStore.Folder) =>
                        dict_set d nf.1 (FrameStore.load_frames nf.2)) [] folders in
  match dict_get_default anims "idle" [] with
  | [] => None
  | (frame0 :: _) as idle =>
      let '(w, h) := compute_canvas_size anims in
      let speeds := [("idle"%string, 300); ("_default"%string, 100)] in
      let s := mkBuddy anims speeds w h 60 "idle" idle true 0 300
                 None (0, 0) None None None origin (mkRng src 0) [] in
      let s := set_pixmap frame0 s in
      let s := emit (AnimTimerStart 300) (with_anim_timer 300 s) in
      Some (schedule_next_action s)
  end.

(** *** Mouse handlers *)

(** [mousePressEvent]; [global_pos] is [event.globalPosition().toPoint()]
    and [pos] is [frameGeometry().topLeft()]. *)
Definition mousePressEvent (button : Button) (global_pos : QPoint) (s : Buddy) : Buddy :=
  if bool_decide (button = LeftButton)
  then with_drag_offset (Some (point_sub global_pos (pos s))) s
  else s.

(** [mouseMoveEvent]; [buttons] is [event.buttons()]. *)
Definition mouseMoveEvent (buttons : list Button) (global_pos : QPoint) (s : Buddy) : Buddy :=
  match drag_offset s with
  | Some off =>
      if bool_decide (LeftButton ∈ buttons)
      then
        let p := point_sub global_pos off in
        emit (WindowMove p) (with_pos p s)
      else s
  | None => s
  end.

(** [mouseReleaseEvent] *)
Definition mouseReleaseEvent (s : Buddy) : Buddy := with_drag_offset None s.

(** The window system: it knows which buttons are down, reports them in
    [event.buttons()], and delivers every press, move and release to
    the widget. *)
Inductive MouseEvent : Type :=
| Press (b : Button) (p : QPoint)
| Move (p : QPoint)
| Release (b : Button) (p : QPoint).

Definition deliver (ev : MouseEvent) (st : list Button * Buddy) : list Button * Buddy :=
  let '(held, s) := st in
  match ev with
  | Press b p => (b :: held, mousePressEvent b p s)
  | Move p => (held, mouseMoveEvent held p s)
  | Release b _ => (filter (fun b' => b' <> b) held, mouseReleaseEvent s)
  end.

Definition deliver_all (evs : list MouseEvent) (st : list Button * Buddy) : list Button * Buddy :=
  foldl (fun st ev => deliver ev st) st evs.

(** *** The invariant of the engine state *)

Definition idle_loaded (s : Buddy) : Prop :=
  exists f fs, dict_get (anims s) "idle" = Some (f :: fs).

Definition frame_inv (s : Buddy) : Prop :=
  current_frames s <> [] /\ (anim_i s < length (current_frames s))%nat.

(** Every state the constructor and the engine's handlers can produce. *)
Inductive reachable : Buddy -> Prop :=
| reach_init folders origin src s :
    init folders origin src = Some s -> reachable s
| reach_play name loop s : reachable s -> reachable (play name loop s)
| reach_tick s : reachable s -> reachable (tick_anim s)
| reach_action s : reachable s -> reachable (do_random_action s).

(** The frame on display. *)
Definition displayed (s : Buddy) : option QPixmap := label_pixmap s.

(** How often the autonomous-action timer was armed. *)
Definition is_arm (e : Event) : bool :=
  match e with
  | BehaviorTimerStart _ => true
  | _ => false
  end.

Definition arm_count (s : Buddy) : nat :=
  length (filter (fun e => is_arm e = true) (log s)).

End Widget.

(** ** A small installation, used to instantiate the theorems *)
Module Demo.
Import Widget.

Definition frame (n : Z) : QPixmap := mkPixmap 64 64 n.

(** File names are single letters; the pixmap of a file is numbered by
    its letter, from [base] on. *)
Definition letters_folder (base : Z) (order : option FrameStore.str)
    (files : list FrameStore.str) : FrameStore.Folder :=
  FrameStore.mkFolder order files
    (fun p => bool_decide (p ∈ files))
    (fun p => match p with [c] => Some (frame (base + c)) | _ => None end).

(** [idle/]: b.png, a.png and no manifest. *)
Definition idle_folder : FrameStore.Folder := letters_folder 1000 None [[98]; [97]].

(** [wave/]: four frames, listed by a manifest "d, c, # x, blank, b, a". *)
Definition wave_folder : FrameStore.Folder :=
  letters_folder 2000 (Some [100; 10; 99; 13; 10; 32; 35; 120; 10; 9; 10; 98; 10; 97])
                 [[97]; [98]; [99]; [100]].

(** [empty/]: two images, and a manifest holding a comment and a blank line. *)
Definition empty_folder : FrameStore.Folder :=
  letters_folder 3000 (Some [35; 32; 116; 111; 100; 111; 10; 32; 32; 10]) [[97]; [98]].

Definition folders : list (string * FrameStore.Folder) :=
  [("empty"%string, empty_folder); ("idle"%string, idle_folder); ("wave"%string, wave_folder)].

(** A 3x2 sprite on a blue background and its key colour. The pixels
    are at squared distances 0, 25, 74^2, 75^2, 1225 and 1226 from blue. *)
Definition blue : ChromaKey.Color := (0, 0, 255).

Definition sprite : ChromaKey.Image :=
  ChromaKey.mkImage 3 2
    [ (0, 0, 255, 255); (0, 5, 255, 255); (74, 0, 255, 255);
      (75, 0, 255, 130); (35, 0, 255, 90); (35, 1, 255, 90) ].

(** A 2x1 image: one blue pixel, one white pixel. *)
Definition two_tone : ChromaKey.Image :=
  ChromaKey.mkImage 2 1 [ (0, 0, 255, 255); (255, 255, 255, 255) ].

(** A 1x1 image whose pixel is at distance 74 from black. *)
Definition dot74 : ChromaKey.Image := ChromaKey.mkImage 1 1 [ (74, 0, 0, 255) ].

(** A set order: each colour once, in the order [remove_dups] leaves. *)
Definition first_seen (l : list ChromaKey.Color) : list ChromaKey.Color := remove_dups l.

(** [sprites_raw/]: a file that does not decode, then one that does. *)
Definition raw_dir : Batch.FileSystem :=
  Batch.mkFS true [ ["broken.png"%string]; ["wave"%string; "a.png"%string] ]
    (fun p => if bool_decide (p = ["wave"%string; "a.png"%string]) then Some sprite else None).

(** The same folder without the broken file. *)
Definition clean_dir : Batch.FileSystem :=
  Batch.mkFS true [ ["wave"%string; "a.png"%string] ]
    (fun p => if bool_decide (p = ["wave"%string; "a.png"%string]) then Some sprite else None).

(** The good file first, the broken one second. *)
Definition mixed_dir : Batch.FileSystem :=
  Batch.mkFS true [ ["wave"%string; "a.png"%string]; ["broken.png"%string] ]
    (fun p => if bool_decide (p = ["wave"%string; "a.png"%string]) then Some sprite else None).

Definition fresh : Batch.World := Batch.mkWorld [] [] [].

Definition blank_buddy : Buddy :=
  mkBuddy [] [] 1 1 60 "idle" [] true 0 300 None (0, 0) None None None (0, 0)
    (mkRng (fun _ => 0) 0) [].

(** The widget as constructed over [folders], placed at (100, 100). *)
Definition buddy : Buddy :=
  match init folders (100, 100) (fun n => Z.of_nat n * 7919) with
  | Some s => s
  | None => blank_buddy
  end.

End Demo.

(** ** Checks on [dist] over the squared distances of 8-bit colours *)
Module DistChecks.
Import ChromaKey.

(** At squared distance [n] the computed distance is zero exactly when
    [n] is. *)
Definition zero_check (n : Z) : bool :=
  Bool.eqb (PrimFloat.eqb (PrimFloat.sqrt (float_of_int n)) (float_of_int 0)) (n =? 0).

(** At squared distance [m * m] the computed distance is [m]. *)
Definition square_check (m : Z) : bool :=
  PrimFloat.eqb (PrimFloat.sqrt (float_of_int (m * m))) (float_of_int m).

End DistChecks.

(** ** The speech bubble: [Buddy.say] *)
Module Bubble.
Import Widget.

(** The bubble label and its one-shot hide timer. *)
Record Bubble : Type := mkBubble {
  text : string;
  size : Z * Z;
  bpos : QPoint;
  visible : bool;
  bubble_timer : option Z
}.

(** The bubble as the constructor leaves it: hidden, timer idle. *)
Definition hidden : Bubble := mkBubble "" (0, 0) (0, 0) false None.

Section Say.

(** The size [adjustSize] gives the label for a text. *)
Variable size_hint : string -> Z * Z.
(** [self.width()] and [self.TOP_PAD]. *)
Variable width : Z.
Variable top_pad : Z.

(** [say(text, ms)]; [ms] defaults to 2500. *)
Definition say (txt : string) (ms : Z) (b : Bubble) : Bubble :=
  let sz := size_hint txt in
  let x := (width - sz.1) `div` 2 in
  let y := top_pad - sz.2 - 8 in
  let y := if y <? 0 then 0 else y in
  mkBubble txt sz (x, y) true (Some ms).

Definition say_default (txt : string) (b : Bubble) : Bubble := say txt 2500 b.

End Say.

(** [bubble_timer.timeout] is connected to [bubble.hide]. *)
Definition on_timeout (b : Bubble) : Bubble :=
  mkBubble (text b) (size b) (bpos b) false None.

End Bubble.

(** ** The constructor before the engine exists *)
Module Startup.
Import Widget.

(** [canvas_w] and [canvas_h] become attributes only after the check
    for the idle animation; [canvas] is [None] while they are unset,
    and reading them then raises [AttributeError]. *)
Definition set_pixmap_at (canvas : option (Z * Z)) (top_pad : Z) (pix : QPixmap)
  : option QPoint :=
  match canvas with
  | None => None
  | Some (cw, ch) =>
      let x := (cw - pix_width pix) `div` 2 in
      let x := if x <? 0 then 0 else x in
      let y := top_pad + (ch - pix_height pix) in
      let y := if y <? top_pad then top_pad else y in
      Some (x, y)
  end.

(** [set_sprite(path)]: [file] is [None] when the path does not exist,
    [Some None] when the pixmap is null. The result is [None] when the
    call raises. *)
Definition set_sprite (canvas : option (Z * Z)) (top_pad : Z)
    (file : option (option QPixmap)) : option bool :=
  match file with
  | None => Some false
  | Some None => Some false
  | Some (Some pix) =>
      match set_pixmap_at canvas top_pad pix with
      | Some _ => Some true
      | None => None
      end
  end.

Inductive Outcome : Type :=
| Running (s : Buddy)
| StaticSprite
| MissingLabel
| Raised.

(** [Buddy()]; [buddy_png] is the file [assets/sprites/buddy.png]. *)
Definition construct (folders : list (string * FrameStore.Folder)) (origin : QPoint)
    (src : nat -> Z) (buddy_png : option (option QPixmap)) : Outcome :=
  match init folders origin src with
  | Some s => Running s
  | None =>
      match set_sprite None 60 buddy_png with
      | Some true => StaticSprite
      | Some false => MissingLabel
      | None => Raised
      end
  end.

End Startup.

(** ** What stays true of a running widget *)
Module Steady.
Import Widget.

Definition speeds : dict Z := [("idle"%string, 300); ("_default"%string, 100)].

(** The frame interval that goes with an animation name. *)
Definition period (name : string) : Z :=
  if bool_decide (name = "idle"%string) then 300 else 100.

(** Where [set_pixmap] puts a pixmap that fits the canvas. *)
Definition centred (s : Buddy) (pix : QPixmap) : QPoint :=
  ((canvas_w s - pix_width pix) `div` 2, TOP_PAD s + (canvas_h s - pix_height pix)).

Definition delay_ok (e : Event) : Prop :=
  match e with
  | BehaviorTimerStart ms => 8000 <= ms <= 25000
  | _ => True
  end.

(** One step of the loops of [compute_canvas_size]. *)
Definition grow (acc : Z * Z) (pix : QPixmap) : Z * Z :=
  ((if acc.1 <? pix_width pix then pix_width pix else acc.1),
   (if acc.2 <? pix_height pix then pix_height pix else acc.2)).

Definition frame_of (d : dict (list QPixmap)) (pix : QPixmap) : Prop :=
  exists name frames, (name, frames) ∈ d /\ pix ∈ frames.

Record steady (s : Buddy) : Prop := mkSteady {
  st_speeds : anim_speeds s = speeds;
  st_pad : TOP_PAD s = 60;
  st_canvas : (canvas_w s, canvas_h s) = compute_canvas_size (anims s);
  st_keys : NoDup (anims s).*1;
  st_frames : dict_get (anims s) (current_anim s) = Some (current_frames s);
  st_shown : label_pixmap s = current_frames s !! anim_i s;
  st_pos : forall pix, label_pixmap s = Some pix ->
           label_pos s = label_pos (set_pixmap pix s);
  st_period : frame_ms s = period (current_anim s);
  st_timer : anim_timer s = Some (frame_ms s);
  st_delays : Forall delay_ok (log s);
  st_armed : exists ms, behavior_timer s = Some ms /\ 8000 <= ms <= 25000
}.

End Steady.

(** ** Reading the frame store's results *)
Module FrameOrder.
Import FrameStore.

(** What one path contributes to the frames: its pixmap, if the file
    exists and decodes. *)
Definition decode (folder : Folder) (p : str) : option QPixmap :=
  if path_exists folder p then pixmap folder p else None.

(** Each name is at most every later one. *)
Fixpoint ascending (l : list str) : Prop :=
  match l with
  | [] => True
  | x :: l' => Forall (fun y => str_leb x y = true) l' /\ ascending l'
  end.

(** A name as the manifest loop passes it on: not empty, no white
    space at either end, not starting with [#], no line boundary
    inside. *)
Definition clean_name (name : str) : Prop :=
  name <> [] /\
  (forall c rest, name = c :: rest -> is_space c = false /\ c <> 35) /\
  (forall c front, name = front ++ [c] -> is_space c = false) /\
  Forall (fun c => is_linebreak c = false) name.

End FrameOrder.

(** ** A drag as the pointer positions it passes through *)
Module Drag.
Import Widget.

(** Pointer moves with the left button down, in turn. *)
Definition moves (points : list QPoint) (s : Buddy) : Buddy :=
  foldl (fun st g => mouseMoveEvent [LeftButton] g st) s points.

Definition is_left_press (ev : MouseEvent) : Prop :=
  match ev with
  | Press LeftButton _ => True
  | _ => False
  end.

End Drag.

(** * Properties *)

(** ** Chroma key: the pixel loop *)
Section PixelLoop.
Import ChromaKey.

Variable key_rgb : Color.
Variable w h : Z.
Variable d : list Pixel.
Hypothesis w_nonneg : 0 <= w.
Hypothesis h_nonneg : 0 <= h.
Hypothesis d_length : Z.of_nat (length d) = w * h.

Local Abbreviation done_upto := (done_upto key_rgb w h d).

Lemma done_upto_step (k : nat) (p : Pixel) :
  d !! k = Some p ->
  <[k := key_pixel key_rgb p]> ((key_pixel key_rgb <$> take k d) ++ drop k d) =
  (key_pixel key_rgb <$> take (S k) d) ++ drop (S k) d.
Proof.
  intros Hp. pose proof (lookup_lt_Some _ _ _ Hp) as Hlt.
  rewrite (take_S_r d k p Hp), fmap_app. cbn.
  rewrite (drop_S d p k Hp).
  assert (Hlen : length (key_pixel key_rgb <$> take k d) = k).
  { rewrite length_fmap, length_take. lia. }
  rewrite <- (Nat.add_0_r k) at 1. rewrite <- Hlen at 1.
  rewrite insert_app_r. cbn. by rewrite <- app_assoc.
Qed.

Lemma done_upto_same (k : nat) (p : Pixel) :
  d !! k = Some p -> key_pixel key_rgb p = p ->
  (key_pixel key_rgb <$> take k d) ++ drop k d =
  (key_pixel key_rgb <$> take (S k) d) ++ drop (S k) d.
Proof.
  intros Hp Hsame. rewrite <- (done_upto_step k p Hp), Hsame.
  symmetry. apply list_insert_id.
  assert (Hlen : length (key_pixel key_rgb <$> take k d) = k).
  { rewrite length_fmap, length_take. pose proof (lookup_lt_Some _ _ _ Hp). lia. }
  rewrite lookup_app_r by lia. rewrite Hlen, Nat.sub_diag, lookup_drop, Nat.add_0_r.
  exact Hp.
Qed.

Lemma pixel_step_done (x y : Z) :
  0 <= x < w -> 0 <= y < h ->
  pixel_step key_rgb y x (done_upto (Z.to_nat (y * w + x))) =
  Some (done_upto (S (Z.to_nat (y * w + x)))).
Proof.
  intros Hx Hy. set (k := Z.to_nat (y * w + x)).
  assert (Hk : (k < length d)%nat) by (unfold k; nia).
  destruct (lookup_lt_is_Some_2 d k Hk) as [p Hp].
  unfold pixel_step, px_get, in_bounds, offset. cbn [width height data done_upto].
  replace ((0 <=? x) && (x <? w) && (0 <=? y) && (y <? h)) with true
    by (symmetry; repeat (apply andb_true_intro; split); lia).
  fold k.
  assert (Hlen : length (key_pixel key_rgb <$> take k d) = k).
  { rewrite length_fmap, length_take. lia. }
  rewrite lookup_app_r by lia. rewrite Hlen, Nat.sub_diag, lookup_drop, Nat.add_0_r, Hp.
  unfold done_upto. destruct (new_pixel key_rgb p) as [q|] eqn:Hq.
  - unfold px_set, offset. cbn [width height data]. fold k.
    assert (Hkp : key_pixel key_rgb p = q) by (unfold key_pixel; by rewrite Hq).
    rewrite <- Hkp. by rewrite (done_upto_step k p Hp).
  - assert (Hkp : key_pixel key_rgb p = p) by (unfold key_pixel; by rewrite Hq).
    by rewrite (done_upto_same k p Hp Hkp).
Qed.

Lemma row_part_done (y : Z) (n : nat) :
  0 <= y < h ->
  forall x, 0 <= x -> x + Z.of_nat n <= w ->
  for_each (seqZ x (Z.of_nat n)) (pixel_step key_rgb y) (done_upto (Z.to_nat (y * w + x))) =
  Some (done_upto (Z.to_nat (y * w + x + Z.of_nat n))).
Proof.
  intros Hy. induction n as [|n IH]; intros x Hx Hxn.
  - replace (y * w + x + Z.of_nat 0) with (y * w + x) by lia. reflexivity.
  - rewrite seqZ_cons by lia. cbn [for_each].
    rewrite pixel_step_done by lia.
    assert (0 <= y * w) by nia.
    replace (S (Z.to_nat (y * w + x))) with (Z.to_nat (y * w + Z.succ x)) by lia.
    replace (Z.pred (Z.of_nat (S n))) with (Z.of_nat n) by lia.
    rewrite IH by lia.
    replace (y * w + Z.succ x + Z.of_nat n) with (y * w + x + Z.of_nat (S n)) by lia.
    reflexivity.
Qed.

Lemma row_step_done (y : Z) :
  0 <= y < h ->
  row_step key_rgb w y (done_upto (Z.to_nat (y * w))) =
  Some (done_upto (Z.to_nat ((y + 1) * w))).
Proof.
  intros Hy. unfold row_step, range.
  pose proof (row_part_done y (Z.to_nat w) Hy 0 ltac:(lia) ltac:(lia)) as H.
  rewrite Z2Nat.id in H by lia.
  replace (y * w + 0) with (y * w) in H by lia. rewrite H.
  replace (y * w + w) with ((y + 1) * w) by lia. reflexivity.
Qed.

Lemma rows_done (n : nat) :
  forall y, 0 <= y -> y + Z.of_nat n <= h ->
  for_each (seqZ y (Z.of_nat n)) (row_step key_rgb w) (done_upto (Z.to_nat (y * w))) =
  Some (done_upto (Z.to_nat ((y + Z.of_nat n) * w))).
Proof.
  induction n as [|n IH]; intros y Hy Hyn.
  - replace (y + Z.of_nat 0) with y by lia. reflexivity.
  - rewrite seqZ_cons by lia. cbn [for_each].
    rewrite row_step_done by lia.
    replace (y + 1) with (Z.succ y) by lia.
    replace (Z.pred (Z.of_nat (S n))) with (Z.of_nat n) by lia.
    rewrite IH by lia.
    replace (Z.succ y + Z.of_nat n) with (y + Z.of_nat (S n)) by lia.
    reflexivity.
Qed.

(** The two nested loops rewrite every pixel by [key_pixel], once. *)
Lemma blue_to_alpha_loop :
  blue_to_alpha (mkImage w h d) key_rgb = Some (mkImage w h (key_pixel key_rgb <$> d)).
Proof.
  unfold blue_to_alpha, range. cbn [width height].
  pose proof (rows_done (Z.to_nat h) 0 ltac:(lia) ltac:(lia)) as H.
  rewrite Z2Nat.id in H by lia.
  change (Z.to_nat (0 * w)) with 0%nat in H.
  unfold done_upto at 1 in H. rewrite take_0, drop_0 in H. cbn in H. rewrite H.
  unfold done_upto. replace (Z.to_nat ((0 + h) * w)) with (length d) by lia.
  by rewrite firstn_all, drop_all, app_nil_r.
Qed.

End PixelLoop.

(** ** Chroma key: what happens to each pixel *)
Section ChromaKeyProperties.
Import ChromaKey.

Lemma all_from_spec (P : Z -> bool) (k : nat) :
  forall lo, all_from P lo k = true -> forall z, lo <= z < lo + Z.of_nat k -> P z = true.
Proof.
  induction k as [|k IH]; intros lo H z Hz; [lia|].
  cbn in H. apply andb_prop in H. destruct H as [Hlo Hrest].
  destruct (decide (z = lo)) as [-> | Hne]; [exact Hlo|].
  apply (IH (lo + 1) Hrest). lia.
Qed.

(** Every squared distance two 8-bit colours can have is checked: the
    float comparisons of [blue_to_alpha] decide exactly [n <= 35^2] and
    [n < 75^2], and in between the feather is the integer part. *)
Lemma branch_check_all (n : Z) : 0 <= n <= max_sqdist -> branch_check n = true.
Proof.
  intros Hn.
  apply (all_from_spec branch_check (Z.to_nat (max_sqdist + 1)) 0).
  - vm_compute. reflexivity.
  - change max_sqdist with 195075 in *. rewrite Z2Nat.id; lia.
Qed.

Lemma square_bound (t : Z) : -255 <= t <= 255 -> 0 <= t * t <= 65025.
Proof.
  intros Ht. split; [apply Z.square_nonneg|].
  pose proof (Z.mul_nonneg_nonneg (255 - t) (255 + t) ltac:(lia) ltac:(lia)). lia.
Qed.

Lemma sqdist_bounds (c key : Color) :
  wf_color c -> wf_color key -> 0 <= sqdist c key <= max_sqdist.
Proof.
  destruct c as [[r g] b], key as [[kr kg] kb]. unfold wf_color, channel, sqdist.
  change max_sqdist with 195075.
  intros (Hr & Hg & Hb) (Hkr & Hkg & Hkb). rewrite !Z.pow_2_r.
  pose proof (square_bound (r - kr) ltac:(lia)).
  pose proof (square_bound (g - kg) ltac:(lia)).
  pose proof (square_bound (b - kb) ltac:(lia)).
  lia.
Qed.

Lemma new_pixel_cases (key : Color) (r g b a : Z) :
  wf_color (r, g, b) -> wf_color key ->
  let n := sqdist (r, g, b) key in
  (n <= 35 ^ 2 -> new_pixel key (r, g, b, a) = Some (r, g, b, 0)) /\
  (35 ^ 2 < n < 75 ^ 2 ->
     feather_floor n (feather (dist (r, g, b) key)) /\
     new_pixel key (r, g, b, a) = Some (r, g, b, Z.min a (feather (dist (r, g, b) key)))) /\
  (75 ^ 2 <= n -> new_pixel key (r, g, b, a) = None).
Proof.
  intros Hc Hk n.
  pose proof (sqdist_bounds _ _ Hc Hk) as Hn. fold n in Hn.
  pose proof (branch_check_all n Hn) as Hchk.
  unfold branch_check in Hchk.
  apply andb_prop in Hchk. destruct Hchk as [Hchk Hband].
  apply andb_prop in Hchk. destruct Hchk as [Hle Hlt].
  apply Bool.eqb_prop in Hle, Hlt.
  unfold new_pixel, dist. fold n. rewrite Hle, Hlt.
  split; [|split].
  - intros H. rewrite (proj2 (Z.leb_le _ _) H). reflexivity.
  - intros H.
    rewrite (proj2 (Z.ltb_lt _ _) (proj1 H)), (proj2 (Z.ltb_lt _ _) (proj2 H)) in Hband.
    cbn [andb] in Hband. unfold feather_floorb in Hband.
    apply andb_prop in Hband. destruct Hband as [Hband H3].
    apply andb_prop in Hband. destruct Hband as [H1 H2].
    split; [unfold feather_floor; lia|].
    rewrite (proj2 (Z.leb_gt _ _) (proj1 H)), (proj2 (Z.ltb_lt _ _) (proj2 H)). reflexivity.
  - intros H.
    rewrite (proj2 (Z.leb_gt _ _)), (proj2 (Z.ltb_ge _ _)) by lia. reflexivity.
Qed.

Lemma blue_to_alpha_total (img : Image) (key : Color) :
  wf_image img ->
  blue_to_alpha img key =
  Some (mkImage (width img) (height img) (key_pixel key <$> data img)).
Proof.
  destruct img as [w h d]. intros (Hw & Hh & Hlen & _). cbn in *.
  by apply blue_to_alpha_loop.
Qed.

Lemma px_get_fmap (f : Pixel -> Pixel) (w h : Z) (d : list Pixel) (x y : Z) :
  px_get (mkImage w h (f <$> d)) x y = f <$> px_get (mkImage w h d) x y.
Proof.
  unfold px_get, in_bounds, offset. cbn [width height data].
  destruct (_ && _); [apply list_lookup_fmap | reflexivity].
Qed.

Lemma px_get_wf (img : Image) (x y : Z) (p : Pixel) :
  wf_image img -> px_get img x y = Some p -> wf_pixel p.
Proof.
  intros (_ & _ & _ & Hall) Hget. unfold px_get in Hget.
  destruct (in_bounds img x y); [|discriminate].
  rewrite Forall_lookup in Hall. by apply (Hall _ _ Hget).
Qed.

(** C5. In the image [blue_to_alpha] returns, a pixel whose distance to
    the key is at most 35 has its colour and alpha 0, so has a pixel of
    the key colour itself; a pixel at distance 75 or more is as it was.
    Distances are compared by their squares. *)
Theorem near_zeroed_far_kept (img : Image) (key : Color) :
  wf_image img -> wf_color key ->
  exists out, blue_to_alpha img key = Some out /\
    forall x y r g b a, px_get img x y = Some (r, g, b, a) ->
      (sqdist (r, g, b) key <= 35 ^ 2 -> px_get out x y = Some (r, g, b, 0)) /\
      ((r, g, b) = key -> px_get out x y = Some (r, g, b, 0)) /\
      (75 ^ 2 <= sqdist (r, g, b) key -> px_get out x y = Some (r, g, b, a)).
Proof.
  intros Hwf Hkey. eexists. split; [by apply blue_to_alpha_total|].
  intros x y r g b a Hget.
  assert (Hc : wf_color (r, g, b)).
  { pose proof (px_get_wf img x y _ Hwf Hget) as Hp. unfold wf_pixel in Hp. cbn. tauto. }
  destruct (new_pixel_cases key r g b a Hc Hkey) as (Hnear & _ & Hfar).
  destruct img as [w h d]. cbn [width height data]. rewrite px_get_fmap, Hget. cbn.
  unfold key_pixel.
  assert (Hself : (r, g, b) = key -> sqdist (r, g, b) key <= 35 ^ 2).
  { intros <-. unfold sqdist. rewrite !Z.sub_diag. cbn. lia. }
  split; [|split].
  - intros H. by rewrite (Hnear H).
  - intros H. by rewrite (Hnear (Hself H)).
  - intros H. by rewrite (Hfar H).
Qed.

Lemma sprite_wf : wf_image Demo.sprite.
Proof.
  unfold wf_image, Demo.sprite. cbn.
  repeat split; try lia. repeat constructor; unfold channel; lia.
Qed.

Lemma demo_blue_wf : wf_color Demo.blue.
Proof. unfold wf_color, Demo.blue, channel. lia. Qed.

Lemma near_zeroed_far_kept_witness :
  exists out, blue_to_alpha Demo.sprite Demo.blue = Some out /\
    px_get out 0 0 = Some (0, 0, 255, 0) /\ px_get out 1 1 = Some (35, 0, 255, 0) /\
    px_get out 0 1 = Some (75, 0, 255, 130).
Proof.
  destruct (near_zeroed_far_kept Demo.sprite Demo.blue) as (out & Hout & Hpix).
  - exact sprite_wf.
  - unfold wf_color, Demo.blue, channel. lia.
  - exists out. split; [exact Hout|].
    destruct (Hpix 0 0 0 0 255 255 eq_refl) as (_ & H1 & _).
    destruct (Hpix 1 1 35 0 255 90 eq_refl) as (H2 & _ & _).
    destruct (Hpix 0 1 75 0 255 130 eq_refl) as (_ & _ & H3).
    split; [apply H1; reflexivity|]. split; [apply H2; vm_compute; discriminate|].
    apply H3. vm_compute. discriminate.
Defined.

(** C9. For an 8-bit image and an 8-bit key, the image returned has
    the size of the input, and each of its pixels has the red, green
    and blue of the input pixel at the same place and an alpha that is
    not above the input's. *)
Theorem only_alpha_changes (img : Image) (key : Color) :
  wf_image img -> wf_color key ->
  exists out, blue_to_alpha img key = Some out /\
    width out = width img /\ height out = height img /\
    length (data out) = length (data img) /\
    forall x y p, px_get img x y = Some p ->
      exists q, px_get out x y = Some q /\ rgb_of q = rgb_of p /\
                alpha_of q <= alpha_of p.
Proof.
  intros Hwf _. eexists. split; [by apply blue_to_alpha_total|].
  cbn [width height data]. rewrite length_fmap. repeat split.
  intros x y p Hget. exists (key_pixel key p).
  pose proof (px_get_wf img x y p Hwf Hget) as Hp.
  destruct img as [w h d]. cbn [width height data]. rewrite px_get_fmap, Hget.
  split; [reflexivity|].
  destruct p as [[[r g] b] a]. unfold wf_pixel, channel in Hp.
  unfold key_pixel, new_pixel.
  destruct (PrimFloat.leb _ _); [cbn; split; [reflexivity | lia]|].
  destruct (PrimFloat.ltb _ _); cbn; (split; [reflexivity | lia]).
Qed.

Lemma only_alpha_changes_witness :
  exists out, blue_to_alpha Demo.sprite Demo.blue = Some out /\
    width out = 3 /\ height out = 2.
Proof.
  destruct (only_alpha_changes Demo.sprite Demo.blue sprite_wf demo_blue_wf)
    as (out & Hout & Hw & Hh & _).
  exists out. split; [exact Hout|]. split; [exact Hw | exact Hh].
Defined.

(** C2, as amended. In the feather band (distance strictly between 35
    and 75) the new alpha is the smaller of the old alpha and the
    integer part [k] of [255 * (distance - 35) / 40]: [int()] truncates,
    it does not round. At distance exactly 74 that is [min(old, 248)]. *)
Theorem feather_band_truncates (img : Image) (key : Color) :
  wf_image img -> wf_color key ->
  exists out, blue_to_alpha img key = Some out /\
    forall x y r g b a, px_get img x y = Some (r, g, b, a) ->
      35 ^ 2 < sqdist (r, g, b) key < 75 ^ 2 ->
      exists k, feather_floor (sqdist (r, g, b) key) k /\
                px_get out x y = Some (r, g, b, Z.min a k) /\
                (sqdist (r, g, b) key = 74 ^ 2 -> k = 248).
Proof.
  intros Hwf Hkey. eexists. split; [by apply blue_to_alpha_total|].
  intros x y r g b a Hget Hband.
  assert (Hc : wf_color (r, g, b)).
  { pose proof (px_get_wf img x y _ Hwf Hget) as Hp. unfold wf_pixel in Hp. cbn. tauto. }
  destruct (new_pixel_cases key r g b a Hc Hkey) as (_ & Hmid & _).
  destruct (Hmid Hband) as [Hfloor Hnew].
  exists (feather (dist (r, g, b) key)). split; [exact Hfloor|]. split.
  - destruct img as [w h d]. cbn [width height data]. rewrite px_get_fmap, Hget. cbn.
    unfold key_pixel. by rewrite Hnew.
  - intros H74. unfold dist. rewrite H74. vm_compute. reflexivity.
Qed.

Lemma feather_band_truncates_witness :
  exists out, blue_to_alpha Demo.sprite Demo.blue = Some out /\
              px_get out 2 0 = Some (74, 0, 255, 248).
Proof.
  destruct (feather_band_truncates Demo.sprite Demo.blue) as (out & Hout & Hpix).
  - exact sprite_wf.
  - unfold wf_color, Demo.blue, channel. lia.
  - exists out. split; [exact Hout|].
    destruct (Hpix 2 0 74 0 255 255 eq_refl) as (k & _ & Hk & H74); [vm_compute; done|].
    rewrite Hk, (H74 eq_refl). reflexivity.
Defined.

(** C2, as stated, fails: the pixel (74, 0, 0) with alpha 255 is at
    distance exactly 74 from the key (0, 0, 0); rounding gives 249 and
    the claim promises [min(255, 249)], the code leaves alpha 248. *)
Lemma feather_band_rounds_counterexample :
  sqdist (74, 0, 0) (0, 0, 0) = 74 ^ 2 /\
  feather_rounded (dist (74, 0, 0) (0, 0, 0)) = 249 /\
  blue_to_alpha Demo.dot74 (0, 0, 0) = Some (mkImage 1 1 [ (74, 0, 0, 248) ]) /\
  blue_to_alpha Demo.dot74 (0, 0, 0) <> Some (mkImage 1 1 [ (74, 0, 0, Z.min 255 249) ]).
Proof.
  split; [reflexivity|]. split; [vm_compute; reflexivity|].
  assert (H : blue_to_alpha Demo.dot74 (0, 0, 0) = Some (mkImage 1 1 [ (74, 0, 0, 248) ]))
    by (vm_compute; reflexivity).
  split; [exact H|]. rewrite H. discriminate.
Qed.

End ChromaKeyProperties.

(** ** Chroma key: the guessed key colour *)
Section AutoKeyProperties.
Import ChromaKey.

(** [max] returns the first element, in iteration order, that no
    element exceeds. *)
Lemma max_from_spec {A : Type} (f : A -> Z) (rest : list A) :
  forall best,
  exists l1 l2, best :: rest = l1 ++ max_from f best rest :: l2 /\
    (forall y, y ∈ l1 -> f y < f (max_from f best rest)) /\
    (forall y, y ∈ l2 -> f y <= f (max_from f best rest)).
Proof.
  induction rest as [|x rest IH]; intros best.
  - exists [], []. cbn. repeat split; intros y Hy; by apply elem_of_nil in Hy.
  - cbn [max_from]. destruct (Z.ltb_spec (f best) (f x)) as [Hlt | Hge].
    + destruct (IH x) as (l1 & l2 & Heq & H1 & H2).
      exists (best :: l1), l2. rewrite Heq. split; [reflexivity|]. split; [|exact H2].
      intros y Hy. apply elem_of_cons in Hy as [-> | Hy]; [|by apply H1].
      assert (Hx : x ∈ l1 ++ max_from f x rest :: l2) by (rewrite <- Heq; left).
      apply elem_of_app in Hx as [Hx | Hx]; [specialize (H1 x Hx); lia|].
      apply elem_of_cons in Hx as [Hx | Hx]; [rewrite <- Hx; lia|].
      specialize (H2 x Hx). lia.
    + destruct (IH best) as (l1 & l2 & Heq & H1 & H2).
      destruct l1 as [|b l1].
      * injection Heq as Hb Hrest. exists [], (x :: l2).
        rewrite <- Hb in H2 |- *. rewrite Hrest. split; [reflexivity|].
        split; [intros y Hy; by apply elem_of_nil in Hy|].
        intros y Hy. apply elem_of_cons in Hy as [-> | Hy]; [lia | by apply H2].
      * injection Heq as Hb Hrest. subst b.
        exists (best :: x :: l1), l2. split; [cbn; by rewrite <- Hrest|].
        split; [|exact H2].
        assert (Hbest : f best < f (max_from f best rest)) by (apply H1; left).
        intros y Hy. apply elem_of_cons in Hy as [-> | Hy]; [exact Hbest|].
        apply elem_of_cons in Hy as [-> | Hy]; [lia|].
        apply H1. by right.
Qed.

Lemma py_max_spec {A : Type} (f : A -> Z) (l : list A) :
  l <> [] ->
  exists m l1 l2, py_max f l = Some m /\ l = l1 ++ m :: l2 /\
    (forall y, y ∈ l1 -> f y < f m) /\ (forall y, y ∈ l -> f y <= f m).
Proof.
  destruct l as [|x rest]; [done|]. intros _.
  destruct (max_from_spec f rest x) as (l1 & l2 & Heq & H1 & H2).
  exists (max_from f x rest), l1, l2. split; [reflexivity|]. split; [exact Heq|].
  split; [exact H1|].
  intros y Hy. rewrite Heq in Hy.
  apply elem_of_app in Hy as [Hy | Hy]; [specialize (H1 y Hy); lia|].
  apply elem_of_cons in Hy as [-> | Hy]; [lia | by apply H2].
Qed.

(** The twelve sample points lie inside any image of at least 1x1. *)
Lemma samples_in_image (img : Image) :
  1 <= width img -> 1 <= height img ->
  Forall (in_image img) (samples (width img) (height img)).
Proof.
  intros Hw Hh. unfold samples, raw_points. cbn [fmap list_fmap clamp_point].
  repeat constructor; cbn; lia.
Qed.

Lemma getpixel_in_image (img : Image) (xy : Z * Z) :
  wf_image img -> in_image img xy -> is_Some (getpixel img xy).
Proof.
  intros (Hw & Hh & Hlen & _) [Hx Hy]. unfold getpixel, px_get, in_bounds.
  replace ((0 <=? xy.1) && (xy.1 <? width img) && (0 <=? xy.2) && (xy.2 <? height img))
    with true by (symmetry; repeat (apply andb_true_intro; split); lia).
  apply fmap_is_Some, lookup_lt_is_Some_2. unfold offset. nia.
Qed.

Lemma sampled_colors (img : Image) :
  wf_image img -> 1 <= width img -> 1 <= height img ->
  exists colors, mapM (getpixel img) (samples (width img) (height img)) = Some colors /\
                 length colors = 12%nat.
Proof.
  intros Hwf Hw Hh.
  destruct (mapM_is_Some_2 (getpixel img) (samples (width img) (height img))) as [colors Hc].
  - eapply Forall_impl; [by apply samples_in_image|].
    intros xy Hxy. by apply getpixel_in_image.
  - exists colors. split; [exact Hc|]. apply length_mapM in Hc. rewrite <- Hc. reflexivity.
Qed.

(** C4, as amended. [auto_key] samples twelve points, all inside the
    image, and returns a colour no sampled colour is more frequent
    than; among equally frequent colours it returns the one that comes
    first in the iteration order of [set(colors)], which is an order
    on hashes and not the sample order; when one colour is strictly the
    most frequent, that is the result whatever the set order. *)
Theorem auto_key_most_frequent (set_iter : list Color -> list Color) (img : Image) :
  set_order set_iter -> wf_image img -> 1 <= width img -> 1 <= height img ->
  length (samples (width img) (height img)) = 12%nat /\
  Forall (in_image img) (samples (width img) (height img)) /\
  exists colors c,
    mapM (getpixel img) (samples (width img) (height img)) = Some colors /\
    auto_key set_iter img = Some c /\ c ∈ colors /\
    (forall c', c' ∈ colors -> count colors c' <= count colors c) /\
    (exists before after, set_iter colors = before ++ c :: after /\
       forall c', c' ∈ before -> count colors c' < count colors c) /\
    ((forall c', c' ∈ colors -> c' <> c -> count colors c' < count colors c) ->
     first_most_frequent colors = Some c).
Proof.
  intros Hset Hwf Hw Hh. split; [reflexivity|]. split; [by apply samples_in_image|].
  destruct (sampled_colors img Hwf Hw Hh) as (colors & Hcolors & Hlen).
  destruct (Hset colors) as [_ Hmem].
  assert (Hne : colors <> []) by (intros ->; discriminate).
  assert (Hsne : set_iter colors <> []).
  { destruct colors as [|c0 cs]; [done|]. intros Hnil.
    assert (H0 : c0 ∈ set_iter (c0 :: cs)) by (apply Hmem; left).
    rewrite Hnil in H0. by apply elem_of_nil in H0. }
  destruct (py_max_spec (count colors) (set_iter colors) Hsne)
    as (c & before & after & Hmax & Hsplit & Hbefore & Hall).
  exists colors, c. split; [exact Hcolors|].
  assert (Hc : c ∈ colors).
  { apply Hmem. rewrite Hsplit. apply elem_of_app. right. left. }
  split; [unfold auto_key; by rewrite Hcolors|]. split; [exact Hc|].
  split; [intros c' Hc'; apply Hall; by apply Hmem|].
  split; [by exists before, after|].
  intros Huniq. unfold first_most_frequent.
  destruct (py_max_spec (count colors) colors Hne) as (m & l1 & l2 & Hm & Hl & _ & Hmall).
  rewrite Hm. f_equal.
  destruct (decide (m = c)) as [-> | Hmc]; [reflexivity|].
  assert (Hmin : m ∈ colors) by (rewrite Hl; apply elem_of_app; right; left).
  specialize (Huniq m Hmin Hmc). specialize (Hmall c Hc). lia.
Qed.

Lemma first_seen_order : set_order Demo.first_seen.
Proof.
  intros l. split; [apply NoDup_remove_dups|]. intros c. apply elem_of_remove_dups.
Qed.

Lemma auto_key_most_frequent_witness :
  exists c, auto_key Demo.first_seen Demo.sprite = Some c.
Proof.
  destruct (auto_key_most_frequent Demo.first_seen Demo.sprite)
    as (_ & _ & colors & c & _ & Hc & _).
  - exact first_seen_order.
  - exact sprite_wf.
  - cbn. lia.
  - cbn. lia.
  - exists c. exact Hc.
Defined.

(** C4, as stated, fails. In the 2x1 image with a blue and a white
    pixel each colour is sampled six times and blue is sampled first,
    yet with CPython's set order [auto_key] returns white. *)
Lemma auto_key_tie_counterexample :
  mapM (getpixel Demo.two_tone) (samples 2 1) =
    Some [ (0, 0, 255); (255, 255, 255); (0, 0, 255); (255, 255, 255);
           (0, 0, 255); (255, 255, 255); (0, 0, 255); (255, 255, 255);
           (0, 0, 255); (255, 255, 255); (0, 0, 255); (255, 255, 255) ] /\
  (forall colors, mapM (getpixel Demo.two_tone) (samples 2 1) = Some colors ->
     count colors (0, 0, 255) = 6 /\ count colors (255, 255, 255) = 6 /\
     first_most_frequent colors = Some (0, 0, 255)) /\
  auto_key CPython.set_iter Demo.two_tone = Some (255, 255, 255) /\
  auto_key CPython.set_iter Demo.two_tone <> Some (0, 0, 255).
Proof.
  split; [vm_compute; reflexivity|].
  split.
  - intros colors H. vm_compute in H. injection H as <-. vm_compute. done.
  - assert (H : auto_key CPython.set_iter Demo.two_tone = Some (255, 255, 255))
      by (vm_compute; reflexivity).
    split; [exact H|]. rewrite H. discriminate.
Qed.

End AutoKeyProperties.

(** ** Chroma key: the batch run *)
Section BatchProperties.
Import ChromaKey Batch.

Variable set_iter : list Color -> list Color.
Hypothesis set_iter_order : set_order set_iter.
Variable fs : FileSystem.
Variable out_dir : Path.
Variable verbose : bool.

Lemma auto_key_total (img : Image) :
  wf_image img -> 1 <= width img -> 1 <= height img -> is_Some (auto_key set_iter img).
Proof.
  intros Hwf Hw Hh. unfold auto_key.
  destruct (sampled_colors img Hwf Hw Hh) as (colors & -> & Hlen).
  destruct (set_iter_order colors) as [_ Hmem].
  destruct colors as [|c0 cs]; [discriminate|].
  assert (H0 : c0 ∈ set_iter (c0 :: cs)) by (apply Hmem; left).
  destruct (set_iter (c0 :: cs)) as [|c cs']; [|by eexists].
  by apply elem_of_nil in H0.
Qed.

Lemma process_file_good (p : Path) (w : World) :
  good fs p ->
  exists w', process_file set_iter fs out_dir verbose p w = (Ok tt, w') /\
             files_saved w' = files_saved w ++ [out_dir ++ p].
Proof.
  intros (img & Hopen & Hwf & Hw & Hh). unfold process_file. rewrite Hopen.
  destruct (auto_key_total img Hwf Hw Hh) as [key ->].
  rewrite (blue_to_alpha_total img key Hwf).
  eexists. split; [reflexivity|].
  unfold files_saved. destruct verbose; cbn; by rewrite fmap_app.
Qed.

Lemma process_file_bad (p : Path) (w : World) :
  image_open fs p = None ->
  process_file set_iter fs out_dir verbose p w = (Raise UnidentifiedImageError, w).
Proof. intros H. unfold process_file. by rewrite H. Qed.

Lemma process_files_good (pngs : list Path) :
  Forall (good fs) pngs ->
  forall w, exists w', process_files set_iter fs out_dir verbose pngs w = (Ok tt, w') /\
                       files_saved w' = files_saved w ++ ((out_dir ++.) <$> pngs).
Proof.
  induction 1 as [|p pngs Hp _ IH]; intros w.
  - exists w. split; [reflexivity|]. cbn. by rewrite app_nil_r.
  - destruct (process_file_good p w Hp) as (w1 & H1 & Hs1).
    destruct (IH w1) as (w2 & H2 & Hs2).
    exists w2. cbn [process_files]. rewrite H1, H2. split; [reflexivity|].
    rewrite Hs2, Hs1, <- app_assoc. reflexivity.
Qed.

Lemma process_files_stop (pre : list Path) (p : Path) (post : list Path) :
  Forall (good fs) pre -> image_open fs p = None ->
  forall w, exists w', process_files set_iter fs out_dir verbose (pre ++ p :: post) w =
                         (Raise UnidentifiedImageError, w') /\
                       files_saved w' = files_saved w ++ ((out_dir ++.) <$> pre).
Proof.
  intros Hpre Hbad. induction Hpre as [|q pre Hq _ IH]; intros w.
  - exists w. cbn [app process_files]. rewrite (process_file_bad p w Hbad).
    split; [reflexivity|]. cbn. by rewrite app_nil_r.
  - destruct (process_file_good q w Hq) as (w1 & H1 & Hs1).
    destruct (IH w1) as (w2 & H2 & Hs2).
    exists w2. cbn [app process_files]. rewrite H1, H2. split; [reflexivity|].
    rewrite Hs2, Hs1, <- app_assoc. reflexivity.
Qed.

Lemma process_folder_outcome (w : World) :
  in_dir_exists fs = true ->
  (forall pre p post,
     rglob_png fs = pre ++ p :: post -> Forall (good fs) pre -> image_open fs p = None ->
     exists w', process_folder set_iter fs out_dir verbose w =
                  (Raise UnidentifiedImageError, w') /\
                files_saved w' = files_saved w ++ ((out_dir ++.) <$> pre)) /\
  (Forall (good fs) (rglob_png fs) ->
     exists w', process_folder set_iter fs out_dir verbose w = (Ok tt, w') /\
                files_saved w' = files_saved w ++ ((out_dir ++.) <$> rglob_png fs)).
Proof.
  intros Hdir. unfold process_folder. rewrite Hdir. cbn [negb]. split.
  - intros pre p post Hglob Hpre Hbad. rewrite Hglob.
    set (w0 := if verbose then _ else _).
    destruct (process_files_stop pre p post Hpre Hbad w0) as (w' & H1 & H2).
    exists w'. split; [exact H1|]. rewrite H2. f_equal.
    unfold w0. by destruct verbose.
  - intros Hall.
    set (w0 := if verbose then _ else _).
    destruct (process_files_good (rglob_png fs) Hall w0) as (w' & H1 & H2).
    exists w'. split; [exact H1|]. rewrite H2. f_equal.
    unfold w0. by destruct verbose.
Qed.

End BatchProperties.

Section BatchExamples.
Import ChromaKey Batch.

(** C3, as amended. There is no handler around the loop body: when a
    file fails to open, [process_folder] raises there. The files
    before it have been written; the failing file and the files after
    it are not, for no further file is attempted; the script ends with
    exit status 1. When every file is good all of them are written,
    the call returns and the exit status is 0. *)
Theorem batch_stops_at_first_failure (set_iter : list Color -> list Color)
    (fs : FileSystem) (out_dir : Path) (verbose : bool) (w : World) :
  set_order set_iter -> in_dir_exists fs = true ->
  (forall pre p post,
     rglob_png fs = pre ++ p :: post -> Forall (good fs) pre -> image_open fs p = None ->
     (exists w', process_folder set_iter fs out_dir verbose w =
                   (Raise UnidentifiedImageError, w') /\
                 files_saved w' = files_saved w ++ ((out_dir ++.) <$> pre)) /\
     (main set_iter fs w).1 = 1) /\
  (Forall (good fs) (rglob_png fs) ->
     (exists w', process_folder set_iter fs out_dir verbose w = (Ok tt, w') /\
                 files_saved w' = files_saved w ++ ((out_dir ++.) <$> rglob_png fs)) /\
     (main set_iter fs w).1 = 0).
Proof.
  intros Hset Hdir.
  destruct (process_folder_outcome set_iter Hset fs out_dir verbose w Hdir) as [Hstop Hall].
  destruct (process_folder_outcome set_iter Hset fs ["assets"; "sprites_clean"]%string
              true w Hdir) as [Hstop' Hall'].
  split.
  - intros pre p post Hglob Hpre Hbad. split; [by apply (Hstop pre p post)|].
    destruct (Hstop' pre p post Hglob Hpre Hbad) as (w' & Hrun & _).
    unfold main. by rewrite Hrun.
  - intros Hgood. split; [by apply Hall|].
    destruct (Hall' Hgood) as (w' & Hrun & _).
    unfold main. by rewrite Hrun.
Qed.

Lemma batch_stops_at_first_failure_witness :
  exists w', process_folder Demo.first_seen Demo.mixed_dir ["out"%string] true Demo.fresh =
               (Raise UnidentifiedImageError, w') /\
             files_saved w' = [ ["out"%string; "wave"%string; "a.png"%string] ].
Proof.
  destruct (batch_stops_at_first_failure Demo.first_seen Demo.mixed_dir
              ["out"%string] true Demo.fresh first_seen_order eq_refl) as [Hstop _].
  apply (Hstop [ ["wave"%string; "a.png"%string] ] ["broken.png"%string] []).
  - reflexivity.
  - constructor; [|constructor]. exists Demo.sprite.
    split; [reflexivity|]. split; [exact sprite_wf|]. cbn. lia.
  - reflexivity.
Defined.

(** C3, as stated, fails. With a file that does not decode listed
    before one that does, the run ends in the exception with exit
    status 1: nothing is printed about the broken file, and the good
    file, which the tool converts when the broken one is absent, is
    never written. *)
Lemma batch_continues_counterexample :
  (exists w', main CPython.set_iter Demo.raw_dir Demo.fresh = (1, w') /\
              files_saved w' = [] /\ stdout w' = [LFound 2]) /\
  (exists w', main CPython.set_iter Demo.clean_dir Demo.fresh = (0, w') /\
              files_saved w' = [ ["assets"; "sprites_clean"; "wave"; "a.png"]%string ]).
Proof.
  split; eexists; (split; [vm_compute; reflexivity|]); vm_compute; repeat split.
Qed.

End BatchExamples.

(** ** Animation engine *)
Section EngineProperties.
Import Widget.

Lemma arm_count_emit (e : Event) (s : Buddy) :
  arm_count (emit e s) = (arm_count s + if is_arm e then 1 else 0)%nat.
Proof.
  unfold arm_count. change (log (emit e s)) with (log s ++ [e]).
  rewrite filter_app, length_app. destruct e; reflexivity.
Qed.

Lemma arm_count_with_current name frames loop i (s : Buddy) :
  arm_count (with_current name frames loop i s) = arm_count s.
Proof. reflexivity. Qed.

Lemma arm_count_with_frame_ms ms (s : Buddy) : arm_count (with_frame_ms ms s) = arm_count s.
Proof. reflexivity. Qed.

Lemma arm_count_with_label pix p (s : Buddy) : arm_count (with_label pix p s) = arm_count s.
Proof. reflexivity. Qed.

Lemma arm_count_with_anim_timer ms (s : Buddy) : arm_count (with_anim_timer ms s) = arm_count s.
Proof. reflexivity. Qed.

Lemma arm_count_with_behavior_timer ms r (s : Buddy) :
  arm_count (with_behavior_timer ms r s) = arm_count s.
Proof. reflexivity. Qed.

Create Rewrite HintDb arm.
#[local] Hint Rewrite arm_count_emit arm_count_with_current arm_count_with_frame_ms
  arm_count_with_label arm_count_with_anim_timer arm_count_with_behavior_timer : arm.

Lemma set_pixmap_fields (pix : QPixmap) (s : Buddy) :
  let s' := set_pixmap pix s in
  current_anim s' = current_anim s /\ current_frames s' = current_frames s /\
  current_loop s' = current_loop s /\ anim_i s' = anim_i s /\
  displayed s' = Some pix /\ anims s' = anims s /\ arm_count s' = arm_count s /\
  drag_offset s' = drag_offset s /\ pos s' = pos s.
Proof.
  cbn zeta. repeat split; try reflexivity.
  unfold set_pixmap. autorewrite with arm. cbn [is_arm]. lia.
Qed.

Lemma play_eq (name : string) (loop : bool) (s : Buddy) (f : QPixmap) (fs : list QPixmap) :
  dict_get (anims s) name = Some (f :: fs) ->
  play name loop s =
  let ms := dict_get_default (anim_speeds s) name
              (dict_get_default (anim_speeds s) "_default" 0) in
  emit (AnimTimerStart ms)
    (with_anim_timer ms
       (emit (PrintPlay name ms)
          (with_frame_ms ms (set_pixmap f (with_current name (f :: fs) loop 0 s))))).
Proof.
  intros H. unfold play, dict_get_default. rewrite H. reflexivity.
Qed.

(** What [play] does on a loaded, non-empty animation, field by field. *)
Lemma play_loaded (name : string) (loop : bool) (s : Buddy) (f : QPixmap) (fs : list QPixmap) :
  dict_get (anims s) name = Some (f :: fs) ->
  let s' := play name loop s in
  current_anim s' = name /\ current_frames s' = f :: fs /\ current_loop s' = loop /\
  anim_i s' = 0%nat /\ displayed s' = Some f /\ anims s' = anims s /\
  arm_count s' = arm_count s /\ drag_offset s' = drag_offset s /\ pos s' = pos s /\
  frame_ms s' = dict_get_default (anim_speeds s) name (dict_get_default (anim_speeds s) "_default" 0) /\
  anim_timer s' = Some (frame_ms s').
Proof.
  intros H. rewrite (play_eq name loop s f fs H). cbn zeta.
  repeat split; try reflexivity.
  autorewrite with arm. cbn [is_arm].
  destruct (set_pixmap_fields f (with_current name (f :: fs) loop 0 s))
    as (_ & _ & _ & _ & _ & _ & H7 & _).
  rewrite H7. autorewrite with arm. lia.
Qed.

Lemma play_absent (name : string) (loop : bool) (s : Buddy) :
  dict_get (anims s) name = None \/ dict_get (anims s) name = Some [] ->
  play name loop s = s.
Proof.
  intros [H | H]; unfold play, dict_get_default; by rewrite H.
Qed.

Lemma schedule_fields (s : Buddy) :
  let s' := schedule_next_action s in
  current_anim s' = current_anim s /\ current_frames s' = current_frames s /\
  current_loop s' = current_loop s /\ anim_i s' = anim_i s /\
  displayed s' = displayed s /\ anims s' = anims s /\
  arm_count s' = S (arm_count s) /\
  drag_offset s' = drag_offset s /\ pos s' = pos s /\
  (exists ms, behavior_timer s' = Some ms /\ 8000 <= ms <= 25000).
Proof.
  cbn zeta. repeat split; try reflexivity.
  - change (schedule_next_action s) with
      (emit (BehaviorTimerStart (randint 8000 25000 (rng s)).1)
         (with_behavior_timer (randint 8000 25000 (rng s)).1 (randint 8000 25000 (rng s)).2 s)).
    autorewrite with arm. cbn [is_arm]. lia.
  - exists (8000 + source (rng s) (drawn (rng s)) mod 17001). split; [reflexivity|].
    pose proof (Z.mod_pos_bound (source (rng s) (drawn (rng s))) 17001). lia.
Qed.

Lemma tick_advance (s : Buddy) :
  (S (anim_i s) < length (current_frames s))%nat ->
  let s' := tick_anim s in
  anim_i s' = S (anim_i s) /\ displayed s' = current_frames s !! S (anim_i s) /\
  current_anim s' = current_anim s /\ current_frames s' = current_frames s /\
  current_loop s' = current_loop s /\ anims s' = anims s /\
  arm_count s' = arm_count s /\ drag_offset s' = drag_offset s /\ pos s' = pos s.
Proof.
  intros Hlt. unfold tick_anim.
  destruct (current_frames s) as [|f fs] eqn:Hf; [simpl in Hlt; lia|].
  cbn zeta. change (current_frames (with_anim_i (S (anim_i s)) s)) with (current_frames s).
  change (anim_i (with_anim_i (S (anim_i s)) s)) with (S (anim_i s)).
  rewrite Hf. rewrite bool_decide_eq_false_2 by lia.
  destruct (lookup_lt_is_Some_2 (f :: fs) (S (anim_i s)) Hlt) as [pix Hpix].
  rewrite Hpix.
  destruct (set_pixmap_fields pix (with_anim_i (S (anim_i s)) s))
    as (H1 & H2 & H3 & H4 & H5 & H6 & H7 & H8 & H9).
  rewrite H1, H2, H3, H4, H5, H6, H7, H8, H9. cbn. rewrite Hf.
  repeat split; reflexivity.
Qed.

Lemma tick_wrap (s : Buddy) (f : QPixmap) (fs : list QPixmap) :
  current_frames s = f :: fs ->
  (length (current_frames s) <= S (anim_i s))%nat ->
  current_loop s = true ->
  let s' := tick_anim s in
  anim_i s' = 0%nat /\ displayed s' = Some f /\
  current_anim s' = current_anim s /\ current_frames s' = current_frames s /\
  current_loop s' = true /\ anims s' = anims s /\
  arm_count s' = arm_count s /\ drag_offset s' = drag_offset s /\ pos s' = pos s.
Proof.
  intros Hf Hge Hloop. unfold tick_anim. rewrite Hf. rewrite Hf in Hge.
  cbn zeta. change (current_frames (with_anim_i (S (anim_i s)) s)) with (current_frames s).
  change (anim_i (with_anim_i (S (anim_i s)) s)) with (S (anim_i s)).
  change (current_loop (with_anim_i (S (anim_i s)) s)) with (current_loop s).
  rewrite Hf, Hloop. rewrite bool_decide_eq_true_2 by lia.
  change (current_frames (with_anim_i 0 (with_anim_i (S (anim_i s)) s))) with (current_frames s).
  change (anim_i (with_anim_i 0 (with_anim_i (S (anim_i s)) s))) with 0%nat.
  rewrite Hf. cbn [lookup list_lookup].
  destruct (set_pixmap_fields f (with_anim_i 0 (with_anim_i (S (anim_i s)) s)))
    as (H1 & H2 & H3 & H4 & H5 & H6 & H7 & H8 & H9).
  rewrite H1, H2, H3, H4, H5, H6, H7, H8, H9. cbn. rewrite Hf.
  repeat split; auto.
Qed.

Lemma tick_finish (s : Buddy) (g : QPixmap) (gs : list QPixmap) :
  dict_get (anims s) "idle" = Some (g :: gs) ->
  current_frames s <> [] ->
  (length (current_frames s) <= S (anim_i s))%nat ->
  current_loop s = false ->
  let s' := tick_anim s in
  anim_i s' = 0%nat /\ displayed s' = Some g /\
  current_anim s' = "idle"%string /\ current_frames s' = g :: gs /\
  current_loop s' = true /\ anims s' = anims s /\
  arm_count s' = S (arm_count s) /\ drag_offset s' = drag_offset s /\ pos s' = pos s /\
  (exists ms, behavior_timer s' = Some ms /\ 8000 <= ms <= 25000).
Proof.
  intros Hidle Hne Hge Hloop. unfold tick_anim.
  destruct (current_frames s) as [|f fs] eqn:Hf; [done|].
  cbn zeta. change (current_frames (with_anim_i (S (anim_i s)) s)) with (current_frames s).
  change (anim_i (with_anim_i (S (anim_i s)) s)) with (S (anim_i s)).
  change (current_loop (with_anim_i (S (anim_i s)) s)) with (current_loop s).
  rewrite Hf, Hloop. rewrite bool_decide_eq_true_2 by lia.
  set (s1 := with_anim_i (S (anim_i s)) s).
  assert (Hidle1 : dict_get (anims s1) "idle" = Some (g :: gs)) by exact Hidle.
  destruct (play_loaded "idle" true s1 g gs Hidle1)
    as (P1 & P2 & P3 & P4 & P5 & P6 & P7 & P8 & P9 & _).
  destruct (schedule_fields (play "idle" true s1))
    as (H1 & H2 & H3 & H4 & H5 & H6 & H7 & H8 & H9 & H10).
  rewrite H1, H2, H3, H4, H5, H6, H7, H8, H9, P1, P2, P3, P4, P5, P6, P7, P8, P9.
  repeat split; auto.
Qed.


Lemma ticks_S (k : nat) (s : Buddy) : ticks (S k) s = tick_anim (ticks k s).
Proof. reflexivity. Qed.

(** While the index stays below the length, ticks walk the frames in
    order and touch neither the animation nor the scheduler. *)
Lemma ticks_walk (s0 : Buddy) (A : list QPixmap) (k : nat) :
  current_frames s0 = A -> anim_i s0 = 0%nat -> displayed s0 = A !! 0%nat ->
  (k < length A)%nat ->
  let sk := ticks k s0 in
  anim_i sk = k /\ displayed sk = A !! k /\ current_frames sk = A /\
  current_anim sk = current_anim s0 /\ current_loop sk = current_loop s0 /\
  anims sk = anims s0 /\ arm_count sk = arm_count s0.
Proof.
  intros HA Hi Hd. induction k as [|k IH]; intros Hk.
  - cbn. repeat split; auto.
  - destruct IH as (I1 & I2 & I3 & I4 & I5 & I6 & I7); [lia|].
    cbn zeta. rewrite ticks_S.
    destruct (tick_advance (ticks k s0)) as (T1 & T2 & T3 & T4 & T5 & T6 & T7 & _).
    { rewrite I1, I3. exact Hk. }
    rewrite T1, T2, T3, T4, T5, T6, T7, I1, I3, I4, I5, I6, I7. repeat split; auto.
Qed.

(** A looping animation cycles for ever. *)
Lemma ticks_cycle (s0 : Buddy) (A : list QPixmap) (k : nat) :
  current_frames s0 = A -> A <> [] -> anim_i s0 = 0%nat -> displayed s0 = A !! 0%nat ->
  current_loop s0 = true ->
  let sk := ticks k s0 in
  anim_i sk = (k mod length A)%nat /\ displayed sk = A !! (k mod length A)%nat /\
  current_frames sk = A /\ current_anim sk = current_anim s0 /\
  current_loop sk = true /\ anims sk = anims s0 /\ arm_count sk = arm_count s0.
Proof.
  intros HA Hne Hi Hd Hloop.
  assert (Hlen : (0 < length A)%nat) by (destruct A; [done | simpl; lia]).
  induction k as [|k IH].
  - cbn zeta. rewrite Nat.Div0.mod_0_l. cbn. repeat split; auto.
  - destruct IH as (I1 & I2 & I3 & I4 & I5 & I6 & I7).
    cbn zeta. rewrite ticks_S.
    pose proof (Nat.mod_upper_bound k (length A) ltac:(lia)) as Hb.
    assert (Hstep : (S k mod length A = (k mod length A + 1) mod length A)%nat).
    { rewrite Nat.Div0.add_mod_idemp_l. f_equal. lia. }
    destruct (decide (S (k mod length A) < length A)%nat) as [Hlt | Hge].
    + destruct (tick_advance (ticks k s0)) as (T1 & T2 & T3 & T4 & T5 & T6 & T7 & _).
      { rewrite I1, I3. exact Hlt. }
      rewrite Hstep, Nat.mod_small by lia.
      rewrite T1, T2, T3, T4, T5, T6, T7, I1, I3, I4, I5, I6, I7.
      replace (k mod length A + 1)%nat with (S (k mod length A)) by lia.
      repeat split; auto.
    + destruct A as [|f fs]; [done|].
      destruct (tick_wrap (ticks k s0) f fs) as (T1 & T2 & T3 & T4 & T5 & T6 & T7 & _);
        [exact I3 | rewrite I1, I3; lia | exact I5 |].
      replace (k mod length (f :: fs) + 1)%nat with (length (f :: fs)) in Hstep by lia.
      rewrite Nat.Div0.mod_same in Hstep. rewrite Hstep.
      rewrite T1, T2, T3, T4, T6, T7, I3, I4, I6, I7. repeat split; auto.
Qed.

(** C1. After [play(name, loop)] of a loaded non-empty animation [A]
    frame 0 is on display; the next ticks show frames 1, 2, ...,
    len(A)-1 in turn without arming the scheduler; the tick that takes
    the index to len(A) wraps to frame 0 when [loop] is true (and the
    animation goes on cycling), and when [loop] is false it plays
    "idle" looping from its frame 0 and arms the autonomous-action
    timer, once, in that very tick. *)
Theorem play_then_ticks (s : Buddy) (name : string) (loop : bool) (A : list QPixmap) :
  idle_loaded s ->
  dict_get (anims s) name = Some A -> A <> [] ->
  let s0 := play name loop s in
  (displayed s0 = A !! 0%nat /\ anim_i s0 = 0%nat /\ current_anim s0 = name /\
   current_frames s0 = A /\ current_loop s0 = loop) /\
  (forall k, (k < length A)%nat ->
     anim_i (ticks k s0) = k /\ displayed (ticks k s0) = A !! k /\
     current_anim (ticks k s0) = name /\ arm_count (ticks k s0) = arm_count s) /\
  (loop = true ->
     forall k, anim_i (ticks k s0) = (k mod length A)%nat /\
               displayed (ticks k s0) = A !! (k mod length A)%nat /\
               current_anim (ticks k s0) = name /\ current_frames (ticks k s0) = A) /\
  (loop = false ->
     let s' := ticks (length A) s0 in
     current_anim s' = "idle"%string /\ current_loop s' = true /\ anim_i s' = 0%nat /\
     dict_get (anims s) "idle" = Some (current_frames s') /\
     displayed s' = current_frames s' !! 0%nat /\
     arm_count (ticks (length A - 1) s0) = arm_count s /\
     arm_count s' = S (arm_count s) /\
     exists ms, behavior_timer s' = Some ms /\ 8000 <= ms <= 25000).
Proof.
  intros (g & gs & Hidle) HA Hne s0.
  destruct A as [|f fs]; [done|].
  destruct (play_loaded name loop s f fs HA) as (P1 & P2 & P3 & P4 & P5 & P6 & P7 & _).
  fold s0 in P1, P2, P3, P4, P5, P6, P7.
  assert (Hd0 : displayed s0 = (f :: fs) !! 0%nat) by (rewrite P5; reflexivity).
  split; [repeat split; auto|].
  split; [|split].
  - intros k Hk.
    destruct (ticks_walk s0 (f :: fs) k P2 P4 Hd0 Hk) as (W1 & W2 & W3 & W4 & W5 & W6 & W7).
    rewrite W1, W2, W4, W7, P1, P7. repeat split; auto.
  - intros Hloop k. rewrite Hloop in P3.
    destruct (ticks_cycle s0 (f :: fs) k P2 Hne P4 Hd0 P3) as (C1 & C2 & C3 & C4 & _).
    rewrite C1, C2, C3, C4, P1. repeat split; auto.
  - intros Hloop. rewrite Hloop in P3.
    replace (length (f :: fs)) with (S (length fs)) by reflexivity.
    replace (S (length fs) - 1)%nat with (length fs) by lia.
    cbn zeta. rewrite ticks_S.
    destruct (ticks_walk s0 (f :: fs) (length fs) P2 P4 Hd0) as (W1 & W2 & W3 & W4 & W5 & W6 & W7);
      [simpl; lia|].
    destruct (tick_finish (ticks (length fs) s0) g gs)
      as (T1 & T2 & T3 & T4 & T5 & T6 & T7 & _ & _ & T10).
    + rewrite W6, P6. exact Hidle.
    + rewrite W3. done.
    + rewrite W1, W3. simpl. lia.
    + rewrite W5. exact P3.
    + rewrite T1, T2, T3, T4, T5, T7, W7, P7, Hidle. repeat split; auto.
Qed.

Lemma play_then_ticks_witness :
  let s0 := play "wave" false Demo.buddy in
  displayed (ticks 3 s0) = Some (Demo.frame 2097) /\
  current_anim (ticks 4 s0) = "idle"%string /\
  displayed (ticks 4 s0) = Some (Demo.frame 1097) /\
  arm_count (ticks 4 s0) = S (arm_count Demo.buddy).
Proof.
  pose proof (play_then_ticks Demo.buddy "wave" false
                [Demo.frame 2100; Demo.frame 2099; Demo.frame 2098; Demo.frame 2097]) as H.
  destruct H as (_ & Hwalk & _ & Hend).
  - exists (Demo.frame 1097), [Demo.frame 1098]. vm_compute. reflexivity.
  - vm_compute. reflexivity.
  - discriminate.
  - destruct (Hwalk 3%nat) as (_ & Hd & _); [simpl; lia|].
    pose proof (Hend eq_refl) as He. cbn [length] in He.
    destruct He as (E1 & _ & _ & E4 & E5 & _ & E7 & _).
    split; [exact Hd|]. split; [exact E1|]. split; [|exact E7].
    rewrite E5. clear. vm_compute. reflexivity.
Defined.


(** C6. [play] of a name that is not in [anims], or whose frame list
    is empty, returns the state it was given: animation, index, loop
    mode, interval, label, timers and log are all as before. *)
Theorem play_noop (name : string) (loop : bool) (s : Buddy) :
  dict_get (anims s) name = None \/ dict_get (anims s) name = Some [] ->
  play name loop s = s /\
  current_anim (play name loop s) = current_anim s /\
  anim_i (play name loop s) = anim_i s /\
  current_loop (play name loop s) = current_loop s /\
  frame_ms (play name loop s) = frame_ms s /\
  displayed (play name loop s) = displayed s.
Proof.
  intros H. rewrite (play_absent name loop s H). repeat split; reflexivity.
Qed.

Lemma play_noop_witness :
  play "empty" false Demo.buddy = Demo.buddy /\ play "dance" true Demo.buddy = Demo.buddy.
Proof.
  split.
  - apply (play_noop "empty" false Demo.buddy). right. vm_compute. reflexivity.
  - apply (play_noop "dance" true Demo.buddy). left. vm_compute. reflexivity.
Defined.

Lemma play_inv (name : string) (loop : bool) (s : Buddy) :
  frame_inv s -> frame_inv (play name loop s) /\ anims (play name loop s) = anims s.
Proof.
  intros Hinv.
  destruct (dict_get (anims s) name) as [[|f fs]|] eqn:Hget.
  - rewrite play_absent by auto. done.
  - destruct (play_loaded name loop s f fs Hget) as (_ & P2 & _ & P4 & _ & P6 & _).
    split; [|exact P6]. unfold frame_inv. rewrite P2, P4. split; [done | simpl; lia].
  - rewrite play_absent by auto. done.
Qed.

Lemma tick_inv (s : Buddy) :
  idle_loaded s -> frame_inv s ->
  frame_inv (tick_anim s) /\ anims (tick_anim s) = anims s.
Proof.
  intros (g & gs & Hidle) [Hne Hlt].
  destruct (decide (S (anim_i s) < length (current_frames s))%nat) as [Hadv | Hend].
  - destruct (tick_advance s Hadv) as (T1 & _ & _ & T4 & _ & T6 & _).
    split; [|exact T6]. unfold frame_inv. rewrite T1, T4. done.
  - destruct (current_loop s) eqn:Hloop.
    + destruct (current_frames s) as [|f fs] eqn:Hf; [done|].
      destruct (tick_wrap s f fs Hf) as (T1 & _ & _ & T4 & _ & T6 & _);
        [rewrite Hf; lia | exact Hloop |].
      split; [|exact T6]. unfold frame_inv. rewrite T1, T4, Hf. split; [done | simpl; lia].
    + destruct (tick_finish s g gs Hidle Hne) as (T1 & _ & _ & T4 & _ & T6 & _);
        [lia | exact Hloop |].
      split; [|exact T6]. unfold frame_inv. rewrite T1, T4. split; [done | simpl; lia].
Qed.

Lemma do_random_action_inv (s : Buddy) :
  frame_inv s ->
  frame_inv (do_random_action s) /\ anims (do_random_action s) = anims s.
Proof.
  intros Hinv. unfold do_random_action.
  destruct (choices s) as [|c cs].
  - destruct (schedule_fields s) as (_ & H2 & _ & H4 & _ & H6 & _).
    split; [|exact H6]. unfold frame_inv. rewrite H2, H4. exact Hinv.
  - destruct (choice (c :: cs) (rng s)) as [[name|] r].
    + apply (play_inv name false (with_rng r s)). exact Hinv.
    + split; [exact Hinv | reflexivity].
Qed.

Lemma init_inv (folders : list (string * FrameStore.Folder)) (origin : QPoint)
    (src : nat -> Z) (s : Buddy) :
  init folders origin src = Some s -> idle_loaded s /\ frame_inv s.
Proof.
  unfold init. set (d := foldl _ _ folders).
  unfold dict_get_default. destruct (dict_get d "idle") as [[|f fs]|] eqn:Hget; try discriminate.
  destruct (compute_canvas_size d) as [w h]. intros [= <-].
  split.
  - exists f, fs. exact Hget.
  - split.
    + change (f :: fs <> []). done.
    + change (0 < length (f :: fs))%nat. simpl. lia.
Qed.

Lemma reachable_inv (s : Buddy) : reachable s -> idle_loaded s /\ frame_inv s.
Proof.
  unfold idle_loaded.
  induction 1 as [folders origin src s Hinit | name loop s _ [Hi Hf] | s _ [Hi Hf] | s _ [Hi Hf]].
  - by apply init_inv in Hinit.
  - destruct (play_inv name loop s Hf) as [H1 H2]. by rewrite H2.
  - destruct (tick_inv s Hi Hf) as [H1 H2]. by rewrite H2.
  - destruct (do_random_action_inv s Hf) as [H1 H2]. by rewrite H2.
Qed.

(** C7. The constructor leaves the engine with a non-empty current
    animation and an index inside it, and [play], [tick_anim] and
    [do_random_action] keep it so (they never change [anims], so the
    idle animation found by the constructor stays loaded). *)
Theorem engine_invariant (s : Buddy) :
  idle_loaded s -> frame_inv s ->
  (forall name loop, idle_loaded (play name loop s) /\ frame_inv (play name loop s)) /\
  (idle_loaded (tick_anim s) /\ frame_inv (tick_anim s)) /\
  (idle_loaded (do_random_action s) /\ frame_inv (do_random_action s)).
Proof.
  intros Hidle Hinv. unfold idle_loaded in *.
  split; [|split].
  - intros name loop. destruct (play_inv name loop s Hinv) as [H1 H2]. by rewrite H2.
  - destruct (tick_inv s Hidle Hinv) as [H1 H2]. by rewrite H2.
  - destruct (do_random_action_inv s Hinv) as [H1 H2]. by rewrite H2.
Qed.

Lemma engine_invariant_witness :
  frame_inv (tick_anim (play "wave" false Demo.buddy)) /\
  frame_inv (do_random_action Demo.buddy).
Proof.
  assert (Hi : idle_loaded Demo.buddy /\ frame_inv Demo.buddy).
  { apply (init_inv Demo.folders (100, 100) (fun n => Z.of_nat n * 7919)). reflexivity. }
  destruct Hi as [Hidle Hinv].
  destruct (engine_invariant Demo.buddy Hidle Hinv) as (Hplay & _ & Hact).
  destruct (Hplay "wave"%string false) as [Hidle' Hinv'].
  destruct (engine_invariant _ Hidle' Hinv') as (_ & Htick & _).
  split; [apply Htick | apply Hact].
Defined.

End EngineProperties.

(** ** Dragging the window *)
Section DragProperties.
Import Widget.

(** The engine never moves the window nor touches the drag state. *)
Lemma play_keeps_window (name : string) (loop : bool) (s : Buddy) :
  pos (play name loop s) = pos s /\ drag_offset (play name loop s) = drag_offset s.
Proof.
  unfold play. destruct (dict_get_default (anims s) name []); split; reflexivity.
Qed.

Lemma tick_keeps_window (s : Buddy) :
  pos (tick_anim s) = pos s /\ drag_offset (tick_anim s) = drag_offset s.
Proof.
  unfold tick_anim. destruct (current_frames s) as [|f fs] eqn:Hf; [done|].
  cbn zeta. case_bool_decide.
  - destruct (current_loop _).
    + destruct (_ !! _); split; reflexivity.
    + destruct (schedule_fields (play "idle" true (with_anim_i (S (anim_i s)) s)))
        as (_ & _ & _ & _ & _ & _ & _ & H8 & H9 & _).
      destruct (play_keeps_window "idle" true (with_anim_i (S (anim_i s)) s)) as [P1 P2].
      rewrite H8, H9, P1, P2. split; reflexivity.
  - destruct (_ !! _); split; reflexivity.
Qed.

Lemma do_random_action_keeps_window (s : Buddy) :
  pos (do_random_action s) = pos s /\ drag_offset (do_random_action s) = drag_offset s.
Proof.
  unfold do_random_action. destruct (choices s) as [|c cs].
  - split; reflexivity.
  - destruct (choice (c :: cs) (rng s)) as [[name|] r].
    + destruct (play_keeps_window name false (with_rng r s)) as [P1 P2].
      rewrite P1, P2. split; reflexivity.
    + split; reflexivity.
Qed.

(** While an offset is held, the left button is down: the offset is
    taken on a left press and dropped on any release. *)
Definition drag_held (st : list Button * Buddy) : Prop :=
  drag_offset st.2 <> None -> LeftButton ∈ st.1.

Lemma deliver_drag_held (ev : MouseEvent) (st : list Button * Buddy) :
  drag_held st -> drag_held (deliver ev st).
Proof.
  destruct st as [held s]. unfold drag_held. destruct ev as [b p | p | b p]; cbn.
  - unfold mousePressEvent. case_bool_decide as Hb.
    + intros _ _. subst b. apply list_elem_of_here.
    + intros H Hd. apply list_elem_of_further. auto.
  - unfold mouseMoveEvent. destruct (drag_offset s) eqn:Hd; [|done].
    case_bool_decide; cbn; rewrite ?Hd; auto.
  - intros _ Hd. done.
Qed.

Lemma deliver_all_drag_held (evs : list MouseEvent) (st : list Button * Buddy) :
  drag_held st -> drag_held (deliver_all evs st).
Proof.
  revert st. induction evs as [|ev evs IH]; intros st H; [exact H|].
  cbn. apply IH. by apply deliver_drag_held.
Qed.

(** With every press and release delivered, the guard on
    [event.buttons()] in [mouseMoveEvent] never blocks a drag. *)
Lemma delivered_drag_moves (evs : list MouseEvent) (held0 : list Button) (s0 : Buddy)
    (p : QPoint) (off : QPoint) :
  drag_offset s0 = None ->
  drag_offset (deliver_all evs (held0, s0)).2 = Some off ->
  pos (deliver (Move p) (deliver_all evs (held0, s0))).2 = point_sub p off.
Proof.
  intros Hnone Hoff.
  assert (Hinv : drag_held (deliver_all evs (held0, s0))).
  { apply deliver_all_drag_held. unfold drag_held. cbn. rewrite Hnone. done. }
  destruct (deliver_all evs (held0, s0)) as [held s]. unfold drag_held in Hinv. cbn in *.
  unfold mouseMoveEvent. rewrite Hoff.
  rewrite bool_decide_eq_true_2; [reflexivity|]. apply Hinv. by rewrite Hoff.
Qed.

(** C8, as amended. While an offset is held and the move event reports
    the left button down, a pointer move puts the window at the pointer
    position minus the offset; with an offset but without the left
    button the handler does nothing; without an offset nothing moves
    the window: not a pointer move, not a press or a release, not the
    engine. Grabbing the window at (100, 100) by the point (110, 110)
    and moving the pointer to (150, 140) puts it at (140, 130). *)
Theorem drag_moves_window (s : Buddy) (buttons : list Button) (p : QPoint) :
  (forall off, drag_offset s = Some off -> LeftButton ∈ buttons ->
     pos (mouseMoveEvent buttons p s) = point_sub p off) /\
  (LeftButton ∉ buttons -> mouseMoveEvent buttons p s = s) /\
  (drag_offset s = None -> mouseMoveEvent buttons p s = s) /\
  (forall b q, pos (mousePressEvent b q s) = pos s) /\
  pos (mouseReleaseEvent s) = pos s /\
  (forall name loop, pos (play name loop s) = pos s) /\
  pos (tick_anim s) = pos s /\
  pos (do_random_action s) = pos s /\
  (let s1 := mousePressEvent LeftButton (110, 110) (with_pos (100, 100) s) in
   drag_offset s1 = Some (10, 10) /\
   pos (mouseMoveEvent [LeftButton] (150, 140) s1) = (140, 130)).
Proof.
  repeat split.
  - intros off Hoff Hleft. unfold mouseMoveEvent. rewrite Hoff.
    by rewrite bool_decide_eq_true_2.
  - intros Hleft. unfold mouseMoveEvent. destruct (drag_offset s); [|reflexivity].
    by rewrite bool_decide_eq_false_2.
  - intros Hoff. unfold mouseMoveEvent. by rewrite Hoff.
  - intros b q. unfold mousePressEvent. by case_bool_decide.
  - intros name loop. apply play_keeps_window.
  - apply tick_keeps_window.
  - apply do_random_action_keeps_window.
Qed.

Lemma drag_moves_window_witness :
  let s1 := mousePressEvent LeftButton (110, 110) Demo.buddy in
  pos Demo.buddy = (100, 100) /\ drag_offset s1 = Some (10, 10) /\
  pos (mouseMoveEvent [LeftButton] (150, 140) s1) = (140, 130).
Proof.
  destruct (drag_moves_window (mousePressEvent LeftButton (110, 110) Demo.buddy)
              [LeftButton] (150, 140)) as (Hmove & _).
  split; [reflexivity|]. split; [reflexivity|].
  rewrite (Hmove (10, 10)); [reflexivity | reflexivity | left].
Defined.

(** C8, as stated, fails. The window at (100, 100) is grabbed by the
    point (110, 110); a move to (150, 140) that reports only the right
    button down finds the offset still held and leaves the window at
    (100, 100), not at (140, 130). *)
Lemma drag_without_left_counterexample :
  let s1 := mousePressEvent LeftButton (110, 110) Demo.buddy in
  drag_offset s1 = Some (10, 10) /\
  pos (mouseMoveEvent [RightButton] (150, 140) s1) = (100, 100) /\
  pos (mouseMoveEvent [RightButton] (150, 140) s1) <> point_sub (150, 140) (10, 10).
Proof.
  cbn zeta. split; [reflexivity|].
  assert (H : pos (mouseMoveEvent [RightButton] (150, 140)
                     (mousePressEvent LeftButton (110, 110) Demo.buddy)) = (100, 100))
    by (vm_compute; reflexivity).
  split; [exact H|]. rewrite H. vm_compute. discriminate.
Qed.

End DragProperties.

(** ** Frame store *)
Section FrameStoreProperties.
Import FrameStore.

Lemma lstrip_blank (l : str) : blank_line l -> lstrip l = [].
Proof.
  induction 1 as [|c l Hc _ IH]; [reflexivity|]. cbn. by rewrite Hc.
Qed.

Lemma lstrip_app_blank (ws rest : list Z) :
  Forall (fun c => is_space c = true) ws -> lstrip (ws ++ rest) = lstrip rest.
Proof.
  induction 1 as [|c ws Hc _ IH]; [reflexivity|]. cbn [app lstrip]. by rewrite Hc.
Qed.

(** Stripping from the left cannot eat a final [#]. *)
Lemma lstrip_keeps_hash (l : list Z) : exists l' : list Z, lstrip (l ++ [35]) = l' ++ [35].
Proof.
  induction l as [|c l IH].
  - exists []. reflexivity.
  - cbn [app lstrip]. destruct (is_space c); [exact IH|]. by exists (c :: l).
Qed.

Lemma strip_blank (line : str) : blank_line line -> strip line = [].
Proof.
  intros H. unfold strip. rewrite (lstrip_blank line H). reflexivity.
Qed.

Lemma strip_comment (line : str) :
  comment_line line -> exists rest, strip line = 35 :: rest.
Proof.
  intros (ws & rest & -> & Hws). unfold strip, rstrip. unfold str, char in *.
  rewrite (lstrip_app_blank ws (35 :: rest) Hws).
  change (lstrip (35 :: rest)) with (35 :: rest).
  rewrite reverse_cons.
  destruct (lstrip_keeps_hash (reverse rest)) as [l' ->].
  rewrite reverse_app. by eexists.
Qed.

Lemma manifest_paths_ignored (lines : list str) :
  Forall (fun line => blank_line line \/ comment_line line) lines ->
  manifest_paths lines = [].
Proof.
  induction 1 as [|line lines Hline _ IH]; [reflexivity|].
  cbn [manifest_paths]. destruct Hline as [Hb | Hc].
  - rewrite (strip_blank line Hb). cbn. exact IH.
  - destruct (strip_comment line Hc) as [rest ->]. cbn. exact IH.
Qed.

(** Decoding looks at the files, not at the manifest or the glob. *)
Lemma decode_all_same_files (f1 f2 : Folder) (paths : list str) :
  path_exists f1 = path_exists f2 -> pixmap f1 = pixmap f2 ->
  decode_all f1 paths = decode_all f2 paths.
Proof.
  intros He Hp. induction paths as [|p paths IH]; [reflexivity|].
  cbn [decode_all]. by rewrite He, Hp, IH.
Qed.

(** C10. Without [order.txt] the frames are the decodable files of the
    sorted glob. With [order.txt] the glob is not consulted: the frames
    are the same whatever [*.png] files the folder holds; and when
    every line of the manifest is blank or a comment there are no
    frames at all, so [play] of an animation loaded from that folder
    does nothing. *)
Theorem manifest_replaces_glob (folder : Folder) :
  (order_txt folder = None ->
     load_frames folder = decode_all folder (sorted (glob_png folder))) /\
  (forall text, order_txt folder = Some text ->
     (forall pngs,
        load_frames (mkFolder (Some text) pngs (path_exists folder) (pixmap folder)) =
        load_frames folder) /\
     (Forall (fun line => blank_line line \/ comment_line line) (splitlines text) ->
      load_frames folder = [] /\
      forall (s : Widget.Buddy) name loop,
        Widget.dict_get (Widget.anims s) name = Some (load_frames folder) ->
        Widget.play name loop s = s)).
Proof.
  split.
  - intros H. unfold load_frames, load_paths. by rewrite H.
  - intros text H. split.
    + intros pngs. unfold load_frames, load_paths. cbn [order_txt]. rewrite H.
      by apply decode_all_same_files.
    + intros Hlines.
      assert (Hnil : load_frames folder = []).
      { unfold load_frames, load_paths. rewrite H.
        by rewrite (manifest_paths_ignored _ Hlines). }
      split; [exact Hnil|].
      intros s name loop Hget. apply play_absent. right. by rewrite Hget, Hnil.
Qed.

Lemma manifest_replaces_glob_witness :
  load_frames Demo.empty_folder = [] /\
  load_frames Demo.idle_folder = [Demo.frame 1097; Demo.frame 1098].
Proof.
  destruct (manifest_replaces_glob Demo.empty_folder) as [_ Hsome].
  destruct (manifest_replaces_glob Demo.idle_folder) as [Hnone _].
  split.
  - destruct (Hsome [35; 32; 116; 111; 100; 111; 10; 32; 32; 10] eq_refl) as [_ Hempty].
    apply Hempty.
    constructor; [|constructor; [|constructor]].
    + right. exists [], [32; 116; 111; 100; 111]. split; [reflexivity | constructor].
    + left. repeat constructor.
  - rewrite (Hnone eq_refl). reflexivity.
Defined.

End FrameStoreProperties.

(** * Further properties of the code *)

(** ** [blue_to_alpha] and [dist], pixel by pixel *)
Section KeyingProperties.
Import ChromaKey.

Lemma key_pixel_idem (key : Color) (p : Pixel) :
  key_pixel key (key_pixel key p) = key_pixel key p.
Proof.
  destruct p as [[[r g] b] a]. unfold key_pixel at 2 3. unfold new_pixel.
  destruct (PrimFloat.leb (dist (r, g, b) key) (float_of_int THRESH)) eqn:Hle.
  - unfold key_pixel, new_pixel. by rewrite Hle.
  - destruct (PrimFloat.ltb (dist (r, g, b) key) (float_of_int (THRESH + SOFT))) eqn:Hlt.
    + cbn zeta. unfold key_pixel, new_pixel. rewrite Hle, Hlt. cbn zeta.
      f_equal. lia.
    + unfold key_pixel, new_pixel. by rewrite Hle, Hlt.
Qed.

(** Keying twice with the same 8-bit key changes nothing more: the
    image [blue_to_alpha] returns is a fixed point of [blue_to_alpha]. *)
Theorem blue_to_alpha_idempotent (img : Image) (key : Color) :
  wf_image img -> wf_color key ->
  exists out, blue_to_alpha img key = Some out /\ blue_to_alpha out key = Some out.
Proof.
  intros Hwf _. eexists. split; [by apply blue_to_alpha_total|].
  destruct img as [w h d]. destruct Hwf as (Hw & Hh & Hlen & _). cbn in *.
  rewrite blue_to_alpha_loop; [| assumption | assumption | by rewrite length_fmap].
  do 2 f_equal. rewrite <- list_fmap_compose. apply list_fmap_ext.
  intros _ p _. apply key_pixel_idem.
Qed.

Lemma blue_to_alpha_idempotent_witness :
  exists out, blue_to_alpha Demo.sprite Demo.blue = Some out /\
              blue_to_alpha out Demo.blue = Some out.
Proof.
  apply (blue_to_alpha_idempotent Demo.sprite Demo.blue); [exact sprite_wf | exact demo_blue_wf].
Defined.

Lemma key_pixel_wf (key : Color) (p : Pixel) :
  wf_color key -> wf_pixel p -> wf_pixel (key_pixel key p).
Proof.
  destruct p as [[[r g] b] a]. intros Hkey (Hr & Hg & Hb & Ha).
  assert (Hc : wf_color (r, g, b)) by (cbn; tauto).
  destruct (new_pixel_cases key r g b a Hc Hkey) as (Hnear & Hmid & Hfar).
  unfold key_pixel.
  destruct (Z_le_gt_dec (sqdist (r, g, b) key) (35 ^ 2)) as [H1 | H1].
  - rewrite (Hnear H1). unfold wf_pixel, channel in *. lia.
  - destruct (Z_lt_ge_dec (sqdist (r, g, b) key) (75 ^ 2)) as [H2 | H2].
    + destruct (Hmid ltac:(lia)) as [[Hk _] ->]. unfold wf_pixel, channel in *. lia.
    + rewrite (Hfar ltac:(lia)). unfold wf_pixel. tauto.
Qed.

(** The image returned is again an 8-bit RGBA image with a full
    buffer: every alpha written lies in 0..255. *)
Theorem blue_to_alpha_wf (img : Image) (key : Color) :
  wf_image img -> wf_color key ->
  exists out, blue_to_alpha img key = Some out /\ wf_image out.
Proof.
  intros Hwf Hkey. eexists. split; [by apply blue_to_alpha_total|].
  destruct Hwf as (Hw & Hh & Hlen & Hall). unfold wf_image. cbn [width height data].
  rewrite length_fmap. repeat split; try assumption.
  apply Forall_fmap. eapply Forall_impl; [exact Hall|].
  intros p Hp. by apply key_pixel_wf.
Qed.

Lemma blue_to_alpha_wf_witness :
  exists out, blue_to_alpha Demo.sprite Demo.blue = Some out /\ wf_image out.
Proof. apply (blue_to_alpha_wf Demo.sprite Demo.blue); [exact sprite_wf | exact demo_blue_wf]. Defined.

Lemma feather_floor_mono (n1 n2 k1 k2 : Z) :
  feather_floor n1 k1 -> feather_floor n2 k2 -> n1 <= n2 -> k1 <= k2.
Proof.
  intros (H1 & H1l & _) (H2 & _ & H2u) Hn.
  destruct (Z_le_gt_dec k1 k2) as [|Hgt]; [assumption|]. exfalso.
  assert (Hsq : (40 * (k2 + 1) + 8925) ^ 2 <= (40 * k1 + 8925) ^ 2).
  { apply Z.pow_le_mono_l. lia. }
  lia.
Qed.

Lemma feather_floor_cap (n k : Z) : feather_floor n k -> n < 75 ^ 2 -> k <= 254.
Proof.
  intros (H0 & Hl & _) Hn.
  destruct (Z_le_gt_dec k 254) as [|Hgt]; [assumption|]. exfalso.
  assert (Hsq : (40 * 255 + 8925) ^ 2 <= (40 * k + 8925) ^ 2).
  { apply Z.pow_le_mono_l. lia. }
  lia.
Qed.

(** Of two pixels with the same alpha, the one nearer to the key never
    comes out more opaque than the other: the alpha written is
    monotone in the distance. *)
Theorem keyed_alpha_monotone (key : Color) (r1 g1 b1 r2 g2 b2 a : Z) :
  wf_color key -> wf_color (r1, g1, b1) -> wf_color (r2, g2, b2) -> channel a ->
  sqdist (r1, g1, b1) key <= sqdist (r2, g2, b2) key ->
  alpha_of (key_pixel key (r1, g1, b1, a)) <= alpha_of (key_pixel key (r2, g2, b2, a)).
Proof.
  intros Hkey H1 H2 Ha Hle. unfold channel in Ha.
  destruct (new_pixel_cases key r1 g1 b1 a H1 Hkey) as (Hnear1 & Hmid1 & Hfar1).
  destruct (new_pixel_cases key r2 g2 b2 a H2 Hkey) as (Hnear2 & Hmid2 & Hfar2).
  unfold key_pixel.
  destruct (Z_le_gt_dec (sqdist (r1, g1, b1) key) (35 ^ 2)) as [N1 | N1].
  - rewrite (Hnear1 N1). cbn [alpha_of].
    destruct (Z_le_gt_dec (sqdist (r2, g2, b2) key) (35 ^ 2)) as [N2 | N2].
    + rewrite (Hnear2 N2). cbn [alpha_of]. lia.
    + destruct (Z_lt_ge_dec (sqdist (r2, g2, b2) key) (75 ^ 2)) as [F2 | F2].
      * destruct (Hmid2 ltac:(lia)) as [[Hk _] ->]. cbn [alpha_of]. lia.
      * rewrite (Hfar2 ltac:(lia)). cbn [alpha_of]. lia.
  - destruct (Z_lt_ge_dec (sqdist (r1, g1, b1) key) (75 ^ 2)) as [F1 | F1].
    + destruct (Hmid1 ltac:(lia)) as [Hfl1 ->].
      destruct (Z_lt_ge_dec (sqdist (r2, g2, b2) key) (75 ^ 2)) as [F2 | F2].
      * destruct (Hmid2 ltac:(lia)) as [Hfl2 ->]. cbn [alpha_of].
        pose proof (feather_floor_mono _ _ _ _ Hfl1 Hfl2 Hle). lia.
      * rewrite (Hfar2 ltac:(lia)). cbn [alpha_of]. lia.
    + rewrite (Hfar1 ltac:(lia)), (Hfar2 ltac:(lia)). cbn [alpha_of]. lia.
Qed.

Lemma keyed_alpha_monotone_witness :
  alpha_of (key_pixel Demo.blue (35, 1, 255, 200)) <=
  alpha_of (key_pixel Demo.blue (74, 0, 255, 200)).
Proof.
  apply (keyed_alpha_monotone Demo.blue 35 1 255 74 0 255 200);
    unfold wf_color, Demo.blue, channel, sqdist; cbn; lia.
Defined.

(** A pixel closer than 75 to the key never stays fully opaque: its
    alpha comes out at most 254. *)
Theorem keyed_alpha_below_opaque (key : Color) (r g b a : Z) :
  wf_color key -> wf_pixel (r, g, b, a) ->
  sqdist (r, g, b) key < 75 ^ 2 ->
  alpha_of (key_pixel key (r, g, b, a)) <= 254.
Proof.
  intros Hkey (Hr & Hg & Hb & Ha) Hn.
  assert (Hc : wf_color (r, g, b)) by (cbn; tauto).
  destruct (new_pixel_cases key r g b a Hc Hkey) as (Hnear & Hmid & _).
  unfold key_pixel.
  destruct (Z_le_gt_dec (sqdist (r, g, b) key) (35 ^ 2)) as [N | N].
  - rewrite (Hnear N). cbn [alpha_of]. lia.
  - destruct (Hmid ltac:(lia)) as [Hfl ->]. cbn [alpha_of].
    pose proof (feather_floor_cap _ _ Hfl Hn). lia.
Qed.

Lemma keyed_alpha_below_opaque_witness :
  alpha_of (key_pixel Demo.blue (74, 9, 255, 255)) <= 254.
Proof.
  apply (keyed_alpha_below_opaque Demo.blue 74 9 255 255);
    unfold wf_color, wf_pixel, Demo.blue, channel, sqdist; cbn; lia.
Defined.

Lemma zero_check_all (n : Z) : 0 <= n <= max_sqdist -> DistChecks.zero_check n = true.
Proof.
  intros Hn.
  apply (all_from_spec DistChecks.zero_check (Z.to_nat (max_sqdist + 1)) 0).
  - vm_compute. reflexivity.
  - change max_sqdist with 195075 in *. rewrite Z2Nat.id; lia.
Qed.

Lemma square_check_all (m : Z) : 0 <= m <= 441 -> DistChecks.square_check m = true.
Proof.
  intros Hm.
  apply (all_from_spec DistChecks.square_check 442%nat 0).
  - vm_compute. reflexivity.
  - lia.
Qed.

Lemma sqdist_zero (c key : Color) : sqdist c key = 0 <-> c = key.
Proof.
  destruct c as [[r g] b], key as [[kr kg] kb]. unfold sqdist. rewrite !Z.pow_2_r. split.
  - intros H.
    pose proof (Z.square_nonneg (r - kr)). pose proof (Z.square_nonneg (g - kg)).
    pose proof (Z.square_nonneg (b - kb)).
    assert (Hr : (r - kr) * (r - kr) = 0) by lia.
    assert (Hg : (g - kg) * (g - kg) = 0) by lia.
    assert (Hb : (b - kb) * (b - kb) = 0) by lia.
    apply Z.mul_eq_0 in Hr, Hg, Hb.
    repeat f_equal; lia.
  - intros [= -> -> ->]. lia.
Qed.

Lemma sqdist_sym (c key : Color) : sqdist c key = sqdist key c.
Proof.
  destruct c as [[r g] b], key as [[kr kg] kb]. unfold sqdist. rewrite !Z.pow_2_r. lia.
Qed.

(** [dist] on 8-bit colours: it is symmetric, it is zero exactly for
    equal colours, and when the squared distance is a perfect square
    [m * m] the float returned is [m] itself. *)
Theorem dist_metric (c key : Color) :
  wf_color c -> wf_color key ->
  dist c key = dist key c /\
  (PrimFloat.eqb (dist c key) (float_of_int 0) = true <-> c = key) /\
  (forall m, 0 <= m -> sqdist c key = m * m ->
     PrimFloat.eqb (dist c key) (float_of_int m) = true).
Proof.
  intros Hc Hkey. pose proof (sqdist_bounds c key Hc Hkey) as Hn.
  split; [unfold dist; by rewrite sqdist_sym|]. split.
  - pose proof (zero_check_all _ Hn) as Hz. unfold DistChecks.zero_check in Hz.
    apply Bool.eqb_prop in Hz. unfold dist. rewrite Hz, Z.eqb_eq. apply sqdist_zero.
  - intros m Hm Hsq. unfold dist. rewrite Hsq.
    apply (square_check_all m). change max_sqdist with 195075 in Hn. nia.
Qed.

Lemma dist_metric_witness :
  PrimFloat.eqb (dist (74, 0, 255) Demo.blue) (float_of_int 74) = true.
Proof.
  destruct (dist_metric (74, 0, 255) Demo.blue) as (_ & _ & Hsq).
  - unfold wf_color, channel. lia.
  - exact demo_blue_wf.
  - apply Hsq; [lia | reflexivity].
Defined.

End KeyingProperties.

(** ** [auto_key] *)
Section AutoKeyMore.
Import ChromaKey.

Variable set_iter : list Color -> list Color.
Hypothesis set_iter_order : set_order set_iter.

(** Whatever [auto_key] returns was read from one of the sample points. *)
Lemma auto_key_sampled (img : Image) (c : Color) :
  auto_key set_iter img = Some c ->
  exists xy, xy ∈ samples (width img) (height img) /\ getpixel img xy = Some c.
Proof.
  unfold auto_key. intros H.
  destruct (mapM (getpixel img) (samples (width img) (height img))) as [colors|] eqn:Hm;
    [|discriminate].
  assert (Hin : c ∈ colors).
  { destruct (set_iter_order colors) as [_ Hmem]. apply Hmem.
    destruct (set_iter colors) as [|c0 cs]; [discriminate|].
    destruct (py_max_spec (count colors) (c0 :: cs) ltac:(done)) as (m & l1 & l2 & Hmax & Hl & _).
    rewrite Hmax in H. injection H as <-. rewrite Hl. apply elem_of_app. right. left. }
  apply mapM_Some_1 in Hm.
  apply list_elem_of_lookup in Hin as [i Hi].
  destruct (Forall2_lookup_r _ _ _ _ _ Hm Hi) as (xy & Hxy & Hget).
  exists xy. split; [|exact Hget]. apply list_elem_of_lookup. by exists i.
Qed.

Lemma auto_key_some_dims (img : Image) (c : Color) :
  auto_key set_iter img = Some c -> 1 <= width img /\ 1 <= height img.
Proof.
  intros Hc. destruct (auto_key_sampled img c Hc) as ([x y] & _ & Hget).
  unfold getpixel, px_get in Hget. cbn [fst snd] in Hget.
  destruct (in_bounds img x y) eqn:Hb; [|discriminate].
  unfold in_bounds in Hb. apply andb_prop in Hb as [Hb Hy2]. apply andb_prop in Hb as [Hb Hy1].
  apply andb_prop in Hb as [Hx1 Hx2]. lia.
Qed.

(** The key is the colour of a pixel of the image at a sample point,
    which lies within one step of a corner. *)
Theorem auto_key_is_corner_pixel (img : Image) (c : Color) :
  auto_key set_iter img = Some c ->
  exists x y p, px_get img x y = Some p /\ rgb_of p = c /\
    (x <= 1 \/ width img - 2 <= x) /\ (y <= 1 \/ height img - 2 <= y).
Proof.
  intros H. destruct (auto_key_sampled img c H) as ([x y] & Hin & Hget).
  unfold getpixel in Hget. cbn [fst snd] in Hget.
  destruct (px_get img x y) as [p|] eqn:Hp; [|discriminate].
  injection Hget as Hc. exists x, y, p. split; [exact Hp|]. split; [exact Hc|].
  unfold samples, raw_points in Hin. cbn [fmap list_fmap clamp_point] in Hin.
  assert (Hb : in_bounds img x y = true).
  { unfold px_get in Hp. destruct (in_bounds img x y); [reflexivity | discriminate]. }
  unfold in_bounds in Hb. apply andb_prop in Hb as [Hb Hy2]. apply andb_prop in Hb as [Hb Hy1].
  apply andb_prop in Hb as [Hx1 Hx2].
  repeat (apply elem_of_cons in Hin as [Hin | Hin]; [injection Hin as -> ->; lia|]).
  by apply elem_of_nil in Hin.
Qed.

(** When all the sampled pixels have one colour, that colour is the
    key, whatever the set order; so it is for an image of one colour. *)
Theorem auto_key_uniform (img : Image) (c : Color) :
  wf_image img -> 1 <= width img -> 1 <= height img ->
  (forall xy c', xy ∈ samples (width img) (height img) ->
     getpixel img xy = Some c' -> c' = c) ->
  auto_key set_iter img = Some c.
Proof.
  intros Hwf Hw Hh Hall.
  destruct (auto_key_total set_iter set_iter_order img Hwf Hw Hh) as [k Hk].
  destruct (auto_key_sampled img k Hk) as (xy & Hin & Hget).
  by rewrite Hk, (Hall xy k Hin Hget).
Qed.

(** [auto_key] returns a colour exactly for images of at least 1x1; on
    an image without pixels [getpixel] raises. *)
Theorem auto_key_needs_a_pixel (img : Image) :
  wf_image img ->
  (is_Some (auto_key set_iter img) <-> 1 <= width img /\ 1 <= height img).
Proof.
  intros Hwf. split.
  - intros [c Hc]. by apply (auto_key_some_dims img c).
  - intros [Hw Hh]. by apply auto_key_total.
Qed.

(** The key depends on the image through its sample points only. *)
Theorem auto_key_reads_samples_only (img1 img2 : Image) :
  width img1 = width img2 -> height img1 = height img2 ->
  (forall xy, xy ∈ samples (width img1) (height img1) ->
     getpixel img1 xy = getpixel img2 xy) ->
  auto_key set_iter img1 = auto_key set_iter img2.
Proof.
  intros Hw Hh Hsame. unfold auto_key. rewrite <- Hw, <- Hh.
  rewrite (Forall_mapM_ext (getpixel img1) (getpixel img2)); [reflexivity|].
  apply Forall_forall. exact Hsame.
Qed.

End AutoKeyMore.

Section AutoKeyMoreExamples.
Import ChromaKey.

Lemma two_tone_wf : wf_image Demo.two_tone.
Proof.
  unfold wf_image, Demo.two_tone. cbn.
  repeat split; try lia. repeat constructor; unfold channel; lia.
Qed.

Lemma auto_key_is_corner_pixel_witness :
  exists x y p, px_get Demo.sprite x y = Some p /\ rgb_of p = (0, 5, 255).
Proof.
  destruct (auto_key_is_corner_pixel Demo.first_seen first_seen_order Demo.sprite (0, 5, 255))
    as (x & y & p & Hp & Hc & _).
  - vm_compute. reflexivity.
  - by exists x, y, p.
Defined.

Lemma auto_key_uniform_witness :
  auto_key Demo.first_seen Demo.dot74 = Some (74, 0, 0).
Proof.
  apply (auto_key_uniform Demo.first_seen first_seen_order Demo.dot74 (74, 0, 0)).
  - unfold wf_image, Demo.dot74. cbn. repeat split; try lia.
    repeat constructor; unfold channel; lia.
  - cbn. lia.
  - cbn. lia.
  - intros xy c' Hin Hget. unfold samples, raw_points in Hin.
    cbn [fmap list_fmap clamp_point Demo.dot74 width height] in Hin.
    repeat (apply elem_of_cons in Hin as [-> | Hin];
            [vm_compute in Hget; by injection Hget as <-|]).
    by apply elem_of_nil in Hin.
Defined.

Lemma auto_key_needs_a_pixel_witness :
  is_Some (auto_key Demo.first_seen Demo.two_tone) /\
  auto_key Demo.first_seen (mkImage 0 5 []) = None.
Proof.
  split.
  - apply (auto_key_needs_a_pixel Demo.first_seen first_seen_order Demo.two_tone two_tone_wf).
    cbn. lia.
  - destruct (auto_key Demo.first_seen (mkImage 0 5 [])) as [c|] eqn:H; [|reflexivity].
    exfalso.
    assert (Hwf : wf_image (mkImage 0 5 [])).
    { unfold wf_image. cbn. repeat split; try lia. constructor. }
    destruct (proj1 (auto_key_needs_a_pixel Demo.first_seen first_seen_order _ Hwf)
                (ex_intro _ c H)) as [Hw _].
    cbn in Hw. lia.
Defined.

Lemma auto_key_reads_samples_only_witness :
  auto_key Demo.first_seen (mkImage 2 1 [ (0, 0, 255, 7); (255, 255, 255, 0) ]) =
  auto_key Demo.first_seen Demo.two_tone.
Proof.
  apply (auto_key_reads_samples_only Demo.first_seen); [reflexivity | reflexivity |].
  intros xy Hin. unfold samples, raw_points in Hin.
  cbn [fmap list_fmap clamp_point width height] in Hin.
  repeat (apply elem_of_cons in Hin as [-> | Hin]; [reflexivity|]).
  by apply elem_of_nil in Hin.
Defined.

End AutoKeyMoreExamples.

(** ** The batch run, further *)
Section BatchMore.
Import ChromaKey Batch.

Variable set_iter : list Color -> list Color.
Hypothesis set_iter_order : set_order set_iter.
Variable fs : FileSystem.
Hypothesis opened_wf : forall p img, image_open fs p = Some img -> wf_image img.

Lemma process_file_ok_good (out_dir : Path) (verbose : bool) (p : Path) (w w' : World) :
  process_file set_iter fs out_dir verbose p w = (Ok tt, w') -> good fs p.
Proof.
  unfold process_file. destruct (image_open fs p) as [img|] eqn:Hopen; [|discriminate].
  destruct (auto_key set_iter img) as [key|] eqn:Hkey; [|discriminate]. intros _.
  exists img. split; [exact Hopen|]. split; [by eapply opened_wf|].
  by apply (auto_key_some_dims set_iter set_iter_order img key).
Qed.

Lemma process_files_ok_good (out_dir : Path) (verbose : bool) (pngs : list Path) :
  forall w w', process_files set_iter fs out_dir verbose pngs w = (Ok tt, w') ->
               Forall (good fs) pngs.
Proof.
  induction pngs as [|p pngs IH]; intros w w' H; [constructor|].
  cbn [process_files] in H.
  destruct (process_file set_iter fs out_dir verbose p w) as [[[]|e] w1] eqn:Hp; [|discriminate].
  constructor; [by eapply process_file_ok_good | by eapply IH].
Qed.

(** The script exits with status 0 exactly when the input folder
    exists and every PNG under it opens as an image of at least 1x1;
    otherwise an exception ends it with status 1. *)
Theorem main_exit_status (w : World) :
  ((main set_iter fs w).1 = 0 <->
   in_dir_exists fs = true /\ Forall (good fs) (rglob_png fs)) /\
  ((main set_iter fs w).1 = 0 \/ (main set_iter fs w).1 = 1).
Proof.
  unfold main.
  destruct (process_folder set_iter fs ["assets"; "sprites_clean"]%string true w)
    as [[[]|e] w'] eqn:Hrun.
  - split; [|by left]. split; [intros _|reflexivity].
    unfold process_folder in Hrun. destruct (in_dir_exists fs); [|discriminate].
    split; [reflexivity|]. cbn [negb] in Hrun. by eapply process_files_ok_good.
  - split; [|by right]. split; [discriminate|]. intros [Hdir Hall]. exfalso.
    destruct (process_folder_outcome set_iter set_iter_order fs
                ["assets"; "sprites_clean"]%string true w Hdir) as [_ Hok].
    destruct (Hok Hall) as (w2 & Hrun2 & _). congruence.
Qed.

End BatchMore.

Section BatchVerbosity.
Import ChromaKey Batch.

Variable set_iter : list Color -> list Color.
Variable fs : FileSystem.
Variable out_dir : Path.

Lemma process_file_quiet (p : Path) (w1 w2 : World) :
  made_dirs w1 = made_dirs w2 -> saved w1 = saved w2 ->
  let r1 := process_file set_iter fs out_dir true p w1 in
  let r2 := process_file set_iter fs out_dir false p w2 in
  r1.1 = r2.1 /\ made_dirs r1.2 = made_dirs r2.2 /\ saved r1.2 = saved r2.2 /\
  stdout r2.2 = stdout w2.
Proof.
  intros Hd Hs. unfold process_file.
  destruct (image_open fs p) as [img|]; [|by cbn].
  destruct (auto_key set_iter img) as [key|]; [|by cbn].
  destruct (blue_to_alpha img key) as [out|]; cbn; by rewrite ?Hd, ?Hs.
Qed.

Lemma process_files_quiet (pngs : list Path) :
  forall w1 w2, made_dirs w1 = made_dirs w2 -> saved w1 = saved w2 ->
  let r1 := process_files set_iter fs out_dir true pngs w1 in
  let r2 := process_files set_iter fs out_dir false pngs w2 in
  r1.1 = r2.1 /\ made_dirs r1.2 = made_dirs r2.2 /\ saved r1.2 = saved r2.2 /\
  stdout r2.2 = stdout w2.
Proof.
  induction pngs as [|p pngs IH]; intros w1 w2 Hd Hs; [by cbn|].
  cbn [process_files].
  destruct (process_file_quiet p w1 w2 Hd Hs) as (H1 & H2 & H3 & H4).
  destruct (process_file set_iter fs out_dir true p w1) as [r1 w1'].
  destruct (process_file set_iter fs out_dir false p w2) as [r2 w2'].
  cbn [fst snd] in H1, H2, H3, H4. subst r2.
  destruct r1 as [[]|e]; [|by cbn].
  destruct (IH w1' w2' H2 H3) as (I1 & I2 & I3 & I4).
  cbn zeta. rewrite I1, I2, I3, I4, H4. done.
Qed.

(** [verbose] changes what is printed and nothing else: the quiet run
    ends the same way, makes the same directories and writes the same
    files, and prints nothing. *)
Theorem verbose_only_prints (w : World) :
  let loud := process_folder set_iter fs out_dir true w in
  let quiet := process_folder set_iter fs out_dir false w in
  loud.1 = quiet.1 /\ made_dirs loud.2 = made_dirs quiet.2 /\
  saved loud.2 = saved quiet.2 /\ stdout quiet.2 = stdout w.
Proof.
  unfold process_folder. destruct (in_dir_exists fs); cbn [negb]; [|by cbn].
  destruct (process_files_quiet (rglob_png fs)
              (print (LFound (Z.of_nat (length (rglob_png fs)))) (mkdir out_dir w))
              (mkdir out_dir w) eq_refl eq_refl) as (H1 & H2 & H3 & H4).
  cbn zeta. by rewrite H1, H2, H3, H4.
Qed.

Lemma process_file_saves (verbose : bool) (p : Path) (w w' : World) :
  process_file set_iter fs out_dir verbose p w = (Ok tt, w') ->
  exists img key out,
    image_open fs p = Some img /\ auto_key set_iter img = Some key /\
    blue_to_alpha img key = Some out /\
    saved w' = saved w ++ [(out_dir ++ p, out)] /\
    made_dirs w' = made_dirs w ++ [parent (out_dir ++ p)].
Proof.
  unfold process_file. destruct (image_open fs p) as [img|] eqn:Ho; [|discriminate].
  destruct (auto_key set_iter img) as [key|] eqn:Hk; [|discriminate].
  cbn zeta. destruct (blue_to_alpha img key) as [out|] eqn:Hb; [|discriminate].
  intros [= <-]. exists img, key, out. destruct verbose; repeat split; assumption.
Qed.

(** After a run that returns, the files written are, in the order of
    the listing, one per PNG: under [out_dir] at the path the PNG has
    under the input folder, holding that image keyed with its own
    guessed key; and the parent directory of each was made. *)
Theorem outputs_mirror_inputs (verbose : bool) (w w' : World) :
  process_folder set_iter fs out_dir verbose w = (Ok tt, w') ->
  exists news,
    saved w' = saved w ++ news /\
    Forall2 (fun p (e : Path * Image) =>
               e.1 = out_dir ++ p /\ parent e.1 ∈ made_dirs w' /\
               exists img key, image_open fs p = Some img /\
                 auto_key set_iter img = Some key /\
                 blue_to_alpha img key = Some e.2)
            (rglob_png fs) news.
Proof.
  unfold process_folder. destruct (in_dir_exists fs); [|discriminate]. cbn [negb].
  set (w0 := if verbose then _ else _).
  assert (Hs0 : saved w0 = saved w) by (unfold w0; by destruct verbose).
  rewrite <- Hs0. clearbody w0. clear Hs0.
  revert w0. induction (rglob_png fs) as [|p pngs IH]; intros w0 H.
  - injection H as <-. exists []. split; [by rewrite app_nil_r | constructor].
  - cbn [process_files] in H.
    destruct (process_file set_iter fs out_dir verbose p w0) as [[[]|e] w1] eqn:Hp;
      [|discriminate].
    destruct (process_file_saves verbose p w0 w1 Hp) as (img & key & out & Ho & Hk & Hb & Hs & Hd).
    destruct (IH w1 H) as (news & Hnews & Hall).
    exists ((out_dir ++ p, out) :: news). split.
    + rewrite Hnews, Hs, <- app_assoc. reflexivity.
    + constructor; [|exact Hall]. split; [reflexivity|]. split; [|by exists img, key].
      cbn [fst]. clear - H Hd. revert w1 H Hd. generalize (parent (out_dir ++ p)).
      intros d w1 H Hd.
      assert (Hin : d ∈ made_dirs w1) by (rewrite Hd; apply elem_of_app; right; left).
      clear Hd. revert w1 H Hin. induction pngs as [|q pngs IHq]; intros w1 H Hin.
      * by injection H as <-.
      * cbn [process_files] in H.
        destruct (process_file set_iter fs out_dir verbose q w1) as [[[]|e] w2] eqn:Hq;
          [|discriminate].
        destruct (process_file_saves verbose q w1 w2 Hq) as (_ & _ & _ & _ & _ & _ & _ & Hd2).
        apply (IHq w2 H). rewrite Hd2. apply elem_of_app. by left.
Qed.

End BatchVerbosity.

Section BatchMoreExamples.
Import ChromaKey Batch.

Lemma main_exit_status_witness :
  (main Demo.first_seen Demo.clean_dir Demo.fresh).1 = 0.
Proof.
  apply (main_exit_status Demo.first_seen first_seen_order Demo.clean_dir).
  - intros p img. cbn. case_bool_decide; [|discriminate]. intros [= <-]. exact sprite_wf.
  - split; [reflexivity|]. constructor; [|constructor].
    exists Demo.sprite. split; [reflexivity|]. split; [exact sprite_wf|]. cbn. lia.
Defined.

Lemma outputs_mirror_inputs_witness :
  exists w' news, saved w' = saved Demo.fresh ++ news /\ length news = 1%nat.
Proof.
  destruct (process_folder Demo.first_seen Demo.clean_dir ["out"%string] false Demo.fresh)
    as [r w'] eqn:Hrun.
  assert (Hr : r = Ok tt) by (vm_compute in Hrun; by injection Hrun as <- _).
  subst r.
  destruct (outputs_mirror_inputs Demo.first_seen Demo.clean_dir ["out"%string] false
              Demo.fresh w' Hrun) as (news & Hs & Hall).
  exists w', news. split; [exact Hs|]. apply Forall2_length in Hall. by rewrite <- Hall.
Defined.

End BatchMoreExamples.

(** ** The canvas and the placement of frames *)
Section CanvasProperties.
Import Widget Steady.

Lemma grow_frames (frames : list QPixmap) :
  forall acc, let c := foldl grow acc frames in
  acc.1 <= c.1 /\ acc.2 <= c.2 /\
  (forall pix, pix ∈ frames -> pix_width pix <= c.1 /\ pix_height pix <= c.2) /\
  (c.1 = acc.1 \/ exists pix, pix ∈ frames /\ pix_width pix = c.1) /\
  (c.2 = acc.2 \/ exists pix, pix ∈ frames /\ pix_height pix = c.2).
Proof.
  induction frames as [|p frames IH]; intros acc.
  - cbn. split; [lia|]. split; [lia|]. split; [|split; by left].
    intros pix Hin. by apply elem_of_nil in Hin.
  - cbn [foldl]. destruct (IH (grow acc p)) as (H1 & H2 & H3 & H4 & H5).
    assert (G1 : acc.1 <= (grow acc p).1 /\ pix_width p <= (grow acc p).1)
      by (unfold grow; cbn; destruct (Z.ltb_spec acc.1 (pix_width p)); lia).
    assert (G2 : acc.2 <= (grow acc p).2 /\ pix_height p <= (grow acc p).2)
      by (unfold grow; cbn; destruct (Z.ltb_spec acc.2 (pix_height p)); lia).
    cbn zeta. split; [lia|]. split; [lia|]. split; [|split].
    + intros pix Hin. apply elem_of_cons in Hin as [-> | Hin]; [lia | by apply H3].
    + destruct H4 as [H4 | (pix & Hin & Hpix)].
      * rewrite H4. unfold grow. cbn. destruct (Z.ltb_spec acc.1 (pix_width p)).
        -- right. exists p. split; [left | reflexivity].
        -- by left.
      * right. exists pix. split; [by right | exact Hpix].
    + destruct H5 as [H5 | (pix & Hin & Hpix)].
      * rewrite H5. unfold grow. cbn. destruct (Z.ltb_spec acc.2 (pix_height p)).
        -- right. exists p. split; [left | reflexivity].
        -- by left.
      * right. exists pix. split; [by right | exact Hpix].
Qed.

Lemma grow_anims (d : dict (list QPixmap)) :
  forall acc,
  let c := foldl (fun acc (nf : string * list QPixmap) => foldl grow acc nf.2) acc d in
  acc.1 <= c.1 /\ acc.2 <= c.2 /\
  (forall pix, frame_of d pix -> pix_width pix <= c.1 /\ pix_height pix <= c.2) /\
  (c.1 = acc.1 \/ exists pix, frame_of d pix /\ pix_width pix = c.1) /\
  (c.2 = acc.2 \/ exists pix, frame_of d pix /\ pix_height pix = c.2).
Proof.
  induction d as [|[name frames] d IH]; intros acc.
  - cbn. split; [lia|]. split; [lia|]. split; [|split; by left].
    intros pix (n & fr & Hin & _). by apply elem_of_nil in Hin.
  - cbn [foldl snd].
    destruct (grow_frames frames acc) as (F1 & F2 & F3 & F4 & F5).
    destruct (IH (foldl grow acc frames)) as (H1 & H2 & H3 & H4 & H5).
    cbn zeta. split; [lia|]. split; [lia|]. split; [|split].
    + intros pix (n & fr & Hin & Hpix). apply elem_of_cons in Hin as [[= -> ->] | Hin].
      * specialize (F3 pix Hpix). lia.
      * apply H3. by exists n, fr.
    + destruct H4 as [H4 | (pix & (n & fr & Hin & Hp) & Hpix)].
      * rewrite H4. destruct F4 as [F4 | (px & Hin & Hpx)]; [by left|].
        right. exists px. split; [|exact Hpx]. exists name, frames. split; [left | exact Hin].
      * right. exists pix. split; [|exact Hpix]. exists n, fr. split; [by right | exact Hp].
    + destruct H5 as [H5 | (pix & (n & fr & Hin & Hp) & Hpix)].
      * rewrite H5. destruct F5 as [F5 | (px & Hin & Hpx)]; [by left|].
        right. exists px. split; [|exact Hpx]. exists name, frames. split; [left | exact Hin].
      * right. exists pix. split; [|exact Hpix]. exists n, fr. split; [by right | exact Hp].
Qed.

(** [compute_canvas_size] returns the bounding box of all frames of
    all animations, and at least 1x1: every frame fits, and each
    dimension is 1 or the dimension of some frame. *)
Theorem canvas_is_bounding_box (d : dict (list QPixmap)) :
  let c := compute_canvas_size d in
  1 <= c.1 /\ 1 <= c.2 /\
  (forall pix, frame_of d pix -> pix_width pix <= c.1 /\ pix_height pix <= c.2) /\
  (c.1 = 1 \/ exists pix, frame_of d pix /\ pix_width pix = c.1) /\
  (c.2 = 1 \/ exists pix, frame_of d pix /\ pix_height pix = c.2).
Proof.
  unfold compute_canvas_size.
  destruct (grow_anims d (1, 1)) as (H1 & H2 & H3 & H4 & H5).
  cbn zeta. split; [exact H1|]. split; [exact H2|]. split; [exact H3|].
  split; [exact H4 | exact H5].
Qed.

(** [set_pixmap] shows the pixmap and never places it left of the
    window or above the padding; a pixmap no larger than the canvas is
    centred, to the pixel below, and stands on the bottom edge; a
    larger one is pushed to the left edge or to the padding line. *)
Theorem set_pixmap_placement (pix : QPixmap) (s : Buddy) :
  let s' := set_pixmap pix s in
  label_pixmap s' = Some pix /\
  0 <= (label_pos s').1 /\ TOP_PAD s <= (label_pos s').2 /\
  (pix_width pix <= canvas_w s ->
     label_pos s' = ((canvas_w s - pix_width pix) `div` 2, (label_pos s').2) /\
     2 * (label_pos s').1 <= canvas_w s - pix_width pix <= 2 * (label_pos s').1 + 1 /\
     (label_pos s').1 + pix_width pix <= canvas_w s) /\
  (pix_height pix <= canvas_h s ->
     (label_pos s').2 + pix_height pix = TOP_PAD s + canvas_h s) /\
  (canvas_w s < pix_width pix -> (label_pos s').1 = 0) /\
  (canvas_h s < pix_height pix -> (label_pos s').2 = TOP_PAD s).
Proof.
  cbn zeta. unfold set_pixmap. cbn [label_pixmap label_pos emit with_label fst snd].
  set (d := canvas_w s - pix_width pix).
  pose proof (Z.div_mod d 2 ltac:(lia)) as Hdm.
  pose proof (Z.mod_pos_bound d 2 ltac:(lia)) as Hmod.
  split; [reflexivity|].
  destruct (Z.ltb_spec (d `div` 2) 0) as [Hx | Hx];
    destruct (Z.ltb_spec (TOP_PAD s + (canvas_h s - pix_height pix)) (TOP_PAD s)) as [Hy | Hy];
    cbn [fst snd]; repeat split; intros; try lia; try (f_equal; lia).
Qed.

Lemma set_pixmap_pos_ext (pix : QPixmap) (s1 s2 : Buddy) :
  canvas_w s1 = canvas_w s2 -> canvas_h s1 = canvas_h s2 -> TOP_PAD s1 = TOP_PAD s2 ->
  label_pos (set_pixmap pix s1) = label_pos (set_pixmap pix s2).
Proof.
  intros Hw Hh Hp. unfold set_pixmap. cbn [label_pos emit with_label].
  by rewrite Hw, Hh, Hp.
Qed.

End CanvasProperties.

(** ** The running widget *)
Section SteadyProperties.
Import Widget Steady.

Lemma dict_get_elem {V : Type} (d : dict V) (k : string) (v : V) :
  dict_get d k = Some v -> (k, v) ∈ d.
Proof.
  induction d as [|[k' v'] d IH]; [discriminate|]. cbn [dict_get].
  destruct (decide (k' = k)) as [-> | Hk].
  - rewrite bool_decide_eq_true_2 by done. intros [= ->]. left.
  - rewrite bool_decide_eq_false_2 by done. intros H. right. by apply IH.
Qed.

Lemma dict_get_unique {V : Type} (d : dict V) (k : string) (v : V) :
  NoDup d.*1 -> (k, v) ∈ d -> dict_get d k = Some v.
Proof.
  induction d as [|[k' v'] d IH]; intros Hnd Hin; [by apply elem_of_nil in Hin|].
  cbn in Hnd. apply NoDup_cons in Hnd as [Hk' Hnd]. cbn [dict_get].
  apply elem_of_cons in Hin as [[= -> ->] | Hin].
  - by rewrite bool_decide_eq_true_2.
  - destruct (decide (k' = k)) as [-> | Hk].
    + exfalso. apply Hk'. apply list_elem_of_fmap. by exists (k, v).
    + rewrite bool_decide_eq_false_2 by done. by apply IH.
Qed.

Lemma dict_set_keys {V : Type} (d : dict V) (k : string) (v : V) :
  (dict_set d k v).*1 = if bool_decide (k ∈ d.*1) then d.*1 else d.*1 ++ [k].
Proof.
  induction d as [|[k' v'] d IH]; [reflexivity|]. cbn [dict_set].
  destruct (decide (k' = k)) as [-> | Hk].
  - rewrite bool_decide_eq_true_2 by done. cbn.
    rewrite bool_decide_eq_true_2; [reflexivity | left].
  - rewrite bool_decide_eq_false_2 by done.
    cbn [fmap list_fmap fst]. change (list_fmap _ _ fst (dict_set d k v)) with (dict_set d k v).*1.
    rewrite IH. destruct (decide (k ∈ d.*1)) as [Hin | Hin].
    + rewrite !bool_decide_eq_true_2; [reflexivity | by right | done].
    + rewrite !bool_decide_eq_false_2; [reflexivity | | done].
      intros Hc. apply elem_of_cons in Hc as [-> | Hc]; [by apply Hk | by apply Hin].
Qed.

Lemma dict_set_NoDup {V : Type} (d : dict V) (k : string) (v : V) :
  NoDup d.*1 -> NoDup (dict_set d k v).*1.
Proof.
  intros Hnd. rewrite dict_set_keys. case_bool_decide as Hin; [exact Hnd|].
  apply NoDup_app. split; [exact Hnd|]. split; [|apply NoDup_singleton].
  intros x Hx Hx'. apply list_elem_of_singleton in Hx'. by subst x.
Qed.

Lemma dict_get_set {V : Type} (d : dict V) (k k' : string) (v : V) :
  dict_get (dict_set d k v) k' = if bool_decide (k = k') then Some v else dict_get d k'.
Proof.
  induction d as [|[k0 v0] d IH]; cbn [dict_set dict_get]; [reflexivity|].
  destruct (decide (k0 = k)) as [-> | H0].
  - rewrite (bool_decide_eq_true_2 (k = k)) by done. cbn [dict_get].
    by destruct (decide (k = k')); rewrite ?bool_decide_eq_true_2, ?bool_decide_eq_false_2 by done.
  - rewrite (bool_decide_eq_false_2 (k0 = k)) by done. cbn [dict_get]. rewrite IH.
    destruct (decide (k0 = k')) as [E0 | E0], (decide (k = k')) as [E1 | E1];
      rewrite ?(bool_decide_eq_true_2 _ E0), ?(bool_decide_eq_false_2 _ E0),
              ?(bool_decide_eq_true_2 _ E1), ?(bool_decide_eq_false_2 _ E1);
      try reflexivity. congruence.
Qed.

Lemma speeds_period (name : string) :
  dict_get_default speeds name (dict_get_default speeds "_default" 0) = period name.
Proof.
  unfold dict_get_default, speeds, period. cbn [dict_get].
  rewrite (bool_decide_ext ("idle"%string = name) (name = "idle"%string)) by done.
  case_bool_decide; [reflexivity|]. by case_bool_decide.
Qed.

Lemma steady_show (s : Buddy) (i : nat) (pix : QPixmap) :
  steady s -> current_frames s !! i = Some pix ->
  steady (set_pixmap pix (with_anim_i i s)).
Proof.
  intros [H1 H2 H3 H4 H5 H6 H7 H8 H9 H10 H11] Hpix. constructor; try assumption.
  - by symmetry.
  - intros pix' [= <-]. by apply set_pixmap_pos_ext.
  - change (Forall delay_ok (log s ++ [LabelSetPixmap pix])).
    apply Forall_app. split; [exact H10|]. by repeat constructor.
Qed.

Lemma steady_schedule (s : Buddy) : steady s -> steady (schedule_next_action s).
Proof.
  intros [H1 H2 H3 H4 H5 H6 H7 H8 H9 H10 H11].
  pose proof (Z.mod_pos_bound (source (rng s) (drawn (rng s))) 17001 ltac:(lia)) as Hm.
  constructor; try assumption.
  - change (Forall delay_ok
              (log s ++ [BehaviorTimerStart (8000 + source (rng s) (drawn (rng s)) mod 17001)])).
    apply Forall_app. split; [exact H10|]. repeat constructor; cbn; lia.
  - exists (8000 + source (rng s) (drawn (rng s)) mod 17001). split; [reflexivity | lia].
Qed.

Lemma steady_with_rng (s : Buddy) (r : Rng) : steady s -> steady (with_rng r s).
Proof. intros [H1 H2 H3 H4 H5 H6 H7 H8 H9 H10 H11]. by constructor. Qed.

Lemma steady_play (s0 s : Buddy) (name : string) (loop : bool)
    (f : QPixmap) (fs : list QPixmap) :
  steady s0 ->
  anims s = anims s0 -> anim_speeds s = anim_speeds s0 ->
  canvas_w s = canvas_w s0 -> canvas_h s = canvas_h s0 -> TOP_PAD s = TOP_PAD s0 ->
  log s = log s0 -> behavior_timer s = behavior_timer s0 ->
  dict_get (anims s) name = Some (f :: fs) ->
  steady (play name loop s).
Proof.
  intros [H1 H2 H3 H4 H5 H6 H7 H8 H9 H10 H11] Ea Es Ew Eh Ep El Eb Hget.
  rewrite (play_eq name loop s f fs Hget). cbn zeta.
  rewrite Es, H1, speeds_period.
  constructor.
  - change (anim_speeds s = speeds). by rewrite Es.
  - change (TOP_PAD s = 60). by rewrite Ep.
  - change ((canvas_w s, canvas_h s) = compute_canvas_size (anims s)). by rewrite Ew, Eh, Ea.
  - change (NoDup (anims s).*1). by rewrite Ea.
  - exact Hget.
  - reflexivity.
  - intros pix [= <-]. by apply set_pixmap_pos_ext.
  - reflexivity.
  - reflexivity.
  - change (Forall delay_ok
              (((log s ++ [LabelSetPixmap f]) ++ [PrintPlay name (period name)])
               ++ [AnimTimerStart (period name)])).
    rewrite El. repeat (apply Forall_app; split); try exact H10; by repeat constructor.
  - change (exists ms, behavior_timer s = Some ms /\ 8000 <= ms <= 25000). by rewrite Eb.
Qed.

Lemma steady_play_any (s : Buddy) (name : string) (loop : bool) :
  steady s -> steady (play name loop s).
Proof.
  intros Hs. destruct (dict_get (anims s) name) as [[|f fs]|] eqn:Hget.
  - by rewrite play_absent by auto.
  - by apply (steady_play s s name loop f fs).
  - by rewrite play_absent by auto.
Qed.

Lemma tick_eq_advance (s : Buddy) :
  (S (anim_i s) < length (current_frames s))%nat ->
  exists pix, current_frames s !! S (anim_i s) = Some pix /\
              tick_anim s = set_pixmap pix (with_anim_i (S (anim_i s)) s).
Proof.
  intros Hlt. destruct (lookup_lt_is_Some_2 _ _ Hlt) as [pix Hpix].
  exists pix. split; [exact Hpix|]. unfold tick_anim.
  destruct (current_frames s) as [|f fs] eqn:Hf; [simpl in Hlt; lia|].
  cbn zeta. change (current_frames (with_anim_i (S (anim_i s)) s)) with (current_frames s).
  change (anim_i (with_anim_i (S (anim_i s)) s)) with (S (anim_i s)).
  rewrite Hf. rewrite bool_decide_eq_false_2 by lia. by rewrite Hpix.
Qed.

Lemma tick_eq_wrap (s : Buddy) (f : QPixmap) (fs : list QPixmap) :
  current_frames s = f :: fs ->
  (length (current_frames s) <= S (anim_i s))%nat -> current_loop s = true ->
  tick_anim s = set_pixmap f (with_anim_i 0 (with_anim_i (S (anim_i s)) s)).
Proof.
  intros Hf Hge Hloop. unfold tick_anim. rewrite Hf. rewrite Hf in Hge.
  cbn zeta. change (current_frames (with_anim_i (S (anim_i s)) s)) with (current_frames s).
  change (anim_i (with_anim_i (S (anim_i s)) s)) with (S (anim_i s)).
  change (current_loop (with_anim_i (S (anim_i s)) s)) with (current_loop s).
  rewrite Hf, Hloop. rewrite bool_decide_eq_true_2 by lia.
  change (current_frames (with_anim_i 0 (with_anim_i (S (anim_i s)) s))) with (current_frames s).
  change (anim_i (with_anim_i 0 (with_anim_i (S (anim_i s)) s))) with 0%nat.
  by rewrite Hf.
Qed.

Lemma tick_eq_finish (s : Buddy) :
  current_frames s <> [] ->
  (length (current_frames s) <= S (anim_i s))%nat -> current_loop s = false ->
  tick_anim s = schedule_next_action (play "idle" true (with_anim_i (S (anim_i s)) s)).
Proof.
  intros Hne Hge Hloop. unfold tick_anim.
  destruct (current_frames s) as [|f fs] eqn:Hf; [done|].
  cbn zeta. change (current_frames (with_anim_i (S (anim_i s)) s)) with (current_frames s).
  change (anim_i (with_anim_i (S (anim_i s)) s)) with (S (anim_i s)).
  change (current_loop (with_anim_i (S (anim_i s)) s)) with (current_loop s).
  rewrite Hf, Hloop. by rewrite bool_decide_eq_true_2 by lia.
Qed.

Lemma steady_tick (s : Buddy) :
  steady s -> idle_loaded s -> frame_inv s -> steady (tick_anim s).
Proof.
  intros Hs (g & gs & Hidle) [Hne Hlt].
  destruct (decide (S (anim_i s) < length (current_frames s))%nat) as [Hadv | Hend].
  - destruct (tick_eq_advance s Hadv) as (pix & Hpix & ->). by apply steady_show.
  - destruct (current_loop s) eqn:Hloop.
    + destruct (current_frames s) as [|f fs] eqn:Hf; [done|].
      rewrite (tick_eq_wrap s f fs Hf) by (rewrite ?Hf; (lia || done)).
      apply (steady_show s 0 f Hs). by rewrite Hf.
    + rewrite tick_eq_finish by (lia || done).
      apply steady_schedule.
      by apply (steady_play s (with_anim_i (S (anim_i s)) s) "idle" true g gs).
Qed.

Lemma steady_action (s : Buddy) : steady s -> steady (do_random_action s).
Proof.
  intros Hs. unfold do_random_action. destruct (choices s) as [|c cs].
  - by apply steady_schedule.
  - destruct (choice (c :: cs) (rng s)) as [[name|] r].
    + by apply steady_play_any, steady_with_rng.
    + by apply steady_with_rng.
Qed.

Lemma loaded_anims (folders : list (string * FrameStore.Folder)) :
  forall d, NoDup d.*1 ->
  NoDup (foldl (fun d (nf : string * FrameStore.Folder) =>
                  dict_set d nf.1 (FrameStore.load_frames nf.2)) d folders).*1.
Proof.
  induction folders as [|[n f] folders IH]; intros d Hd; [exact Hd|].
  cbn [foldl]. apply IH. by apply dict_set_NoDup.
Qed.

Lemma steady_init (folders : list (string * FrameStore.Folder)) (origin : QPoint)
    (src : nat -> Z) (s : Buddy) :
  init folders origin src = Some s -> steady s.
Proof.
  unfold init. set (d := foldl _ _ folders).
  assert (Hnd : NoDup d.*1) by (apply loaded_anims; constructor).
  unfold dict_get_default. destruct (dict_get d "idle") as [[|f fs]|] eqn:Hget; try discriminate.
  destruct (compute_canvas_size d) as [w h] eqn:Hc. intros [= <-].
  pose proof (Z.mod_pos_bound (src 0%nat) 17001 ltac:(lia)) as Hm.
  constructor; try reflexivity; try assumption.
  - by symmetry.
  - intros pix [= <-]. by apply set_pixmap_pos_ext.
  - change (Forall delay_ok [LabelSetPixmap f; AnimTimerStart 300;
                             BehaviorTimerStart (8000 + src 0%nat mod 17001)]).
    repeat constructor; cbn; lia.
  - exists (8000 + src 0%nat mod 17001). split; [reflexivity | lia].
Qed.

Lemma reachable_steady (s : Buddy) : reachable s -> steady s.
Proof.
  intros Hr. induction Hr as [folders origin src s Hinit | name loop s Hr IH | s Hr IH | s Hr IH].
  - by eapply steady_init.
  - by apply steady_play_any.
  - destruct (reachable_inv s Hr) as [Hi Hf]. by apply steady_tick.
  - by apply steady_action.
Qed.

Lemma demo_reachable : reachable Demo.buddy.
Proof. by apply (reach_init Demo.folders (100, 100) (fun n => Z.of_nat n * 7919)). Qed.

Lemma fits_centred (pix : QPixmap) (s : Buddy) :
  pix_width pix <= canvas_w s -> pix_height pix <= canvas_h s ->
  label_pos (set_pixmap pix s) = centred s pix.
Proof.
  intros Hw Hh. unfold set_pixmap, centred. cbn [label_pos emit with_label].
  pose proof (Z.div_pos (canvas_w s - pix_width pix) 2 ltac:(lia) ltac:(lia)).
  destruct (Z.ltb_spec ((canvas_w s - pix_width pix) `div` 2) 0); [lia|].
  destruct (Z.ltb_spec (TOP_PAD s + (canvas_h s - pix_height pix)) (TOP_PAD s)); [lia|].
  reflexivity.
Qed.

(** In every state the constructor and the engine's handlers can
    produce, the label shows the current frame of the current
    animation, and that frame lies inside the fixed canvas: centred,
    standing on the bottom edge, below the 60 pixels of padding. *)
Theorem shown_frame_within_canvas (s : Buddy) :
  reachable s ->
  exists pix,
    label_pixmap s = Some pix /\ current_frames s !! anim_i s = Some pix /\
    label_pos s = centred s pix /\
    0 <= (label_pos s).1 /\ (label_pos s).1 + pix_width pix <= canvas_w s /\
    60 <= (label_pos s).2 /\ (label_pos s).2 + pix_height pix = 60 + canvas_h s.
Proof.
  intros Hr. pose proof (reachable_steady s Hr) as Hs.
  destruct (reachable_inv s Hr) as [_ [_ Hlt]].
  destruct (lookup_lt_is_Some_2 _ _ Hlt) as [pix Hpix].
  destruct Hs as [H1 H2 H3 H4 H5 H6 H7 H8 H9 H10 H11].
  rewrite Hpix in H6. exists pix. split; [exact H6|]. split; [exact Hpix|].
  assert (Hfit : pix_width pix <= canvas_w s /\ pix_height pix <= canvas_h s).
  { destruct (grow_anims (anims s) (1, 1)) as (_ & _ & Hall & _).
    change (foldl _ (1, 1) (anims s)) with (compute_canvas_size (anims s)) in Hall.
    rewrite <- H3 in Hall. apply Hall.
    exists (current_anim s), (current_frames s). split; [by apply dict_get_elem|].
    apply list_elem_of_lookup. by exists (anim_i s). }
  destruct Hfit as [Hw Hh].
  rewrite (H7 pix H6), (fits_centred pix s Hw Hh). unfold centred. cbn [fst snd].
  rewrite H2.
  pose proof (Z.div_mod (canvas_w s - pix_width pix) 2 ltac:(lia)).
  pose proof (Z.mod_pos_bound (canvas_w s - pix_width pix) 2 ltac:(lia)).
  repeat split; lia.
Qed.

Lemma shown_frame_within_canvas_witness :
  exists pix, label_pixmap Demo.buddy = Some pix /\ label_pos Demo.buddy = (0, 60).
Proof.
  destruct (shown_frame_within_canvas Demo.buddy demo_reachable) as (pix & H1 & _ & H3 & _).
  exists pix. split; [exact H1|]. rewrite H3. vm_compute in H1. by injection H1 as <-.
Defined.

(** The frame timer always runs at the interval of the current
    animation: 300 ms for "idle", 100 ms for any other. *)
Theorem frame_timer_period (s : Buddy) :
  reachable s ->
  frame_ms s = (if bool_decide (current_anim s = "idle"%string) then 300 else 100) /\
  anim_timer s = Some (frame_ms s).
Proof.
  intros Hr. destruct (reachable_steady s Hr) as [_ _ _ _ _ _ _ H8 H9 _ _].
  split; [exact H8 | exact H9].
Qed.

Lemma frame_timer_period_witness :
  anim_timer (play "wave" false Demo.buddy) = Some 100 /\ anim_timer Demo.buddy = Some 300.
Proof.
  destruct (frame_timer_period (play "wave" false Demo.buddy)) as [H1 H2].
  { apply reach_play, demo_reachable. }
  destruct (frame_timer_period Demo.buddy demo_reachable) as [H3 H4].
  split; [rewrite H2, H1 | rewrite H4, H3]; reflexivity.
Defined.

(** Every delay the autonomous-action timer was ever started with lies
    between 8000 and 25000 ms, and so does the one it holds. *)
Theorem scheduler_delays_in_window (s : Buddy) :
  reachable s ->
  (forall ms, BehaviorTimerStart ms ∈ log s -> 8000 <= ms <= 25000) /\
  (exists ms, behavior_timer s = Some ms /\ 8000 <= ms <= 25000) /\
  (1 <= arm_count s)%nat.
Proof.
  intros Hr. destruct (reachable_steady s Hr) as [_ _ _ _ _ _ _ _ _ H10 H11].
  split; [|split; [exact H11|]].
  - intros ms Hin. rewrite Forall_forall in H10. apply (H10 _ Hin).
  - clear H10 H11. unfold arm_count.
    induction Hr as [folders origin src s Hinit | name loop s Hr IH | s Hr IH | s Hr IH].
    + revert Hinit. unfold init. set (d := foldl _ _ folders).
      destruct (dict_get_default d "idle" []) as [|f fs]; [discriminate|].
      destruct (compute_canvas_size d) as [w h]. intros [= <-].
      fold (arm_count (schedule_next_action
        (emit (AnimTimerStart 300) (with_anim_timer 300
           (set_pixmap f (mkBuddy d [("idle"%string, 300); ("_default"%string, 100)] w h 60
              "idle" (f :: fs) true 0 300 None (0, 0) None None None origin
              (mkRng src 0) [])))))).
      destruct (schedule_fields (emit (AnimTimerStart 300) (with_anim_timer 300
           (set_pixmap f (mkBuddy d [("idle"%string, 300); ("_default"%string, 100)] w h 60
              "idle" (f :: fs) true 0 300 None (0, 0) None None None origin
              (mkRng src 0) [])))))
        as (_ & _ & _ & _ & _ & _ & H7 & _).
      rewrite H7. lia.
    + fold (arm_count (play name loop s)). fold (arm_count s) in IH.
      destruct (dict_get (anims s) name) as [[|f fs]|] eqn:Hget.
      * by rewrite play_absent by auto.
      * destruct (play_loaded name loop s f fs Hget) as (_ & _ & _ & _ & _ & _ & H7 & _).
        by rewrite H7.
      * by rewrite play_absent by auto.
    + fold (arm_count (tick_anim s)). fold (arm_count s) in IH.
      destruct (reachable_inv s Hr) as [(g & gs & Hidle) [Hne Hlt]].
      destruct (decide (S (anim_i s) < length (current_frames s))%nat) as [Hadv | Hend].
      * destruct (tick_advance s Hadv) as (_ & _ & _ & _ & _ & _ & H7 & _). by rewrite H7.
      * destruct (current_loop s) eqn:Hloop.
        -- destruct (current_frames s) as [|f fs] eqn:Hf; [done|].
           destruct (tick_wrap s f fs Hf) as (_ & _ & _ & _ & _ & _ & H7 & _);
             [rewrite Hf; lia | exact Hloop |]. by rewrite H7.
        -- destruct (tick_finish s g gs Hidle Hne) as (_ & _ & _ & _ & _ & _ & H7 & _);
             [lia | exact Hloop |]. rewrite H7. lia.
    + fold (arm_count (do_random_action s)). fold (arm_count s) in IH.
      unfold do_random_action. destruct (choices s) as [|c cs].
      * destruct (schedule_fields s) as (_ & _ & _ & _ & _ & _ & H7 & _). rewrite H7. lia.
      * destruct (choice (c :: cs) (rng s)) as [[name|] r]; [|exact IH].
        destruct (dict_get (anims (with_rng r s)) name) as [[|f fs]|] eqn:Hget.
        -- rewrite play_absent by auto. exact IH.
        -- destruct (play_loaded name false (with_rng r s) f fs Hget)
             as (_ & _ & _ & _ & _ & _ & H7 & _).
           rewrite H7. exact IH.
        -- rewrite play_absent by auto. exact IH.
Qed.

Lemma scheduler_delays_in_window_witness :
  exists ms, behavior_timer (ticks 4 (play "wave" false Demo.buddy)) = Some ms /\
             8000 <= ms <= 25000.
Proof.
  destruct (scheduler_delays_in_window (ticks 4 (play "wave" false Demo.buddy)))
    as (_ & H & _); [|exact H].
  do 4 apply reach_tick. apply reach_play, demo_reachable.
Defined.

End SteadyProperties.

(** ** Autonomous actions, interrupted animations, start-up *)
Section ActionProperties.
Import Widget Steady.

Lemma choice_picks {A : Type} (l : list A) (r : Rng) :
  l <> [] -> exists x, (choice l r).1 = Some x /\ x ∈ l.
Proof.
  intros Hne. unfold choice, draw. cbn [fst].
  assert (Hlen : (0 < length l)%nat) by (destruct l; [done | simpl; lia]).
  pose proof (Z.mod_pos_bound (source r (drawn r)) (Z.of_nat (length l)) ltac:(lia)) as Hm.
  destruct (lookup_lt_is_Some_2 l (Z.to_nat (source r (drawn r) mod Z.of_nat (length l))))
    as [x Hx]; [lia|].
  exists x. split; [exact Hx|]. apply list_elem_of_lookup. by eexists.
Qed.

Lemma choices_spec (s : Buddy) (name : string) :
  NoDup (anims s).*1 ->
  (name ∈ choices s <->
   name <> "idle"%string /\ exists f fs, dict_get (anims s) name = Some (f :: fs)).
Proof.
  intros Hnd. unfold choices. rewrite list_elem_of_fmap. split.
  - intros ([n frames] & -> & Hin). apply list_elem_of_filter in Hin as [[Hn Hf] Hin].
    cbn [fst snd] in *. split; [exact Hn|].
    destruct frames as [|f fs]; [done|]. exists f, fs. by apply dict_get_unique.
  - intros (Hn & f & fs & Hget). exists (name, f :: fs). split; [reflexivity|].
    apply list_elem_of_filter. split; [by split | by apply dict_get_elem].
Qed.

(** [do_random_action]: if some animation other than "idle" has
    frames, one of those is started from its frame 0, not looping, and
    the action timer is left alone; if none has, the only effect is to
    arm the action timer again. *)
Theorem do_random_action_picks (s : Buddy) :
  NoDup (anims s).*1 ->
  (choices s = [] -> do_random_action s = schedule_next_action s) /\
  (choices s <> [] ->
     let s' := do_random_action s in
     current_anim s' ∈ choices s /\ current_anim s' <> "idle"%string /\
     current_frames s' <> [] /\
     dict_get (anims s) (current_anim s') = Some (current_frames s') /\
     current_loop s' = false /\ anim_i s' = 0%nat /\
     displayed s' = current_frames s' !! 0%nat /\
     arm_count s' = arm_count s /\ behavior_timer s' = behavior_timer s).
Proof.
  intros Hnd. split.
  - intros Hc. unfold do_random_action. by rewrite Hc.
  - intros Hne. cbn zeta. unfold do_random_action.
    destruct (choices s) as [|c cs] eqn:Hc; [done|].
    destruct (choice_picks (c :: cs) (rng s) Hne) as (name & Hpick & Hin).
    destruct (choice (c :: cs) (rng s)) as [picked r]. cbn [fst] in Hpick. subst picked.
    rewrite <- Hc in Hin.
    destruct (proj1 (choices_spec s name Hnd) Hin) as (Hidle & f & fs & Hget).
    destruct (play_loaded name false (with_rng r s) f fs Hget)
      as (P1 & P2 & P3 & P4 & P5 & P6 & P7 & _).
    rewrite P1, P2, P3, P4, P5, P7, Hget. rewrite <- Hc.
    repeat split; try done.
    rewrite (play_eq name false (with_rng r s) f fs Hget). reflexivity.
Qed.

Lemma do_random_action_picks_witness :
  current_anim (do_random_action Demo.buddy) = "wave"%string.
Proof.
  destruct (do_random_action_picks Demo.buddy) as [_ H].
  - apply (bool_decide_eq_true_1 _). vm_compute. reflexivity.
  - destruct H as (Hin & _); [by vm_compute|].
    vm_compute in Hin. by apply list_elem_of_singleton in Hin.
Defined.

(** A non-looping animation caught at any frame runs to its last frame
    and then gives way to "idle": with [k] frames left, the next
    [k - 1] ticks advance it without arming the action timer, and the
    [k]-th tick starts "idle" looping at frame 0 and arms the timer. *)
Theorem unfinished_action_returns_to_idle (s : Buddy) :
  idle_loaded s -> frame_inv s -> current_loop s = false ->
  let k := (length (current_frames s) - anim_i s)%nat in
  (forall j, (j < k)%nat ->
     current_anim (ticks j s) = current_anim s /\
     current_frames (ticks j s) = current_frames s /\
     anim_i (ticks j s) = (anim_i s + j)%nat /\
     arm_count (ticks j s) = arm_count s) /\
  current_anim (ticks k s) = "idle"%string /\ current_loop (ticks k s) = true /\
  anim_i (ticks k s) = 0%nat /\ arm_count (ticks k s) = S (arm_count s).
Proof.
  intros (g & gs & Hidle) [Hne Hlt] Hloop k.
  assert (Hwalk : forall j, (j < k)%nat ->
     current_anim (ticks j s) = current_anim s /\
     current_frames (ticks j s) = current_frames s /\
     anim_i (ticks j s) = (anim_i s + j)%nat /\
     arm_count (ticks j s) = arm_count s /\
     current_loop (ticks j s) = false /\ anims (ticks j s) = anims s).
  { induction j as [|j IH]; intros Hj.
    - cbn. rewrite Nat.add_0_r. done.
    - destruct IH as (I1 & I2 & I3 & I4 & I5 & I6); [lia|]. rewrite ticks_S.
      destruct (tick_advance (ticks j s)) as (T1 & _ & T3 & T4 & T5 & T6 & T7 & _).
      { rewrite I2, I3. unfold k in Hj. lia. }
      rewrite T1, T3, T4, T5, T6, T7, I1, I2, I3, I4, I5, I6. repeat split; lia. }
  split.
  - intros j Hj. destruct (Hwalk j Hj) as (W1 & W2 & W3 & W4 & _). done.
  - assert (Hk : k = S (k - 1)) by (unfold k; lia). rewrite Hk, ticks_S.
    destruct (Hwalk (k - 1)%nat ltac:(lia)) as (W1 & W2 & W3 & W4 & W5 & W6).
    destruct (tick_finish (ticks (k - 1) s) g gs) as (T1 & _ & T3 & _ & T5 & _ & T7 & _).
    + by rewrite W6.
    + by rewrite W2.
    + rewrite W2, W3. unfold k. lia.
    + exact W5.
    + rewrite T1, T3, T5, T7, W4. done.
Qed.

Lemma unfinished_action_returns_to_idle_witness :
  current_anim (ticks 2 (ticks 2 (play "wave" false Demo.buddy))) = "idle"%string.
Proof.
  assert (Hr : reachable (ticks 2 (play "wave" false Demo.buddy))).
  { do 2 apply reach_tick. apply reach_play, demo_reachable. }
  destruct (reachable_inv _ Hr) as [Hi Hf].
  destruct (unfinished_action_returns_to_idle _ Hi Hf) as (_ & H & _); [reflexivity|].
  exact H.
Defined.

Lemma play_consts (name : string) (loop : bool) (s : Buddy) :
  anims (play name loop s) = anims s /\ anim_speeds (play name loop s) = anim_speeds s /\
  canvas_w (play name loop s) = canvas_w s /\ canvas_h (play name loop s) = canvas_h s /\
  TOP_PAD (play name loop s) = TOP_PAD s.
Proof.
  unfold play. destruct (dict_get_default (anims s) name []); repeat split.
Qed.

(** [play] interrupts whatever is playing: what the engine shows and
    how it is timed after [play(name, loop)] does not depend on a
    [play] that came just before. *)
Theorem last_play_wins (s : Buddy) (name other : string) (loop loop' : bool)
    (f : QPixmap) (fs : list QPixmap) :
  dict_get (anims s) name = Some (f :: fs) ->
  let a := play name loop (play other loop' s) in
  let b := play name loop s in
  current_anim a = current_anim b /\ current_frames a = current_frames b /\
  current_loop a = current_loop b /\ anim_i a = anim_i b /\
  frame_ms a = frame_ms b /\ anim_timer a = anim_timer b /\
  label_pixmap a = label_pixmap b /\ label_pos a = label_pos b.
Proof.
  intros Hget. cbn zeta.
  destruct (play_consts other loop' s) as (C1 & C2 & C3 & C4 & C5).
  assert (Hget' : dict_get (anims (play other loop' s)) name = Some (f :: fs))
    by (by rewrite C1).
  destruct (play_loaded name loop _ f fs Hget') as (A1 & A2 & A3 & A4 & A5 & _ & _ & _ & _ & A10 & A11).
  destruct (play_loaded name loop s f fs Hget) as (B1 & B2 & B3 & B4 & B5 & _ & _ & _ & _ & B10 & B11).
  unfold displayed in A5, B5.
  rewrite A1, A2, A3, A4, A11, A10, A5, B1, B2, B3, B4, B11, B10, B5, C2.
  repeat split.
  rewrite (play_eq name loop _ f fs Hget'), (play_eq name loop s f fs Hget).
  change (label_pos (set_pixmap f (play other loop' s)) = label_pos (set_pixmap f s)).
  by apply set_pixmap_pos_ext.
Qed.

Lemma last_play_wins_witness :
  current_anim (play "idle" true (play "wave" false Demo.buddy)) = "idle"%string /\
  anim_i (play "idle" true (play "wave" false Demo.buddy)) = 0%nat.
Proof.
  destruct (last_play_wins Demo.buddy "idle" "wave" true false
              (Demo.frame 1097) [Demo.frame 1098]) as (H1 & _ & _ & H4 & _).
  - vm_compute. reflexivity.
  - rewrite H1, H4. split; reflexivity.
Defined.

Lemma dict_set_fresh {V : Type} (d : dict V) (k : string) (v : V) :
  k ∉ d.*1 -> dict_set d k v = d ++ [(k, v)].
Proof.
  induction d as [|[k' v'] d IH]; intros Hk; [reflexivity|]. cbn [dict_set].
  rewrite bool_decide_eq_false_2.
  - cbn. f_equal. apply IH. intros Hin. apply Hk. by right.
  - intros ->. apply Hk. left.
Qed.

Lemma loaded_fresh (folders : list (string * FrameStore.Folder)) :
  forall d, NoDup (d.*1 ++ folders.*1) ->
  foldl (fun d (nf : string * FrameStore.Folder) =>
           dict_set d nf.1 (FrameStore.load_frames nf.2)) d folders =
  d ++ ((fun nf : string * FrameStore.Folder => (nf.1, FrameStore.load_frames nf.2)) <$> folders).
Proof.
  induction folders as [|[n fo] folders IH]; intros d Hnd.
  - cbn. by rewrite app_nil_r.
  - cbn [foldl fst snd]. cbn in Hnd. rewrite dict_set_fresh.
    + rewrite IH.
      * rewrite <- app_assoc. reflexivity.
      * rewrite fmap_app. cbn. rewrite <- app_assoc. exact Hnd.
    + apply NoDup_app in Hnd as (_ & Hdis & _). intros Hin. apply (Hdis n Hin). left.
Qed.

(** The constructor, given folders with distinct names: it loads every
    folder, in the order listed; it builds the engine exactly when the
    "idle" folder yields a frame; and the engine starts on "idle",
    looping at frame 0 with that frame shown, timed at 300 ms, with
    the action timer armed once, not dragging, on a canvas that is the
    bounding box of all frames under 60 pixels of padding. *)
Theorem init_loads_folders (folders : list (string * FrameStore.Folder))
    (origin : QPoint) (src : nat -> Z) :
  NoDup folders.*1 ->
  let d := (fun nf : string * FrameStore.Folder =>
              (nf.1, FrameStore.load_frames nf.2)) <$> folders in
  (is_Some (init folders origin src) <->
   exists folder f fs, ("idle"%string, folder) ∈ folders /\
                       FrameStore.load_frames folder = f :: fs) /\
  (forall s, init folders origin src = Some s ->
     anims s = d /\ current_anim s = "idle"%string /\ current_loop s = true /\
     anim_i s = 0%nat /\ dict_get d "idle" = Some (current_frames s) /\
     displayed s = current_frames s !! 0%nat /\
     frame_ms s = 300 /\ anim_timer s = Some 300 /\ arm_count s = 1%nat /\
     pos s = origin /\ drag_offset s = None /\
     (canvas_w s, canvas_h s) = compute_canvas_size d /\ TOP_PAD s = 60).
Proof.
  intros Hnd d.
  assert (Hd : foldl (fun d (nf : string * FrameStore.Folder) =>
                        dict_set d nf.1 (FrameStore.load_frames nf.2)) [] folders = d)
    by (rewrite loaded_fresh; [reflexivity | exact Hnd]).
  assert (Hkeys : NoDup d.*1).
  { unfold d. rewrite <- list_fmap_compose.
    erewrite list_fmap_ext; [exact Hnd|]. by intros _ [n fo] _. }
  split.
  - unfold init. rewrite Hd. unfold dict_get_default. split.
    + intros Hsome. destruct (dict_get d "idle") as [[|f fs]|] eqn:Hget;
        [by destruct Hsome | | by destruct Hsome].
      apply dict_get_elem in Hget. unfold d in Hget.
      apply list_elem_of_fmap in Hget as ([n folder] & [= -> Hload] & Hin).
      exists folder, f, fs. by split.
    + intros (folder & f & fs & Hin & Hload).
      assert (Hget : dict_get d "idle" = Some (f :: fs)).
      { apply dict_get_unique; [exact Hkeys|]. unfold d. apply list_elem_of_fmap.
        exists ("idle"%string, folder). cbn. by rewrite Hload. }
      rewrite Hget. destruct (compute_canvas_size d). by eexists.
  - intros s. unfold init. rewrite Hd. unfold dict_get_default.
    destruct (dict_get d "idle") as [[|f fs]|] eqn:Hget; try discriminate.
    destruct (compute_canvas_size d) as [w h] eqn:Hc. intros [= <-].
    repeat split.
Qed.

Lemma init_loads_folders_witness :
  is_Some (init Demo.folders (100, 100) (fun _ => 0)).
Proof.
  destruct (init_loads_folders Demo.folders (100, 100) (fun _ => 0)) as [Hiff _].
  - apply (bool_decide_eq_true_1 _). vm_compute. reflexivity.
  - apply Hiff. exists Demo.idle_folder, (Demo.frame 1097), [Demo.frame 1098].
    split; [|reflexivity]. right. left.
Defined.

(** When the idle animation has no frames the constructor never gets
    to show the fallback picture: with [buddy.png] missing or
    undecodable it puts up the "Missing" label, and with a decodable
    [buddy.png] the call of [set_pixmap] reads [canvas_w] before it
    is assigned and raises. Once the canvas is known the same call
    succeeds. *)
Theorem fallback_sprite_never_shown (folders : list (string * FrameStore.Folder))
    (origin : QPoint) (src : nat -> Z) (buddy_png : option (option QPixmap)) :
  Startup.construct folders origin src buddy_png <> Startup.StaticSprite /\
  (Startup.construct folders origin src buddy_png = Startup.Raised <->
   init folders origin src = None /\ exists pix, buddy_png = Some (Some pix)) /\
  (Startup.construct folders origin src buddy_png = Startup.MissingLabel <->
   init folders origin src = None /\ (buddy_png = None \/ buddy_png = Some None)) /\
  (forall c pad pix, Startup.set_sprite (Some c) pad (Some (Some pix)) = Some true).
Proof.
  unfold Startup.construct.
  destruct (init folders origin src) as [s|]; destruct buddy_png as [[pix|]|]; cbn;
    (split; [discriminate|]); (split; [|split]);
    try (split; [discriminate | intros [H _]; discriminate]);
    try (intros [c1 c2] pad pix'; reflexivity).
  - split; [intros _ | reflexivity]. split; [reflexivity | by exists pix].
  - split; [discriminate|]. intros [_ [H | H]]; discriminate.
  - split; [discriminate|]. intros [_ (p & H)]; discriminate.
  - split; [intros _ | reflexivity]. split; [reflexivity | by right].
  - split; [discriminate|]. intros [_ (p & H)]; discriminate.
  - split; [intros _ | reflexivity]. split; [reflexivity | by left].
Qed.

End ActionProperties.

(** ** Dragging, further *)
Section DragMore.
Import Widget Drag.

Lemma moves_keep_offset (points : list QPoint) :
  forall s, drag_offset (moves points s) = drag_offset s.
Proof.
  induction points as [|g points IH]; intros s; [reflexivity|].
  cbn [moves foldl]. fold (moves points (mouseMoveEvent [LeftButton] g s)). rewrite IH.
  unfold mouseMoveEvent. destruct (drag_offset s) eqn:Hd; [|exact Hd].
  by rewrite bool_decide_eq_true_2 by left.
Qed.

(** However the pointer wanders during a drag, the window ends up
    displaced from where it was grabbed by exactly the displacement of
    the pointer since the grab: the point grabbed stays under the
    pointer. *)
Theorem drag_follows_pointer (s : Buddy) (g0 g : QPoint) (points : list QPoint) :
  let s' := moves (points ++ [g]) (mousePressEvent LeftButton g0 s) in
  pos s' = ((pos s).1 + (g.1 - g0.1), (pos s).2 + (g.2 - g0.2)) /\
  point_sub g (pos s') = point_sub g0 (pos s) /\
  drag_offset s' = Some (point_sub g0 (pos s)).
Proof.
  cbn zeta. unfold moves. rewrite foldl_app. cbn [foldl].
  fold (moves points (mousePressEvent LeftButton g0 s)).
  pose proof (moves_keep_offset points (mousePressEvent LeftButton g0 s)) as Hoff.
  change (drag_offset (mousePressEvent LeftButton g0 s))
    with (Some (point_sub g0 (pos s))) in Hoff.
  unfold mouseMoveEvent. rewrite Hoff. rewrite bool_decide_eq_true_2 by left.
  cbn [pos drag_offset emit with_pos]. rewrite Hoff.
  unfold point_sub. cbn [fst snd]. repeat split; f_equal; lia.
Qed.

Lemma deliver_no_drag (ev : MouseEvent) (held : list Button) (s : Buddy) :
  ~ is_left_press ev -> drag_offset s = None ->
  drag_offset (deliver ev (held, s)).2 = None /\ pos (deliver ev (held, s)).2 = pos s.
Proof.
  intros Hev Hd. destruct ev as [b p | p | b p]; cbn [deliver snd].
  - destruct b; [by destruct Hev | |]; by cbn.
  - unfold mouseMoveEvent. by rewrite Hd.
  - by cbn.
Qed.

(** Releasing any button ends the drag, and from then on no sequence
    of events moves the window until the left button is pressed
    again. *)
Theorem release_ends_drag (s : Buddy) (held : list Button) (evs : list MouseEvent) :
  Forall (fun ev => ~ is_left_press ev) evs ->
  let st := deliver_all evs (held, mouseReleaseEvent s) in
  drag_offset st.2 = None /\ pos st.2 = pos s.
Proof.
  intros Hall. cbn zeta.
  assert (Hgen : forall held s0, drag_offset s0 = None ->
            drag_offset (deliver_all evs (held, s0)).2 = None /\
            pos (deliver_all evs (held, s0)).2 = pos s0).
  { induction Hall as [|ev evs Hev _ IH]; intros held0 s0 Hd; [by cbn|].
    cbn [deliver_all foldl]. fold (deliver_all evs (deliver ev (held0, s0))).
    destruct (deliver_no_drag ev held0 s0 Hev Hd) as [H1 H2].
    destruct (deliver ev (held0, s0)) as [held1 s1]. cbn [snd] in H1, H2.
    destruct (IH held1 s1 H1) as [I1 I2]. by rewrite I1, I2, H2. }
  apply (Hgen held (mouseReleaseEvent s)). reflexivity.
Qed.

Lemma release_ends_drag_witness :
  pos (deliver_all [Move (150, 140); Press RightButton (1, 1); Move (7, 7)]
         ([LeftButton], mouseReleaseEvent (mousePressEvent LeftButton (110, 110) Demo.buddy))).2
  = (100, 100).
Proof.
  apply (release_ends_drag (mousePressEvent LeftButton (110, 110) Demo.buddy)).
  repeat constructor; cbn; tauto.
Defined.

End DragMore.

(** ** The speech bubble *)
Section BubbleProperties.
Import Widget Bubble.

Variable size_hint : string -> Z * Z.
Variable width : Z.
Variable top_pad : Z.

(** [say] shows the bubble with the new text and (re)starts the one
    hide timer, so a second [say] replaces the first altogether. The
    bubble is centred, to the pixel below; it never starts above the
    window, and when text and gap fit into the padding it ends 8
    pixels above the sprite area. *)
Theorem say_places_bubble (txt txt' : string) (ms ms' : Z) (b : Bubble) :
  let b1 := say size_hint width top_pad txt ms b in
  visible b1 = true /\ text b1 = txt /\ bubble_timer b1 = Some ms /\
  0 <= (bpos b1).2 /\
  2 * (bpos b1).1 <= width - (size b1).1 <= 2 * (bpos b1).1 + 1 /\
  ((size b1).2 + 8 <= top_pad -> (bpos b1).2 + (size b1).2 + 8 = top_pad) /\
  (top_pad < (size b1).2 + 8 -> (bpos b1).2 = 0) /\
  say size_hint width top_pad txt' ms' b1 = say size_hint width top_pad txt' ms' b /\
  visible (on_timeout b1) = false /\ bubble_timer (on_timeout b1) = None.
Proof.
  cbn zeta. unfold say. cbn [visible text bubble_timer bpos size fst snd].
  pose proof (Z.div_mod (width - (size_hint txt).1) 2 ltac:(lia)).
  pose proof (Z.mod_pos_bound (width - (size_hint txt).1) 2 ltac:(lia)).
  destruct (Z.ltb_spec (top_pad - (size_hint txt).2 - 8) 0);
    repeat split; intros; try reflexivity; lia.
Qed.

End BubbleProperties.

(** ** The frame store, further *)
Section FrameStoreMore.
Import FrameStore FrameOrder.

Lemma decode_all_omap (folder : Folder) (paths : list str) :
  decode_all folder paths = omap (decode folder) paths.
Proof.
  induction paths as [|p paths IH]; [reflexivity|].
  cbn [decode_all omap list_omap]. unfold decode at 1.
  destruct (path_exists folder p); cbn [negb]; [|exact IH].
  destruct (pixmap folder p); by rewrite IH.
Qed.

(** The frames are the pixmaps of the listed paths that exist and
    decode, in the order listed, one per listing; a path that is
    missing or does not decode is passed over and costs one frame,
    nothing else. *)
Theorem frames_are_decoded_files (folder : Folder) :
  (forall pix, pix ∈ load_frames folder <->
     exists p, p ∈ load_paths folder /\ path_exists folder p = true /\
               pixmap folder p = Some pix) /\
  (length (load_frames folder) <= length (load_paths folder))%nat /\
  (Forall (fun p => is_Some (decode folder p)) (load_paths folder) ->
   Forall2 (fun p pix => pixmap folder p = Some pix)
           (load_paths folder) (load_frames folder)) /\
  (forall before p after, load_paths folder = before ++ p :: after ->
     decode folder p = None ->
     load_frames folder = decode_all folder before ++ decode_all folder after).
Proof.
  unfold load_frames. generalize (load_paths folder). intros paths.
  rewrite decode_all_omap. split; [|split; [|split]].
  - intros pix. rewrite list_elem_of_omap. unfold decode. split.
    + intros (p & Hin & Hd). exists p. split; [exact Hin|].
      destruct (path_exists folder p); [by split | discriminate].
    + intros (p & Hin & He & Hp). exists p. split; [exact Hin|]. by rewrite He.
  - induction paths as [|p paths IH]; [reflexivity|]. cbn [omap list_omap].
    destruct (decode folder p); cbn [length]; lia.
  - intros Hall. induction Hall as [|p paths [pix Hp] _ IH]; [constructor|].
    cbn [omap list_omap]. rewrite Hp. constructor; [|exact IH].
    unfold decode in Hp. destruct (path_exists folder p); [exact Hp | discriminate].
  - intros before p after -> Hnone. rewrite !decode_all_omap, omap_app.
    cbn [omap list_omap]. by rewrite Hnone.
Qed.

Lemma frames_are_decoded_files_witness :
  Forall2 (fun p pix => pixmap Demo.wave_folder p = Some pix)
          [[100]; [99]; [98]; [97]] (load_frames Demo.wave_folder).
Proof.
  destruct (frames_are_decoded_files Demo.wave_folder) as (_ & _ & H & _).
  apply H. vm_compute. repeat constructor; by eexists.
Defined.

Lemma lstrip_suffix (l : list Z) :
  exists pre, l = pre ++ lstrip l /\ Forall (fun c => is_space c = true) pre.
Proof.
  induction l as [|c l (pre & Hl & Hpre)].
  - exists []. by split.
  - cbn [lstrip]. destruct (is_space c) eqn:Hc.
    + exists (c :: pre). split; [cbn; by rewrite <- Hl | by constructor].
    + exists []. by split.
Qed.

Lemma lstrip_head (l : list Z) (c : Z) (rest : list Z) :
  lstrip l = c :: rest -> is_space c = false.
Proof.
  induction l as [|x l IH]; [discriminate|]. cbn [lstrip].
  destruct (is_space x) eqn:Hx; [exact IH|]. by intros [= <- _].
Qed.

(** A stripped line is a piece of the line: white space, the piece,
    white space. *)
Lemma strip_middle (line : list Z) :
  exists pre post, line = pre ++ strip line ++ post /\
                   lstrip line = strip line ++ post /\
                   lstrip (reverse (lstrip line)) = reverse (strip line).
Proof.
  destruct (lstrip_suffix line) as (pre & Hline & _).
  destruct (lstrip_suffix (reverse (lstrip line))) as (rpost & Hrev & _).
  exists pre, (reverse rpost).
  assert (Hm : lstrip line = strip line ++ reverse rpost).
  { unfold strip, rstrip. rewrite <- (reverse_involutive (lstrip line)) at 1.
    rewrite Hrev at 1. by rewrite reverse_app. }
  split; [by rewrite <- Hm|]. split; [exact Hm|].
  unfold strip, rstrip. by rewrite reverse_involutive.
Qed.

Lemma strip_clean_ends (line : list Z) :
  (forall c rest, strip line = c :: rest -> is_space c = false) /\
  (forall c front, strip line = front ++ [c] -> is_space c = false).
Proof.
  destruct (strip_middle line) as (pre & post & _ & Hm & Hr). split.
  - intros c rest Hs. rewrite Hs in Hm. by apply (lstrip_head line c (rest ++ post)).
  - intros c front Hs. rewrite Hs, reverse_app in Hr. cbn in Hr.
    by apply (lstrip_head _ _ _ Hr).
Qed.

Lemma splitlines_no_breaks (n : nat) :
  forall s cur, (length s <= n)%nat ->
  Forall (fun c => is_linebreak c = false) cur ->
  Forall (Forall (fun c => is_linebreak c = false)) (splitlines_from cur s).
Proof.
  induction n as [|n IH]; intros s cur Hlen Hcur.
  - destruct s; [|cbn in Hlen; lia].
    destruct cur; cbn; [constructor | constructor; [exact Hcur | constructor]].
  - destruct s as [|c s];
      [destruct cur; cbn; [constructor | constructor; [exact Hcur | constructor]]|].
    cbn [splitlines_from]. cbn in Hlen. destruct (is_linebreak c) eqn:Hc.
    + destruct s as [|c' s'']; [constructor; [exact Hcur | constructor]|].
      cbn in Hlen. destruct ((c =? 13) && (c' =? 10)).
      * constructor; [exact Hcur|]. apply IH; [lia | constructor].
      * constructor; [exact Hcur|]. apply IH; [cbn; lia | constructor].
    + apply IH; [lia|]. apply Forall_app. split; [exact Hcur|]. by repeat constructor.
Qed.

Lemma manifest_paths_from (lines : list str) (name : str) :
  name ∈ manifest_paths lines ->
  exists line, line ∈ lines /\ name = strip line /\ name <> [] /\
               startswith_hash name = false.
Proof.
  induction lines as [|line lines IH]; intros Hin; [by apply elem_of_nil in Hin|].
  cbn [manifest_paths] in Hin.
  destruct (decide (strip line = [])) as [He | He].
  - rewrite bool_decide_eq_true_2 in Hin by done. cbn in Hin.
    destruct (IH Hin) as (l & Hl & H). exists l. split; [by right | exact H].
  - rewrite bool_decide_eq_false_2 in Hin by done. cbn [orb] in Hin.
    destruct (startswith_hash (strip line)) eqn:Hh.
    + destruct (IH Hin) as (l & Hl & H). exists l. split; [by right | exact H].
    + apply elem_of_cons in Hin as [-> | Hin].
      * exists line. split; [left | done].
      * destruct (IH Hin) as (l & Hl & H). exists l. split; [by right | exact H].
Qed.

(** With a manifest, every name handed to the file system is a line of
    it stripped of surrounding white space, and is clean: not empty,
    not a comment, free of white space at both ends and of line
    boundaries. *)
Theorem manifest_names_clean (folder : Folder) (text : str) :
  order_txt folder = Some text ->
  forall name, name ∈ load_paths folder ->
    (exists line, line ∈ splitlines text /\ name = strip line) /\ clean_name name.
Proof.
  intros Htxt name Hin. unfold load_paths in Hin. rewrite Htxt in Hin.
  destruct (manifest_paths_from _ _ Hin) as (line & Hline & -> & Hne & Hhash).
  split; [by exists line|].
  destruct (strip_clean_ends line) as [Hfirst Hlast].
  destruct (strip_middle line) as (pre & post & Hmid & _).
  repeat split.
  - exact Hne.
  - by eapply Hfirst.
  - intros ->. rewrite H in Hhash. cbn in Hhash. discriminate.
  - exact Hlast.
  - assert (Hnb : Forall (fun c => is_linebreak c = false) line).
    { pose proof (splitlines_no_breaks (length text) text [] (le_n _) (Forall_nil_2 _)) as Hall.
      rewrite Forall_forall in Hall. by apply Hall. }
    rewrite Hmid in Hnb. apply Forall_app in Hnb as [_ Hnb].
    by apply Forall_app in Hnb as [Hnb _].
Qed.

Lemma manifest_names_clean_witness :
  Forall clean_name (load_paths Demo.wave_folder).
Proof.
  apply Forall_forall. intros name Hin.
  by destruct (manifest_names_clean Demo.wave_folder _ eq_refl name Hin).
Defined.

Lemma str_leb_refl (a : str) : str_leb a a = true.
Proof.
  induction a as [|x a IH]; [reflexivity|]. cbn [str_leb].
  by rewrite Z.eqb_refl, IH, orb_true_r.
Qed.

Lemma str_leb_total (a : str) : forall b, str_leb a b = false -> str_leb b a = true.
Proof.
  induction a as [|x a IH]; intros [|y b]; cbn [str_leb]; try done.
  intros H. apply orb_false_iff in H as [Hlt H].
  apply Z.ltb_ge in Hlt. apply andb_false_iff in H as [Hne | Hrest].
  - apply Z.eqb_neq in Hne. apply orb_true_iff. left. apply Z.ltb_lt. lia.
  - destruct (Z.eq_dec x y) as [-> | Hne].
    + by rewrite Z.eqb_refl, (IH b Hrest), orb_true_r.
    + apply orb_true_iff. left. apply Z.ltb_lt. lia.
Qed.

Lemma str_leb_trans (a : str) :
  forall b c, str_leb a b = true -> str_leb b c = true -> str_leb a c = true.
Proof.
  induction a as [|x a IH]; intros [|y b] [|z c]; cbn [str_leb]; try done.
  intros Hab Hbc. apply orb_true_iff in Hab, Hbc. apply orb_true_iff.
  destruct Hab as [Hab | Hab], Hbc as [Hbc | Hbc];
    rewrite ?Z.ltb_lt, ?andb_true_iff, ?Z.eqb_eq in *.
  - left. lia.
  - left. lia.
  - left. lia.
  - right. destruct Hab as [-> Hab], Hbc as [-> Hbc]. split; [reflexivity|].
    by apply (IH b c).
Qed.

Lemma insert_sorted_perm (x : str) (l : list str) : insert_sorted x l ≡ₚ x :: l.
Proof.
  induction l as [|y l IH]; [reflexivity|]. cbn [insert_sorted].
  destruct (str_leb x y); [reflexivity|]. rewrite IH. apply Permutation_swap.
Qed.

Lemma insert_sorted_ascending (x : str) (l : list str) :
  ascending l -> ascending (insert_sorted x l).
Proof.
  induction l as [|y l IH]; intros Hl; [by cbn|]. cbn [insert_sorted].
  destruct Hl as [Hy Hl]. destruct (str_leb x y) eqn:Hxy.
  - cbn [ascending]. split; [|by split]. constructor; [exact Hxy|].
    eapply Forall_impl; [exact Hy|]. intros z Hz. by apply (str_leb_trans x y z).
  - cbn [ascending]. split; [|by apply IH].
    rewrite (insert_sorted_perm x l). constructor; [|exact Hy].
    by apply str_leb_total.
Qed.

Lemma sorted_ascending (l : list str) : ascending (sorted l) /\ sorted l ≡ₚ l.
Proof.
  induction l as [|x l [IH1 IH2]]; [by split|]. cbn [sorted foldr].
  fold (sorted l). split; [by apply insert_sorted_ascending|].
  by rewrite insert_sorted_perm, IH2.
Qed.

(** Without a manifest the paths tried are all the [*.png] files of
    the folder, each once, in ascending order of their names; so the
    frames come in file-name order. *)
Theorem glob_frames_in_name_order (folder : Folder) :
  order_txt folder = None ->
  ascending (load_paths folder) /\ load_paths folder ≡ₚ glob_png folder /\
  load_frames folder = omap (decode folder) (load_paths folder).
Proof.
  intros Hnone. unfold load_frames. rewrite decode_all_omap.
  unfold load_paths. rewrite Hnone.
  destruct (sorted_ascending (glob_png folder)) as [H1 H2]. by repeat split.
Qed.

Lemma glob_frames_in_name_order_witness :
  load_paths Demo.idle_folder = [[97]; [98]] /\ ascending (load_paths Demo.idle_folder).
Proof.
  destruct (glob_frames_in_name_order Demo.idle_folder eq_refl) as (H & _).
  split; [reflexivity | exact H].
Defined.

End FrameStoreMore.

(** ** Running the tool on its own output *)
Section Rekeying.
Import ChromaKey.

Variable set_iter : list Color -> list Color.

Lemma key_pixel_rgb (key : Color) (p : Pixel) : rgb_of (key_pixel key p) = rgb_of p.
Proof.
  destruct p as [[[r g] b] a]. unfold key_pixel, new_pixel.
  destruct (PrimFloat.leb _ _); [reflexivity|]. by destruct (PrimFloat.ltb _ _).
Qed.

Lemma getpixel_keyed (key : Color) (w h : Z) (d : list Pixel) (xy : Z * Z) :
  getpixel (mkImage w h (key_pixel key <$> d)) xy = getpixel (mkImage w h d) xy.
Proof.
  unfold getpixel. rewrite px_get_fmap. destruct (px_get (mkImage w h d) xy.1 xy.2); [|reflexivity].
  cbn. by rewrite key_pixel_rgb.
Qed.

(** Keying does not disturb the guess of the key, and keying the
    result with the same key changes nothing: an image that went
    through [auto_key] and [blue_to_alpha] comes out of a second pass
    as it went in. *)
Theorem rekeying_is_stable (img : Image) (key : Color) :
  wf_image img -> auto_key set_iter img = Some key ->
  exists out, blue_to_alpha img key = Some out /\
              auto_key set_iter out = Some key /\
              blue_to_alpha out key = Some out.
Proof.
  intros Hwf Hkey. eexists. split; [by apply blue_to_alpha_total|].
  destruct img as [w h d]. destruct Hwf as (Hw & Hh & Hlen & _). cbn in *. split.
  - rewrite <- Hkey. unfold auto_key. cbn [width height].
    rewrite (Forall_mapM_ext (getpixel (mkImage w h (key_pixel key <$> d)))
               (getpixel (mkImage w h d))); [reflexivity|].
    apply Forall_forall. intros xy _. apply getpixel_keyed.
  - rewrite blue_to_alpha_loop; [| assumption | assumption | by rewrite length_fmap].
    do 2 f_equal. rewrite <- list_fmap_compose. apply list_fmap_ext.
    intros _ p _. apply key_pixel_idem.
Qed.

End Rekeying.

Section RekeyingExample.
Import ChromaKey.

Lemma rekeying_is_stable_witness :
  exists out, blue_to_alpha Demo.sprite (0, 5, 255) = Some out /\
              auto_key Demo.first_seen out = Some (0, 5, 255) /\
              blue_to_alpha out (0, 5, 255) = Some out.
Proof.
  apply (rekeying_is_stable Demo.first_seen Demo.sprite (0, 5, 255) sprite_wf).
  vm_compute. reflexivity.
Defined.

End RekeyingExample.

(** ** A looping animation *)
Section LoopingProperties.
Import Widget.

(** Ticks of a looping animation only cycle its frames: from any
    frame, [k] ticks later the index is [k] further round the cycle
    and that frame is shown; the animation, its loop mode and the
    action timer are as they were. *)
Theorem looping_ticks_only_cycle (s : Buddy) (k : nat) :
  frame_inv s -> current_loop s = true ->
  let sk := ticks k s in
  anim_i sk = ((anim_i s + k) mod length (current_frames s))%nat /\
  (0 < k -> displayed sk = current_frames s !! anim_i sk)%nat /\
  current_anim sk = current_anim s /\ current_frames sk = current_frames s /\
  current_loop sk = true /\ arm_count sk = arm_count s.
Proof.
  intros [Hne Hlt] Hloop. cbn zeta.
  set (n := length (current_frames s)).
  induction k as [|k IH].
  - rewrite Nat.add_0_r, Nat.mod_small by exact Hlt. cbn. repeat split; try done. lia.
  - destruct IH as (I1 & _ & I3 & I4 & I5 & I6). rewrite ticks_S.
    pose proof (Nat.mod_upper_bound (anim_i s + k) n ltac:(lia)) as Hb.
    assert (Hstep : ((anim_i s + S k) mod n = ((anim_i s + k) mod n + 1) mod n)%nat).
    { rewrite Nat.Div0.add_mod_idemp_l. f_equal. lia. }
    destruct (decide (S ((anim_i s + k) mod n) < n)%nat) as [Hadv | Hend].
    + destruct (tick_advance (ticks k s)) as (T1 & T2 & T3 & T4 & T5 & _ & T7 & _).
      { rewrite I1, I4. exact Hadv. }
      rewrite Hstep, Nat.mod_small by lia.
      rewrite T1, T2, T3, T4, T5, T7, I1, I3, I4, I5, I6.
      replace ((anim_i s + k) mod n + 1)%nat with (S ((anim_i s + k) mod n)) by lia.
      done.
    + destruct (current_frames s) as [|f fs] eqn:Hf; [done|].
      destruct (tick_wrap (ticks k s) f fs) as (T1 & T2 & T3 & T4 & T5 & _ & T7 & _);
        [exact I4 | rewrite I1, I4; fold n; lia | exact I5 |].
      replace ((anim_i s + k) mod n + 1)%nat with n in Hstep by lia.
      rewrite Nat.Div0.mod_same in Hstep. rewrite Hstep.
      rewrite T1, T2, T3, T4, T7, I3, I4, I6. done.
Qed.

Lemma looping_ticks_only_cycle_witness :
  anim_i (ticks 5 Demo.buddy) = 1%nat /\ current_anim (ticks 5 Demo.buddy) = "idle"%string.
Proof.
  destruct (reachable_inv Demo.buddy demo_reachable) as [_ Hf].
  destruct (looping_ticks_only_cycle Demo.buddy 5 Hf eq_refl) as (H1 & _ & H3 & _).
  rewrite H1, H3. split; reflexivity.
Defined.

End LoopingProperties.
